(** * batchelor: Gaussian-kernel smoothing and variance adjustment

    A shallow embedding of [src/mnn_correction.cpp] and
    [src/smooth_gaussian_kernel.cpp].

    Numbers.  A C++ [double] is modelled by [dbl]: a real number, one of the
    two infinities, or a NaN.  Arithmetic on finite values is exact (rounding,
    overflow and underflow are abstracted away); the special values follow
    IEEE 754.  R's missing value [NA_REAL] is a NaN with a distinguished
    payload, which [ISNA] recognises, so it has a constructor of its own.
    The numbered theorems (C1 to C10, X1 to X20) are stated so that they do
    not rest on the exactness: they speak of the order of the operations, of
    the values that are not numbers, and of identities and comparisons that
    rounding keeps; the worked examples are evaluated in the exact
    arithmetic.  Where a statement turns on rounding, [Binary64] has the
    normalisation and the projections of [adjust_shift_variance] on IEEE 754
    binary64 numbers.

    Containers.  A numeric matrix is read through beachmat's accessor
    interface and is modelled by its dimensions and a cell function.  An
    [Rcpp::NumericVector] is a [list dbl]; an [Rcpp::NumericMatrix] that the
    code fills column by column is the list of its columns. *)

From Stdlib Require Import Reals Lra Lia List ZArith Bool PeanoNat Sorted Permutation.
From Stdlib Require Floats.
Import ListNotations.

Set Implicit Arguments.

(* ================================================================= *)
(** ** Doubles *)

Module Dbl.

Local Open Scope R_scope.

Inductive dbl : Type :=
| Fin (r : R)   (* a finite value; the two zeros are identified *)
| PInf          (* +Inf *)
| NInf          (* -Inf *)
| NaN           (* a NaN produced by an invalid operation *)
| NA.           (* NA_REAL, R's missing value *)

Definition req (a b : R) : bool := if Req_dec_T a b then true else false.
Definition rlt (a b : R) : bool := if Rlt_dec a b then true else false.
Definition rle (a b : R) : bool := if Rle_dec a b then true else false.

(** [ISNAN] of R's API ([std::isnan]): true of NaN and of NA. *)
Definition ISNAN (x : dbl) : bool :=
  match x with NaN | NA => true | _ => false end.

(** [ISNA] of R's API: true of the missing value only. *)
Definition ISNA (x : dbl) : bool :=
  match x with NA => true | _ => false end.

Definition is_finite (x : dbl) : bool :=
  match x with Fin _ => true | _ => false end.

Definition zero : dbl := Fin 0.
Definition one : dbl := Fin 1.

(** Conversion of an [int] to [double]. *)
Definition of_int (z : Z) : dbl := Fin (IZR z).

(** A NaN operand is returned as it is, the left one first (which payload
    survives is platform dependent; this is what SSE arithmetic does). *)

Definition dneg (x : dbl) : dbl :=
  match x with
  | Fin a => Fin (- a)
  | PInf => NInf
  | NInf => PInf
  | NaN => NaN
  | NA => NA
  end.

Definition dadd (x y : dbl) : dbl :=
  match x, y with
  | (NaN | NA), _ => x
  | _, (NaN | NA) => y
  | Fin a, Fin b => Fin (a + b)
  | PInf, NInf | NInf, PInf => NaN
  | PInf, _ | _, PInf => PInf
  | NInf, _ | _, NInf => NInf
  end.

Definition dsub (x y : dbl) : dbl := dadd x (dneg y).

(** The infinity with the sign of [a], and NaN when [a] is zero. *)
Definition signed_inf (a : R) (pos : dbl) (neg : dbl) : dbl :=
  if req a 0 then NaN else if rlt 0 a then pos else neg.

Definition dmul (x y : dbl) : dbl :=
  match x, y with
  | (NaN | NA), _ => x
  | _, (NaN | NA) => y
  | Fin a, Fin b => Fin (a * b)
  | Fin a, PInf | PInf, Fin a => signed_inf a PInf NInf
  | Fin a, NInf | NInf, Fin a => signed_inf a NInf PInf
  | PInf, PInf | NInf, NInf => PInf
  | PInf, NInf | NInf, PInf => NInf
  end.

(** Division.  A zero divisor gives an infinity (0/0 gives NaN); as the two
    zeros are identified, the divisor counts as +0. *)
Definition ddiv (x y : dbl) : dbl :=
  match x, y with
  | (NaN | NA), _ => x
  | _, (NaN | NA) => y
  | Fin a, Fin b => if req b 0 then signed_inf a PInf NInf else Fin (a / b)
  | Fin _, (PInf | NInf) => Fin 0
  | PInf, Fin b => if rlt b 0 then NInf else PInf
  | NInf, Fin b => if rlt b 0 then PInf else NInf
  | (PInf | NInf), (PInf | NInf) => NaN
  end.

Definition dabs (x : dbl) : dbl :=
  match x with
  | Fin a => Fin (Rabs a)
  | PInf | NInf => PInf
  | NaN => NaN
  | NA => NA
  end.

Definition dsqrt (x : dbl) : dbl :=
  match x with
  | Fin a => if rlt a 0 then NaN else Fin (sqrt a)
  | PInf => PInf
  | NInf => NaN
  | NaN => NaN
  | NA => NA
  end.

Definition dexp (x : dbl) : dbl :=
  match x with
  | Fin a => Fin (exp a)
  | PInf => PInf
  | NInf => Fin 0
  | NaN => NaN
  | NA => NA
  end.

Definition dlog1p (x : dbl) : dbl :=
  match x with
  | Fin a => if rlt a (-1) then NaN else if req a (-1) then NInf else Fin (ln (1 + a))
  | PInf => PInf
  | NInf => NaN
  | NaN => NaN
  | NA => NA
  end.

(** Comparisons: false as soon as an operand is a NaN. *)
Definition dlt (x y : dbl) : bool :=
  match x, y with
  | Fin a, Fin b => rlt a b
  | Fin _, PInf | NInf, Fin _ | NInf, PInf => true
  | _, _ => false
  end.

Definition dle (x y : dbl) : bool :=
  match x, y with
  | Fin a, Fin b => rle a b
  | Fin _, PInf | NInf, Fin _ | NInf, PInf | PInf, PInf | NInf, NInf => true
  | _, _ => false
  end.

Definition dge (x y : dbl) : bool := dle y x.

(** [std::max(a, b)]: [(a < b) ? b : a]. *)
Definition std_max (a b : dbl) : dbl := if dlt a b then b else a.

(** R's nmath [fmax2]. *)
Definition fmax2 (x y : dbl) : dbl :=
  if ISNAN x || ISNAN y then dadd x y else if dlt x y then y else x.

(** R's nmath [log1pexp], log(1 + exp(x)), with its cut-offs at 18 and 33.3. *)
Definition log1pexp (x : dbl) : dbl :=
  if dle x (Fin 18) then dlog1p (dexp x)
  else if dlt (Fin (333 / 10)) x then x
  else dadd x (dexp (dneg x)).

(** R's nmath [logspace_add]: log(exp(lx) + exp(ly)). *)
Definition logspace_add (lx ly : dbl) : dbl :=
  dadd (fmax2 lx ly) (dlog1p (dexp (dneg (dabs (dsub lx ly))))).

End Dbl.
Export Dbl.

(* ================================================================= *)
(** ** Errors and containers *)

(** What a call can fail with.  [DimensionMismatch] and [InvalidArgument] are
    the [std::runtime_error]s thrown before the work starts; [OutOfBounds] is
    an access outside a container (beachmat's index check, or an unchecked
    [operator[]]); [LengthError] is [std::length_error] from [resize]. *)
Inductive error : Type :=
| DimensionMismatch
| InvalidArgument
| OutOfBounds
| LengthError.

Inductive result (A : Type) : Type :=
| Ok (a : A)
| Err (e : error).

Arguments Ok {A} a.
Arguments Err {A} e.

Definition bind {A B : Type} (m : result A) (k : A -> result B) : result B :=
  match m with
  | Ok a => k a
  | Err e => Err e
  end.

Notation "x <- m ;; k" := (bind m (fun x => k))
  (at level 61, m at next level, right associativity).
Notation "' p <- m ;; k" := (bind m (fun x => let p := x in k))
  (at level 61, p pattern, m at next level, right associativity).

(** A numeric matrix behind beachmat's accessor interface. *)
Record matrix : Type := Matrix {
  get_nrow : nat;
  get_ncol : nat;
  cell : nat -> nat -> dbl   (* row, column *)
}.

Definition get_row (m : matrix) (r : nat) : list dbl :=
  map (fun c => cell m r c) (seq 0 (get_ncol m)).

Definition get_col (m : matrix) (c : nat) : list dbl :=
  map (fun r => cell m r c) (seq 0 (get_nrow m)).

(** [get_const_col] with beachmat's check of the column index. *)
Definition get_const_col (m : matrix) (c : Z) : result (list dbl) :=
  if ((0 <=? c) && (c <? Z.of_nat (get_ncol m)))%Z
  then Ok (get_col m (Z.to_nat c))
  else Err OutOfBounds.

(** A matrix given by its rows, for examples. *)
Definition of_rows (nr nc : nat) (rows : list (list dbl)) : matrix :=
  Matrix nr nc (fun r c => nth c (nth r rows []) NaN).

Definition zip_with {A B C : Type} (f : A -> B -> C) (l1 : list A) (l2 : list B) : list C :=
  map (fun p => f (fst p) (snd p)) (combine l1 l2).

(** [l[n] = x] for [n] inside [l]. *)
Fixpoint update {A : Type} (l : list A) (n : nat) (x : A) : list A :=
  match l, n with
  | [], _ => []
  | _ :: t, O => x :: t
  | y :: t, S n' => y :: update t n' x
  end.

(** [resize(n)], new elements value-initialised to [d]. *)
Definition resize {A : Type} (n : nat) (d : A) (l : list A) : list A :=
  firstn n l ++ repeat d (n - length l).

(** Checked read of [l[i]] for an [int] index. *)
Definition at_index {A : Type} (l : list A) (i : Z) : result A :=
  if (i <? 0)%Z then Err OutOfBounds
  else match nth_error l (Z.to_nat i) with
       | Some x => Ok x
       | None => Err OutOfBounds
       end.

(** [std::set<int>]: a strictly increasing list. *)
Fixpoint set_insert (x : Z) (s : list Z) : list Z :=
  match s with
  | [] => [x]
  | y :: t =>
      if (x <? y)%Z then x :: s
      else if (x =? y)%Z then s
      else y :: set_insert x t
  end.

(** [lower_bound(x)] points at [x]. *)
Definition set_mem (x : Z) (s : list Z) : bool := existsb (Z.eqb x) s.

(** [std::inner_product(first1, last1, first2, init)]. *)
Definition inner_product (a b : list dbl) (init : dbl) : dbl :=
  fold_left (fun acc p => dadd acc (dmul (fst p) (snd p))) (combine a b) init.

(** [target[k] += currow[k]] over [target]. *)
Definition vadd (target currow : list dbl) : list dbl := zip_with dadd target currow.

(** [t /= num] over [target], [num] an [int]. *)
Definition vdiv_int (target : list dbl) (num : Z) : list dbl :=
  map (fun t => ddiv t (of_int num)) target.

(** The per-anchor averages under construction: [averages], [number] and
    [mnncell] of the source. *)
Record avg_state : Type := AvgState {
  averages : list (list dbl);
  number : list Z;
  mnncell : list Z
}.

(** The loop that closes the averaging block: every sum is divided by its
    count, the identifiers taken from [mnncell]. *)
Definition divide_averages (st : avg_state) : avg_state :=
  fold_left
    (fun s i =>
       let k := Z.to_nat i in
       AvgState (update (averages s) k (vdiv_int (nth k (averages s) []) (nth k (number s) 0%Z)))
                (number s) (mnncell s))
    (mnncell st) st.

(* ================================================================= *)
(** ** The smoothing loops that both files share *)

Module Kernel.

(** Squared Euclidean distance of two columns (the loop over [g]). *)
Definition sq_dist (mnn_col other_col : list dbl) : dbl :=
  fold_left (fun curdist2 p =>
               let tmp := dsub (fst p) (snd p) in
               dadd curdist2 (dmul tmp tmp))
            (combine mnn_col other_col) zero.

(** The weighting loop of one anchor: [mult] per cell, added to [totalprob],
    and [correction * mult] added to the cell's column of [output].  The
    source walks [output] with one linear iterator; as [correction] has as
    many entries as [output] has rows, the walk visits column after column. *)
Definition accumulate (distances2 : list dbl) (density : dbl) (correction : list dbl)
    (acc : list (list dbl) * list dbl) : list (list dbl) * list dbl :=
  let mults := map (fun d => dexp (dsub d density)) distances2 in
  (zip_with (fun col mult => zip_with (fun o corval => dadd o (dmul corval mult)) col correction)
            (fst acc) mults,
   zip_with dadd (snd acc) mults).

(** "Dividing by the total probability." *)
Definition divide_by_total (output : list (list dbl)) (totalprob : list dbl) : list (list dbl) :=
  zip_with (fun curcol total => map (fun val => ddiv val total) curcol) output totalprob.

(** [Rcpp::NumericMatrix output(ngenes, ncells)] and [totalprob(ncells)]. *)
Definition initial_output (ngenes ncells : nat) : list (list dbl) * list dbl :=
  (repeat (repeat zero ngenes) ncells, repeat zero ncells).

End Kernel.

(** A loop whose body can fail. *)
Fixpoint foldM {A S : Type} (f : A -> S -> result S) (l : list A) (s : S) : result S :=
  match l with
  | [] => Ok s
  | a :: t => s' <- f a s ;; foldM f t s'
  end.

(* ================================================================= *)
(** ** src/mnn_correction.cpp *)

Module MnnCorrection.

(** One round of the loop over [_index]: [currow] is row [row] of the
    correction vectors and [i] its anchor identifier.

    [i] is an [int].  A negative [i] is converted to [size_t] in
    [i >= averages.size()], which then holds; [resize(i+1)] empties the deque
    when [i = -1], and [averages[i]] is outside it, and asks for more than
    [max_size()] elements when [i < -1].  At [i = INT_MAX] the [int] [i+1]
    overflows; [i] has no bound here, so this is the loop for the identifiers
    below [int_max], as the numbers of the cells of a matrix are.

    A first row is stored by sharing ([averages[i]=currow]), after which
    [currow] is bound to a fresh vector, so later rows do not write into it. *)
Definition avg_step (currow : list dbl) (i : Z) (st : avg_state) : result avg_state :=
  if (i <? 0)%Z then
    if (i =? -1)%Z then Err OutOfBounds else Err LengthError
  else
    let k := Z.to_nat i in
    let grow := (length (averages st) <=? k)%nat in
    if grow || (length (nth k (averages st) []) =? 0)%nat then
      let av := if grow then resize (S k) [] (averages st) else averages st in
      let num := if grow then resize (S k) 0%Z (number st) else number st in
      Ok (AvgState (update av k currow) (update num k 1%Z) (set_insert i (mnncell st)))
    else
      Ok (AvgState (update (averages st) k (vadd (nth k (averages st) []) currow))
                   (update (number st) k (nth k (number st) 0 + 1)%Z)
                   (mnncell st)).

Fixpoint avg_loop (vect : matrix) (index : list Z) (row : nat) (st : avg_state)
    : result avg_state :=
  match index with
  | [] => Ok st
  | i :: rest =>
      st' <- avg_step (get_row vect row) i st ;;
      avg_loop vect rest (S row) st'
  end.

(** "Constructing the average vector for each MNN cell." *)
Definition build_averages (vect : matrix) (index : list Z) : result avg_state :=
  st <- avg_loop vect index 0 (AvgState [] [] []) ;;
  Ok (divide_averages st).

(** The squared distances of every cell to the anchor, then the second pass
    [d2 /= -s2]. *)
Definition log_probabilities (mat : matrix) (s2 : dbl) (mnn_col : list dbl) : list dbl :=
  let distances2 :=
    map (fun other => Kernel.sq_dist mnn_col (get_col mat other)) (seq 0 (get_ncol mat)) in
  map (fun d2 => ddiv d2 (dneg s2)) distances2.

(** One round of the density loop; [density] starts as [NA_REAL]. *)
Definition density_step (distances2 : list dbl) (other_mnn : Z) (density : dbl) : result dbl :=
  to_add <- at_index distances2 other_mnn ;;
  if ISNA density then Ok to_add
  else
    let larger := std_max to_add density in
    let diff := dabs (dsub to_add density) in
    Ok (dadd larger (log1pexp (dneg diff))).

Definition mnn_density (distances2 : list dbl) (mnncell : list Z) : result dbl :=
  foldM (density_step distances2) mnncell NA.

(** One round of the loop over [mnncell]. *)
Definition smooth_pass (mat : matrix) (s2 : dbl) (st : avg_state) (mnn : Z)
    (acc : list (list dbl) * list dbl) : result (list (list dbl) * list dbl) :=
  mnn_col <- get_const_col mat mnn ;;
  let distances2 := log_probabilities mat s2 mnn_col in
  density <- mnn_density distances2 (mnncell st) ;;
  let correction := nth (Z.to_nat mnn) (averages st) [] in
  Ok (Kernel.accumulate distances2 density correction acc).

(** The loop over [mnncell]: the output before the division, and [totalprob]. *)
Definition smooth_sums (mat : matrix) (s2 : dbl) (st : avg_state) (ngenes : nat)
    : result (list (list dbl) * list dbl) :=
  foldM (smooth_pass mat s2 st) (mnncell st) (Kernel.initial_output ngenes (get_ncol mat)).

(** [smooth_gaussian_kernel(vect, index, data, sigma)]; the result is the
    list of the columns of [output].  [check_numeric_scalar] is declared in
    utils.h. *)
Definition smooth_gaussian_kernel (check_numeric_scalar : dbl -> result dbl)
    (vect : matrix) (index : list Z) (data : matrix) (sigma : dbl)
    : result (list (list dbl)) :=
  let npairs := get_nrow vect in
  let ngenes := get_ncol vect in
  if negb (npairs =? length index)%nat then Err DimensionMismatch
  else
    st <- build_averages vect index ;;
    s2 <- check_numeric_scalar sigma ;;
    acc <- smooth_sums data s2 st ngenes ;;
    Ok (Kernel.divide_by_total (fst acc) (snd acc)).

(** *** Variance adjustment *)

(** The second loop of [sq_distance_to_line]: the component along [grad] is
    taken out of [working] and the squares of what is left are summed. *)
Fixpoint line_residual (scale : dbl) (working grad : list dbl) (dist : dbl)
    : dbl * list dbl :=
  match working, grad with
  | w :: ws, g :: gs =>
      let w' := dsub w (dmul scale g) in
      let r := line_residual scale ws gs (dadd dist (dmul w' w')) in
      (fst r, w' :: snd r)
  | _, _ => (dist, working)
  end.

(** [sq_distance_to_line(ref, grad, point, working)]: the distance, and
    [working] as the call leaves it.  [working] is written before it is read. *)
Definition sq_distance_to_line (ref grad point working : list dbl) : dbl * list dbl :=
  let working1 := firstn (length working) (zip_with dsub ref point) in
  let scale := inner_product working1 grad zero in
  line_residual scale working1 grad zero.

(** [operator<] of [std::pair<double, double>]. *)
Definition pair_lt (a b : dbl * dbl) : bool :=
  dlt (fst a) (fst b) || (negb (dlt (fst b) (fst a)) && dlt (snd a) (snd b)).

Fixpoint sort_insert (x : dbl * dbl) (l : list (dbl * dbl)) : list (dbl * dbl) :=
  match l with
  | [] => [x]
  | y :: t => if pair_lt y x then y :: sort_insert x t else x :: l
  end.

(** [std::sort(distance1.begin(), distance1.end())], as an insertion sort.
    (Pairs that compare equivalent are equal unless a NaN is involved, so the
    order of equivalent elements does not show.) *)
Definition sort (l : list (dbl * dbl)) : list (dbl * dbl) :=
  fold_right sort_insert [] l.

(** The walk along the sorted reference cells: the projection at which the
    cumulative weight reaches [target], if it does. *)
Fixpoint quantile_walk (distance1 : list (dbl * dbl)) (target cumulative : dbl) : option dbl :=
  match distance1 with
  | [] => None
  | val :: t =>
      let cumulative' := dadd cumulative (snd val) in
      if dge cumulative' target then Some (fst val)
      else quantile_walk t target cumulative'
  end.

(** The buffers that live across the loop over the cells. *)
Record buffers : Type := Buffers {
  working : list dbl;
  distance1 : list (dbl * dbl)
}.

(** What one round of the loop over the cells computes. *)
Record cell_trace : Type := CellTrace {
  l2norm : dbl;
  unit_grad : list dbl;
  curproj : dbl;
  prob2 : dbl;
  totalprob1 : dbl;
  sorted1 : list (dbl * dbl);
  ref_quan : dbl;
  scaling : dbl
}.

(** "Getting the cumulative probability of each cell in its own batch":
    one round; the state is [prob2], [totalprob2] and [working]. *)
Definition same_step (d2 : matrix) (s2 : dbl) (grad curcell : list dbl) (curproj : dbl)
    (cell : nat) (st : dbl * dbl * list dbl) (same : nat) : dbl * dbl * list dbl :=
  let '(prob2, totalprob2, working) := st in
  if (same =? cell)%nat then (dadd prob2 one, dadd totalprob2 one, working)
  else
    let samecell := get_col d2 same in
    let sameproj := inner_product grad samecell zero in
    let r := sq_distance_to_line curcell grad samecell working in
    let sameprob := dexp (ddiv (dneg (fst r)) s2) in
    ((if dle sameproj curproj then dadd prob2 sameprob else prob2),
     dadd totalprob2 sameprob, snd r).

(** "Filling up the coordinates and weights for the reference batch": one
    round; the state is [totalprob1] and the buffers. *)
Definition other_step (d1 : matrix) (s2 : dbl) (grad curcell : list dbl)
    (st : dbl * buffers) (other : nat) : dbl * buffers :=
  let othercell := get_col d1 other in
  let first := inner_product grad othercell zero in
  let r := sq_distance_to_line curcell grad othercell (working (snd st)) in
  let second := dexp (ddiv (dneg (fst r)) s2) in
  (dadd (fst st) second,
   Buffers (snd r) (update (distance1 (snd st)) other (first, second))).

(** The body of the loop over the cells of the second batch. *)
Definition adjust_cell (d1 d2 v : matrix) (s2 : dbl) (cell : nat) (bufs : buffers)
    : cell_trace * buffers :=
  let ncells1 := get_ncol d1 in
  let ncells2 := get_ncol d2 in
  let curcell := get_col d2 cell in
  let grad0 := get_row v cell in
  let l2norm := dsqrt (fold_left (fun acc g => dadd acc (dmul g g)) grad0 zero) in
  let grad := map (fun g => ddiv g l2norm) grad0 in
  let curproj := inner_product grad curcell zero in
  let '(prob2, totalprob2, working2) :=
    fold_left (same_step d2 s2 grad curcell curproj cell) (seq 0 ncells2)
              (zero, zero, working bufs) in
  let prob2 := ddiv prob2 totalprob2 in
  let '(totalprob1, bufs1) :=
    fold_left (other_step d1 s2 grad curcell) (seq 0 ncells1)
              (zero, Buffers working2 (distance1 bufs)) in
  let sorted := sort (distance1 bufs1) in
  let target := dmul prob2 totalprob1 in
  let ref_quan0 := if (ncells1 =? 0)%nat then NA else fst (last sorted (NA, NA)) in
  let ref_quan :=
    match quantile_walk sorted target zero with
    | Some q => q
    | None => ref_quan0
    end in
  (CellTrace l2norm grad curproj prob2 totalprob1 sorted ref_quan
             (ddiv (dsub ref_quan curproj) l2norm),
   Buffers (working bufs1) sorted).

(** The loop over the cells: [output] and the buffers. *)
Definition adjust_loop (d1 d2 v : matrix) (s2 : dbl) (cells : list nat)
    (st : list dbl * buffers) : list dbl * buffers :=
  fold_left (fun st cell =>
               let r := adjust_cell d1 d2 v s2 cell (snd st) in
               (update (fst st) cell (scaling (fst r)), snd r))
            cells st.

(** [adjust_shift_variance(data1, data2, vect, sigma)]. *)
Definition adjust_shift_variance (check_numeric_scalar : dbl -> result dbl)
    (data1 data2 vect : matrix) (sigma : dbl) : result (list dbl) :=
  let ngenes := get_nrow data1 in
  if negb (ngenes =? get_nrow data2)%nat || negb (ngenes =? get_ncol vect)%nat
  then Err DimensionMismatch
  else
    let ncells1 := get_ncol data1 in
    let ncells2 := get_ncol data2 in
    if negb (ncells2 =? get_nrow vect)%nat then Err DimensionMismatch
    else
      s2 <- check_numeric_scalar sigma ;;
      let init := (repeat zero ncells2,
                   Buffers (repeat zero ngenes) (repeat (zero, zero) ncells1)) in
      Ok (fst (adjust_loop data1 data2 vect s2 (seq 0 ncells2) init)).

End MnnCorrection.

(* ================================================================= *)
(** ** src/smooth_gaussian_kernel.cpp *)

Module SmoothGaussianKernel.

(** One round of the loop over the rows.  [averages] and [number] have
    [ncells] elements and are indexed by [pair_dex] without a check. *)
Definition avg_step (currow : list dbl) (pair_dex : Z) (st : avg_state) : result avg_state :=
  if (pair_dex <? 0)%Z || (Z.of_nat (length (averages st)) <=? pair_dex)%Z
  then Err OutOfBounds
  else
    let k := Z.to_nat pair_dex in
    let target := nth k (averages st) [] in
    let num := update (number st) k (nth k (number st) 0 + 1)%Z in
    if set_mem pair_dex (mnncell st)
    then Ok (AvgState (update (averages st) k (vadd target currow)) num (mnncell st))
    else Ok (AvgState (update (averages st) k currow) num (set_insert pair_dex (mnncell st))).

Fixpoint avg_loop (vect : matrix) (index : list Z) (row : nat) (st : avg_state)
    : result avg_state :=
  match index with
  | [] => Ok st
  | pair_dex :: rest =>
      st' <- avg_step (get_row vect row) pair_dex st ;;
      avg_loop vect rest (S row) st'
  end.

(** "Constructing the average vector for each MNN cell." *)
Definition build_averages (vect : matrix) (index : list Z) (ncells : nat) : result avg_state :=
  st <- avg_loop vect index 0 (AvgState (repeat [] ncells) (repeat 0%Z ncells) []) ;;
  Ok (divide_averages st).

(** The squared distance of every cell to the anchor, divided by [-s2] as
    soon as it is computed. *)
Definition log_probabilities (mat : matrix) (s2 : dbl) (mnn_col : list dbl) : list dbl :=
  map (fun other => ddiv (Kernel.sq_dist mnn_col (get_col mat other)) (dneg s2))
      (seq 0 (get_ncol mat)).

(** One round of the density loop; the state is [density] and [starting]. *)
Definition density_step (distances2 : list dbl) (other_mnn : Z) (st : dbl * bool)
    : result (dbl * bool) :=
  d <- at_index distances2 other_mnn ;;
  if snd st then Ok (d, false)
  else Ok (logspace_add (fst st) d, false).

Definition mnn_density (distances2 : list dbl) (mnncell : list Z) : result dbl :=
  r <- foldM (density_step distances2) mnncell (zero, true) ;;
  Ok (fst r).

(** One round of the loop over [mnncell]. *)
Definition smooth_pass (mat : matrix) (s2 : dbl) (st : avg_state) (mnn : Z)
    (acc : list (list dbl) * list dbl) : result (list (list dbl) * list dbl) :=
  mnn_col <- get_const_col mat mnn ;;
  let distances2 := log_probabilities mat s2 mnn_col in
  density <- mnn_density distances2 (mnncell st) ;;
  let correction := nth (Z.to_nat mnn) (averages st) [] in
  Ok (Kernel.accumulate distances2 density correction acc).

Definition smooth_sums (mat : matrix) (s2 : dbl) (st : avg_state) (ngenes : nat)
    : result (list (list dbl) * list dbl) :=
  foldM (smooth_pass mat s2 st) (mnncell st) (Kernel.initial_output ngenes (get_ncol mat)).

(** [smooth_gaussian_kernel(vect, index, data, sigma)]. *)
Definition smooth_gaussian_kernel (check_numeric_scalar : dbl -> result dbl)
    (vect : matrix) (index : list Z) (data : matrix) (sigma : dbl)
    : result (list (list dbl)) :=
  let npairs := get_nrow vect in
  let ngenes := get_ncol vect in
  if negb (npairs =? length index)%nat then Err DimensionMismatch
  else
    let ncells := get_ncol data in
    s2 <- check_numeric_scalar sigma ;;
    st <- build_averages vect index ncells ;;
    acc <- smooth_sums data s2 st ngenes ;;
    Ok (Kernel.divide_by_total (fst acc) (snd acc)).

End SmoothGaussianKernel.

(* ================================================================= *)
(** ** What the specification adds to the source *)

(** Modelled from the spec: [check_numeric_scalar] is declared in utils.h and
    defined outside the two files.  Section 7 of the specification has a
    bandwidth that is zero or negative rejected as an InvalidArgument; any
    other scalar is returned as it is. *)
Definition check_numeric_scalar (sigma : dbl) : result dbl :=
  if dle sigma zero then Err InvalidArgument else Ok sigma.

(** The rows of the correction vectors that carry an identifier, in the
    order of the anchor index. *)
Definition rows_with (vect : matrix) (pairs : list (nat * Z)) (id : Z) : list (list dbl) :=
  map (fun p => get_row vect (fst p)) (filter (fun p => Z.eqb (snd p) id) pairs).

Definition rows_of (vect : matrix) (index : list Z) (id : Z) : list (list dbl) :=
  rows_with vect (combine (seq 0 (length index)) index) id.

(** The arithmetic mean of the specification's AverageMap, in the words of
    its invariant and entry by entry: entry [g] of the mean of some rows is
    the sum of their entries [g], added in the order of the rows, divided by
    the number of the rows. *)
Definition entry_sum (g : nat) (rows : list (list dbl)) : dbl :=
  match rows with
  | [] => NaN
  | r :: rest => fold_left (fun acc row => dadd acc (nth g row NaN)) rest (nth g r NaN)
  end.

Definition mean_of_rows (ngenes : nat) (rows : list (list dbl)) : list dbl :=
  map (fun g => ddiv (entry_sum g rows) (of_int (Z.of_nat (length rows)))) (seq 0 ngenes).

(** What the averaging loops leave, for their invariants: the rows added
    one onto the other with the loops' own [vadd], and that sum divided as
    the closing loop divides it.  That this is [mean_of_rows] is proved
    below. *)
Definition vsum (rows : list (list dbl)) : list dbl :=
  match rows with
  | [] => []
  | r :: rest => fold_left vadd rest r
  end.

Definition arithmetic_mean (rows : list (list dbl)) : list dbl :=
  map (fun t => ddiv t (of_int (Z.of_nat (length rows)))) (vsum rows).

(** The AverageMap that a state of the averaging block stands for: the
    vector and the count stored under an identifier of [mnncell]. *)
Definition average_map (st : avg_state) (id : Z) : option (list dbl * Z) :=
  if set_mem id (mnncell st)
  then Some (nth (Z.to_nat id) (averages st) [], nth (Z.to_nat id) (number st) 0%Z)
  else None.

(* ================================================================= *)
(** ** Invariants of the averaging loops *)

(** What holds of the state after the rows [done] (row number and
    identifier, in the order of the loop) have been read, in both files:
    [mnncell] is increasing and holds the identifiers read, every one of them
    is an index into [averages], and under it lies the sum of its rows. *)
Record avg_inv (vect : matrix) (done : list (nat * Z)) (st : avg_state) : Prop := AvgInv {
  inv_sorted : StronglySorted Z.lt (mnncell st);
  inv_mem : forall id, In id (mnncell st) <-> In id (map snd done);
  inv_len : length (number st) = length (averages st);
  inv_range : forall id, In id (mnncell st) ->
                         (0 <= id < Z.of_nat (length (averages st)))%Z;
  inv_sum : forall id, In id (mnncell st) ->
                       nth (Z.to_nat id) (averages st) [] = vsum (rows_with vect done id)
}.

(** In smooth_gaussian_kernel.cpp the containers keep their [ncells] elements
    and [number] counts the rows of every identifier. *)
Record avg_inv_vector (vect : matrix) (ncells : nat) (done : list (nat * Z))
    (st : avg_state) : Prop := AvgInvVector {
  invv_size : length (averages st) = ncells;
  invv_count : forall k, (k < ncells)%nat ->
      nth k (number st) 0%Z = Z.of_nat (length (rows_with vect done (Z.of_nat k)))
}.

(** In mnn_correction.cpp an identifier that was not read has an empty
    vector, and [number] counts the rows of an identifier unless the vectors
    have no entries (then every row looks like a first one). *)
Record avg_inv_deque (vect : matrix) (done : list (nat * Z)) (st : avg_state) : Prop :=
  AvgInvDeque {
  invd_unset : forall k, ~ In (Z.of_nat k) (mnncell st) -> nth k (averages st) [] = [];
  invd_count : forall id, In id (mnncell st) ->
      get_ncol vect = 0%nat \/
      nth (Z.to_nat id) (number st) 0%Z = Z.of_nat (length (rows_with vect done id))
}.

(* ================================================================= *)
(** ** One cell of [adjust_shift_variance] on its own *)

(** The buffers as [adjust_shift_variance] allocates them. *)
Definition fresh_buffers (data1 : matrix) : MnnCorrection.buffers :=
  MnnCorrection.Buffers (repeat zero (get_nrow data1)) (repeat (zero, zero) (get_ncol data1)).

(** What the round of cell [cell] computes from fresh buffers (and, as is
    proved below, from the buffers that the rounds before it leave). *)
Definition cell_trace_of (data1 data2 vect : matrix) (s2 : dbl) (cell : nat)
    : MnnCorrection.cell_trace :=
  fst (MnnCorrection.adjust_cell data1 data2 vect s2 cell (fresh_buffers data1)).

(** The projection of a reference cell on the gradient of a trace. *)
Definition projection1 (data1 : matrix) (t : MnnCorrection.cell_trace) (other : nat) : dbl :=
  inner_product (MnnCorrection.unit_grad t) (get_col data1 other) zero.

(** The gradient matrix with row [c] multiplied by [k]. *)
Definition scale_row (vect : matrix) (c : nat) (k : R) : matrix :=
  Matrix (get_nrow vect) (get_ncol vect)
         (fun r j => if (r =? c)%nat then dmul (Fin k) (cell vect r j) else cell vect r j).

(** What a sum of squares can be: not negative, and not -Inf. *)
Definition is_sum_of_squares (a : dbl) : Prop :=
  match a with
  | Fin r => (0 <= r)%R
  | NInf => False
  | _ => True
  end.

(** A weight [exp(-dist / s2)] of a cell: a NaN, or a number from 0 to 1. *)
Definition is_weight (w : dbl) : Prop :=
  ISNAN w = true \/ exists e, w = Fin e /\ (0 <= e <= 1)%R.

(** A cumulative probability: a NaN, or a number above 0 and up to 1. *)
Definition is_probability (p : dbl) : Prop :=
  ISNAN p = true \/ exists x, p = Fin x /\ (0 < x <= 1)%R.

(** [prob2] and [totalprob2] on their way through the loop over the cells of
    the own batch: the total is a NaN, or both are numbers, the first at
    least [lo] and at most the second. *)
Definition partial_sums (lo : R) (p t : dbl) : Prop :=
  ISNAN t = true \/ exists p' t', p = Fin p' /\ t = Fin t' /\ (lo <= p' <= t')%R.

(** Equal as numbers: the same double, or two NaN (whose payloads, NA or
    not, are not compared). *)
Definition same_value (x y : dbl) : Prop :=
  x = y \/ (ISNAN x = true /\ ISNAN y = true).

Definition same_output (o1 o2 : list (list dbl)) : Prop :=
  Forall2 (Forall2 same_value) o1 o2.

(** A missing value in the bandwidth or in the column of an anchor. *)
Definition missing_at_anchor (data : matrix) (s2 : dbl) (cells : list Z) : bool :=
  ISNA s2 ||
  existsb (fun a => existsb (fun r => ISNA (cell data r (Z.to_nat a))) (seq 0 (get_nrow data)))
          cells.

(** The sums of the smoothing loop when they are all NaN. *)
Definition all_nan (acc : list (list dbl) * list dbl) : Prop :=
  Forall (Forall (fun x => ISNAN x = true)) (fst acc) /\
  Forall (fun x => ISNAN x = true) (snd acc).

(** The sums of the smoothing loop have [ncells] columns of [ngenes] entries. *)
Definition has_shape (ngenes ncells : nat) (acc : list (list dbl) * list dbl) : Prop :=
  length (fst acc) = ncells /\
  Forall (fun col => length col = ngenes) (fst acc) /\
  length (snd acc) = ncells.

(** An anchor identifier that is the number of a cell. *)
Definition in_range (ncells : nat) (i : Z) : Prop := (0 <= i < Z.of_nat ncells)%Z.


(* ================================================================= *)
(** ** Two runs of the smoothing loop *)

(** The sums of two runs of the smoothing loop agree away from column [k]. *)
Definition agree_off (k : nat) (acc acc' : list (list dbl) * list dbl) : Prop :=
  forall o, o <> k ->
    nth_error (fst acc') o = nth_error (fst acc) o /\
    nth_error (snd acc') o = nth_error (snd acc) o.

(* ================================================================= *)
(** ** The normalisation and the projections on binary64 numbers *)

(** Lines 186 to 197 and 207 of mnn_correction.cpp with the arithmetic of
    IEEE 754 binary64 (round to nearest, ties to even), for what turns on
    rounding: the norm of a gradient row, the row divided by its norm, the
    projection of a cell on it, and the comparison [sameproj <= curproj]. *)
Module Binary64.

Import PrimFloat.
Local Open Scope float_scope.

(** [std::inner_product(first1, last1, first2, init)]. *)
Definition inner_product (a b : list float) (init : float) : float :=
  fold_left (fun acc p => acc + fst p * snd p) (combine a b) init.

(** [l2norm+=g*g] over the row, then [std::sqrt]. *)
Definition l2norm (grad0 : list float) : float :=
  sqrt (fold_left (fun acc g => acc + g * g) grad0 0).

(** [g/=l2norm] over the row. *)
Definition unit_grad (grad0 : list float) : list float :=
  map (fun g => g / l2norm grad0) grad0.

(** [curproj] and [sameproj]: the projection of a cell on the normalised
    row. *)
Definition projection (grad0 cell : list float) : float :=
  inner_product (unit_grad grad0) cell 0.

(** [sameproj <= curproj]: whether the weight of [samecell] is added to
    [prob2]. *)
Definition counted (grad0 curcell samecell : list float) : bool :=
  projection grad0 samecell <=? projection grad0 curcell.

(** A gradient row multiplied by [k]. *)
Definition scale_row (k : float) (grad0 : list float) : list float :=
  map (fun g => k * g) grad0.

Definition curcell : list float := [0; 7].
Definition samecell : list float := [1; 6].

End Binary64.
(* ================================================================= *)
(** ** Inputs of the examples *)

Module Examples.

(** Three correction vectors for the anchors 0, 0 and 1. *)
Definition vect3 : matrix :=
  of_rows 3 2 [[Fin 1; Fin 1]; [Fin 3; Fin 3]; [Fin 10; Fin 10]].
Definition index3 : list Z := [0; 0; 1]%Z.


(** Two cells with one gene, at 0 and at 4. *)
Definition data2 : matrix := of_rows 1 2 [[Fin 0; Fin 4]].

(** One gene, three reference cells and two cells to adjust. *)
Definition ref3 : matrix := of_rows 1 3 [[Fin 1; Fin 2; Fin 3]].
Definition query2 : matrix := of_rows 1 2 [[Fin 0; Fin 5]].
Definition grad2 : matrix := of_rows 2 1 [[Fin 2]; [Fin 0]].

(** A gradient matrix with a row too few for [query2]. *)
Definition grad1 : matrix := of_rows 1 1 [[Fin 2]].

(** One correction vector for the anchor 0, and a second cell that lies
    infinitely far from it. *)
Definition vect1 : matrix := of_rows 1 1 [[Fin 5]].
Definition index1 : list Z := [0%Z].
Definition data_far : matrix := of_rows 1 2 [[Fin 0; PInf]].

(** Two cells at the same place. *)
Definition data_same : matrix := of_rows 1 2 [[Fin 0; Fin 0]].

(** One gene and no reference cell. *)
Definition ref0 : matrix := of_rows 1 0 [[]].

(** No correction vector (of two genes) and no anchor. *)
Definition vect0 : matrix := of_rows 0 2 [].

(** The gradients of [grad2] with another second row. *)
Definition grad2b : matrix := of_rows 2 1 [[Fin 2]; [Fin 7]].

(** Two cells, the first of which has no number for its gene. *)
Definition data_nan : matrix := of_rows 1 2 [[NaN; Fin 4]].

(** The gradients of [grad2] with a NaN for the second cell. *)
Definition grad_nan : matrix := of_rows 2 1 [[Fin 2]; [NaN]].

(** The cells of [data2], the second one further away. *)
Definition data2_far : matrix := of_rows 1 2 [[Fin 0; Fin 9]].

(** Gradients of norm 2 for both cells of [query2]. *)
Definition grad2c : matrix := of_rows 2 1 [[Fin 2]; [Fin 2]].

(** The cells of [data2], moved by 10. *)
Definition data2_moved : matrix := of_rows 1 2 [[Fin 10; Fin 14]].

End Examples.

(* ================================================================= *)
(** * Proofs *)

Unset Implicit Arguments.
Local Open Scope R_scope.

(** ** Deciding comparisons of reals *)

Lemma req_true (a b : R) : a = b -> req a b = true.
Proof. intros; unfold req; destruct (Req_dec_T a b); congruence. Qed.

Lemma req_false (a b : R) : a <> b -> req a b = false.
Proof. intros; unfold req; destruct (Req_dec_T a b); congruence. Qed.

Lemma rlt_true (a b : R) : a < b -> rlt a b = true.
Proof. intros; unfold rlt; destruct (Rlt_dec a b); tauto. Qed.

Lemma rlt_false (a b : R) : ~ a < b -> rlt a b = false.
Proof. intros; unfold rlt; destruct (Rlt_dec a b); tauto. Qed.

Lemma rle_true (a b : R) : a <= b -> rle a b = true.
Proof. intros; unfold rle; destruct (Rle_dec a b); tauto. Qed.

Lemma rle_false (a b : R) : ~ a <= b -> rle a b = false.
Proof. intros; unfold rle; destruct (Rle_dec a b); tauto. Qed.

(** Settles the comparisons of the goal that [lra] can settle. *)
Ltac rdecide :=
  repeat match goal with
  | |- context [req ?a ?b] =>
      first [rewrite (@req_true a b) by lra | rewrite (@req_false a b) by lra]
  | |- context [rlt ?a ?b] =>
      first [rewrite (@rlt_true a b) by lra | rewrite (@rlt_false a b) by lra]
  | |- context [rle ?a ?b] =>
      first [rewrite (@rle_true a b) by lra | rewrite (@rle_false a b) by lra]
  end.

(** Runs the model on a concrete input, up to the operations on reals. *)
Ltac run :=
  cbv - [Rplus Rminus Rmult Rdiv Ropp Rinv IZR exp sqrt ln Rabs req rlt rle];
  rdecide.

(** Replaces the exponentials of the goal whose argument is zero. *)
Ltac exp_zero :=
  repeat match goal with
  | |- context [exp ?x] =>
      replace (exp x) with 1
        by (symmetry; transitivity (exp 0); [f_equal; first [lra | field] | apply exp_0])
  end.

(** Replaces the square roots of the goal whose argument is 0, 1 or 4. *)
Ltac sqrt_values :=
  repeat match goal with
  | |- context [sqrt ?x] =>
      first
        [ replace (sqrt x) with 0
            by (symmetry; transitivity (sqrt 0); [f_equal; lra | apply sqrt_0])
        | replace (sqrt x) with 1
            by (symmetry; transitivity (sqrt 1); [f_equal; lra | apply sqrt_1])
        | replace (sqrt x) with 2
            by (symmetry; transitivity (sqrt (2 * 2)); [f_equal; lra | apply sqrt_square; lra]) ]
  end.

(** Settles the comparisons of naturals in the goal. *)
Ltac nat_cases :=
  repeat match goal with
  | |- context [(?a <=? ?b)%nat] => destruct (Nat.leb_spec a b)
  | |- context [(?a <? ?b)%nat] => destruct (Nat.ltb_spec a b)
  end; cbn [andb]; try lia.

(** Case analysis on the comparisons that the operations on doubles make,
    closed by arithmetic. *)
Ltac dbl_arith :=
  repeat (simpl; unfold signed_inf, req, rlt, rle;
          match goal with
          | |- context [Req_dec_T ?a ?b] => destruct (Req_dec_T a b)
          | |- context [Rlt_dec ?a ?b] => destruct (Rlt_dec a b)
          | |- context [Rle_dec ?a ?b] => destruct (Rle_dec a b)
          end; try (exfalso; nra));
  simpl; try reflexivity; try congruence;
  try (f_equal; first [lra | nra | field; lra]).

Lemma check_numeric_scalar_one : check_numeric_scalar (Fin 1) = Ok (Fin 1).
Proof. unfold check_numeric_scalar, dle, zero. now rewrite rle_false by lra. Qed.

Lemma rle_iff (a b : R) : rle a b = true <-> a <= b.
Proof. unfold rle. destruct (Rle_dec a b); intuition congruence. Qed.

(* ================================================================= *)
(** ** The dimension checks of [adjust_shift_variance] *)

(** C5.  [adjust_shift_variance] stops with the dimension error, whatever the
    bandwidth and whatever [check_numeric_scalar] does, as soon as the numbers
    of genes of the two batches differ, or the number of genes differs from
    the length of the gradient vectors, or there are not as many gradient
    vectors as cells in the second batch; the call has no other result. *)
Theorem adjust_shift_variance_dimension_mismatch :
  forall (check : dbl -> result dbl) (data1 data2 vect : matrix) (sigma : dbl),
    get_nrow data1 <> get_nrow data2 \/
    get_nrow data1 <> get_ncol vect \/
    get_ncol data2 <> get_nrow vect ->
    MnnCorrection.adjust_shift_variance check data1 data2 vect sigma = Err DimensionMismatch.
Proof.
  intros check d1 d2 v sigma H.
  unfold MnnCorrection.adjust_shift_variance.
  destruct (Nat.eqb_spec (get_nrow d1) (get_nrow d2)) as [E1 | N1]; simpl; [| reflexivity].
  destruct (Nat.eqb_spec (get_nrow d1) (get_ncol v)) as [E2 | N2]; simpl; [| reflexivity].
  destruct (Nat.eqb_spec (get_ncol d2) (get_nrow v)) as [E3 | N3]; simpl; [| reflexivity].
  tauto.
Qed.

Lemma adjust_shift_variance_dimension_mismatch_witness :
  get_ncol Examples.query2 <> get_nrow Examples.grad1 /\
  MnnCorrection.adjust_shift_variance check_numeric_scalar
    Examples.ref3 Examples.query2 Examples.grad1 (Fin 1) = Err DimensionMismatch.
Proof.
  split.
  - simpl. lia.
  - apply adjust_shift_variance_dimension_mismatch. right; right. simpl. lia.
Defined.

(* ================================================================= *)
(** ** Where the bandwidth is checked *)

Lemma check_numeric_scalar_rejects (sigma : dbl) :
  dle sigma zero = true -> check_numeric_scalar sigma = Err InvalidArgument.
Proof. intros H; unfold check_numeric_scalar; now rewrite H. Qed.

(** A bandwidth of zero does not always end in InvalidArgument: the dimension
    checks come first ([adjust_shift_variance] with a gradient row missing),
    and in mnn_correction.cpp the averages are built before the bandwidth is
    looked at, so that an anchor identifier of -2 ends the call in [resize]. *)
Lemma bandwidth_check_is_not_first :
  dle (Fin 0) zero = true /\
  MnnCorrection.adjust_shift_variance check_numeric_scalar
    Examples.ref3 Examples.query2 Examples.grad1 (Fin 0) = Err DimensionMismatch /\
  MnnCorrection.smooth_gaussian_kernel check_numeric_scalar
    Examples.vect1 [(-2)%Z] Examples.data2 (Fin 0) = Err LengthError.
Proof.
  repeat split.
  unfold dle, zero. apply rle_true. lra.
Qed.

(** C4, amended.  With [check_numeric_scalar] as the specification has it, a
    bandwidth that is zero or negative ends [adjust_shift_variance] and the
    [smooth_gaussian_kernel] of smooth_gaussian_kernel.cpp in InvalidArgument
    once the dimension checks have passed, before any other work; the
    [smooth_gaussian_kernel] of mnn_correction.cpp builds the averages first
    and ends in InvalidArgument if that succeeds, and in the error of the
    averaging otherwise.  A failed dimension check ends every one of them in
    DimensionMismatch. *)
Theorem nonpositive_bandwidth_rejected_after_dimension_checks :
  forall sigma : dbl,
    dle sigma zero = true ->
    (forall data1 data2 vect,
        MnnCorrection.adjust_shift_variance check_numeric_scalar data1 data2 vect sigma =
        if (get_nrow data1 =? get_nrow data2)%nat && (get_nrow data1 =? get_ncol vect)%nat
           && (get_ncol data2 =? get_nrow vect)%nat
        then Err InvalidArgument else Err DimensionMismatch) /\
    (forall vect index data,
        SmoothGaussianKernel.smooth_gaussian_kernel check_numeric_scalar vect index data sigma =
        if (get_nrow vect =? length index)%nat
        then Err InvalidArgument else Err DimensionMismatch) /\
    (forall vect index data,
        MnnCorrection.smooth_gaussian_kernel check_numeric_scalar vect index data sigma =
        if (get_nrow vect =? length index)%nat
        then match MnnCorrection.build_averages vect index with
             | Ok _ => Err InvalidArgument
             | Err e => Err e
             end
        else Err DimensionMismatch).
Proof.
  intros sigma Hs. apply check_numeric_scalar_rejects in Hs.
  split; [| split].
  - intros d1 d2 v. unfold MnnCorrection.adjust_shift_variance.
    destruct (get_nrow d1 =? get_nrow d2)%nat; simpl; [| reflexivity].
    destruct (get_nrow d1 =? get_ncol v)%nat; simpl; [| reflexivity].
    destruct (get_ncol d2 =? get_nrow v)%nat; simpl; [| reflexivity].
    now rewrite Hs.
  - intros vect index data. unfold SmoothGaussianKernel.smooth_gaussian_kernel.
    destruct (get_nrow vect =? length index)%nat; simpl; [| reflexivity].
    now rewrite Hs.
  - intros vect index data. unfold MnnCorrection.smooth_gaussian_kernel.
    destruct (get_nrow vect =? length index)%nat; simpl; [| reflexivity].
    destruct (MnnCorrection.build_averages vect index); simpl; [| reflexivity].
    now rewrite Hs.
Qed.

Lemma nonpositive_bandwidth_rejected_witness :
  dle (Fin (-1)) zero = true /\
  MnnCorrection.adjust_shift_variance check_numeric_scalar
    Examples.ref3 Examples.query2 Examples.grad2 (Fin (-1)) = Err InvalidArgument /\
  SmoothGaussianKernel.smooth_gaussian_kernel check_numeric_scalar
    Examples.vect3 Examples.index3 Examples.data2 (Fin (-1)) = Err InvalidArgument /\
  MnnCorrection.smooth_gaussian_kernel check_numeric_scalar
    Examples.vect3 Examples.index3 Examples.data2 (Fin (-1)) = Err InvalidArgument.
Proof.
  assert (H : dle (Fin (-1)) zero = true) by (unfold dle, zero; apply rle_true; lra).
  split; [exact H |].
  destruct (nonpositive_bandwidth_rejected_after_dimension_checks (Fin (-1)) H)
    as [Ha [Hb Hc]].
  split; [| split].
  - rewrite Ha. reflexivity.
  - rewrite Hb. reflexivity.
  - rewrite Hc. reflexivity.
Defined.

(* ================================================================= *)
(** ** Containers *)

Section Containers.

Context {A : Type}.

Lemma update_length (l : list A) (n : nat) (x : A) : length (update l n x) = length l.
Proof.
  revert n; induction l as [| y t IH]; intros [| n]; simpl; auto.
Qed.

Lemma nth_update_eq (l : list A) (n : nat) (x d : A) :
  (n < length l)%nat -> nth n (update l n x) d = x.
Proof.
  revert n; induction l as [| y t IH]; intros [| n] H; simpl in *; try lia; auto.
  apply IH; lia.
Qed.

Lemma nth_update_neq (l : list A) (n m : nat) (x d : A) :
  n <> m -> nth m (update l n x) d = nth m l d.
Proof.
  revert n m; induction l as [| y t IH]; intros [| n] [| m] H; simpl; auto; try lia.
Qed.

Lemma nth_error_update_eq (l : list A) (n : nat) (x : A) :
  (n < length l)%nat -> nth_error (update l n x) n = Some x.
Proof.
  revert n; induction l as [| y t IH]; intros [| n] H; simpl in *; try lia; auto.
  apply IH; lia.
Qed.

Lemma nth_error_update_neq (l : list A) (n m : nat) (x : A) :
  n <> m -> nth_error (update l n x) m = nth_error l m.
Proof.
  revert n m; induction l as [| y t IH]; intros [| n] [| m] H; simpl; auto; try lia.
Qed.

Lemma resize_length (n : nat) (d : A) (l : list A) : length (resize n d l) = n.
Proof.
  unfold resize. rewrite length_app, length_firstn, repeat_length. lia.
Qed.

Lemma nth_resize_grow (n : nat) (d : A) (l : list A) (k : nat) :
  (length l <= n)%nat -> nth k (resize n d l) d = nth k l d.
Proof.
  intros H. unfold resize. rewrite firstn_all2 by lia.
  destruct (Nat.lt_ge_cases k (length l)) as [Hk | Hk].
  - now rewrite app_nth1.
  - rewrite app_nth2 by lia. rewrite (nth_overflow l) by lia.
    apply nth_repeat.
Qed.

End Containers.

Lemma zip_with_length {A B C : Type} (f : A -> B -> C) (l1 : list A) (l2 : list B) :
  length (zip_with f l1 l2) = Nat.min (length l1) (length l2).
Proof. unfold zip_with. now rewrite length_map, length_combine. Qed.

Lemma vadd_length (a b : list dbl) : length (vadd a b) = Nat.min (length a) (length b).
Proof. apply zip_with_length. Qed.

Lemma get_row_length (m : matrix) (r : nat) : length (get_row m r) = get_ncol m.
Proof. unfold get_row. now rewrite length_map, length_seq. Qed.

Lemma get_col_length (m : matrix) (c : nat) : length (get_col m c) = get_nrow m.
Proof. unfold get_col. now rewrite length_map, length_seq. Qed.

(** *** The set of anchors *)

Lemma set_insert_In (x y : Z) (s : list Z) :
  In y (set_insert x s) <-> y = x \/ In y s.
Proof.
  induction s as [| z t IH]; simpl.
  - intuition.
  - destruct (Z.ltb_spec x z); [simpl; intuition |].
    destruct (Z.eqb_spec x z); simpl.
    + subst. intuition.
    + rewrite IH. intuition.
Qed.

Lemma set_mem_In (x : Z) (s : list Z) : set_mem x s = true <-> In x s.
Proof.
  unfold set_mem. rewrite existsb_exists. split.
  - intros [y [Hy E]]. apply Z.eqb_eq in E. now subst.
  - intros H. exists x. split; [assumption | apply Z.eqb_refl].
Qed.

Lemma set_mem_false (x : Z) (s : list Z) : set_mem x s = false <-> ~ In x s.
Proof.
  rewrite <- set_mem_In. destruct (set_mem x s); intuition congruence.
Qed.

Lemma set_insert_sorted (x : Z) (s : list Z) :
  StronglySorted Z.lt s -> StronglySorted Z.lt (set_insert x s).
Proof.
  induction 1 as [| z t Hs IH Hz]; simpl.
  - repeat constructor.
  - destruct (Z.ltb_spec x z).
    + constructor; [now constructor |].
      constructor; [assumption |].
      rewrite Forall_forall in *. intros w Hw. specialize (Hz w Hw). lia.
    + destruct (Z.eqb_spec x z); [now constructor |].
      constructor; [assumption |].
      rewrite Forall_forall in *. intros w Hw.
      apply set_insert_In in Hw. destruct Hw as [-> | Hw]; [lia | auto].
Qed.

Lemma sorted_NoDup (s : list Z) : StronglySorted Z.lt s -> NoDup s.
Proof.
  induction 1 as [| z t Hs IH Hz]; constructor; auto.
  intros Hin. rewrite Forall_forall in Hz. specialize (Hz z Hin). lia.
Qed.

(* ================================================================= *)
(** ** The averaging loops *)

Lemma rows_with_app (vect : matrix) (a b : list (nat * Z)) (id : Z) :
  rows_with vect (a ++ b) id = rows_with vect a id ++ rows_with vect b id.
Proof. unfold rows_with. now rewrite filter_app, map_app. Qed.

Lemma rows_with_nil (vect : matrix) (done : list (nat * Z)) (id : Z) :
  rows_with vect done id = [] <-> ~ In id (map snd done).
Proof.
  unfold rows_with. induction done as [| [r i] t IH]; simpl.
  - intuition.
  - destruct (Z.eqb_spec i id); simpl.
    + split; [discriminate | intros H; exfalso; apply H; now left].
    + rewrite IH. intuition.
Qed.

Lemma rows_with_length_row (vect : matrix) (done : list (nat * Z)) (id : Z) :
  Forall (fun r => length r = get_ncol vect) (rows_with vect done id).
Proof.
  unfold rows_with. apply Forall_forall. intros r Hr.
  apply in_map_iff in Hr. destruct Hr as [p [<- _]]. apply get_row_length.
Qed.

Lemma vsum_snoc (rows : list (list dbl)) (r : list dbl) :
  rows <> [] -> vsum (rows ++ [r]) = vadd (vsum rows) r.
Proof.
  destruct rows as [| r0 rest]; [congruence | intros _].
  simpl. now rewrite fold_left_app.
Qed.

Lemma vsum_length (n : nat) (rows : list (list dbl)) :
  Forall (fun r => length r = n) rows -> rows <> [] -> length (vsum rows) = n.
Proof.
  destruct rows as [| r0 rest]; [congruence | intros H _].
  apply Forall_cons_iff in H. destruct H as [H0 Hrest]. simpl.
  revert r0 H0. induction Hrest as [| r t Hr Ht IH]; intros r0 H0; simpl; [assumption |].
  apply IH. rewrite vadd_length. lia.
Qed.

Lemma vsum_empty_rows (rows : list (list dbl)) :
  Forall (fun r => length r = 0%nat) rows -> vsum rows = [].
Proof.
  intros H. destruct rows as [| r0 rest]; [reflexivity |].
  apply length_zero_iff_nil. apply vsum_length with (n := 0%nat); [assumption | discriminate].
Qed.

(** The rows read before row [r] and identifier [i], and after. *)
Lemma rows_with_snoc (vect : matrix) (done : list (nat * Z)) (r : nat) (i id : Z) :
  rows_with vect (done ++ [(r, i)]) id =
  rows_with vect done id ++ (if Z.eqb i id then [get_row vect r] else []).
Proof.
  rewrite rows_with_app. f_equal. unfold rows_with. simpl.
  now destruct (Z.eqb i id).
Qed.

Lemma map_snd_snoc (done : list (nat * Z)) (r : nat) (i : Z) :
  map snd (done ++ [(r, i)]) = map snd done ++ [i].
Proof. now rewrite map_app. Qed.

(** *** smooth_gaussian_kernel.cpp *)

Lemma vector_avg_step_ok (currow : list dbl) (i : Z) (st : avg_state) :
  (0 <= i < Z.of_nat (length (averages st)))%Z ->
  exists st', SmoothGaussianKernel.avg_step currow i st = Ok st'.
Proof.
  intros H. unfold SmoothGaussianKernel.avg_step.
  destruct (Z.ltb_spec i 0); [lia |].
  destruct (Z.leb_spec (Z.of_nat (length (averages st))) i); [lia |]. simpl.
  destruct (set_mem i (mnncell st)); eauto.
Qed.

Lemma vector_avg_step_err (currow : list dbl) (i : Z) (st : avg_state) :
  ~ (0 <= i < Z.of_nat (length (averages st)))%Z ->
  SmoothGaussianKernel.avg_step currow i st = Err OutOfBounds.
Proof.
  intros H. unfold SmoothGaussianKernel.avg_step.
  destruct (Z.ltb_spec i 0); [reflexivity |].
  destruct (Z.leb_spec (Z.of_nat (length (averages st))) i); [reflexivity | lia].
Qed.

Lemma vector_avg_step_inv (vect : matrix) (ncells : nat) (done : list (nat * Z))
    (r : nat) (i : Z) (st st' : avg_state) :
  avg_inv vect done st -> avg_inv_vector vect ncells done st ->
  SmoothGaussianKernel.avg_step (get_row vect r) i st = Ok st' ->
  (0 <= i < Z.of_nat ncells)%Z /\
  avg_inv vect (done ++ [(r, i)]) st' /\ avg_inv_vector vect ncells (done ++ [(r, i)]) st'.
Proof.
  intros [Hsort Hmem Hlen Hrange Hsum] [Hsize Hcount] Hstep.
  unfold SmoothGaussianKernel.avg_step in Hstep.
  destruct (Z.ltb_spec i 0); [discriminate |].
  destruct (Z.leb_spec (Z.of_nat (length (averages st))) i); [discriminate |].
  simpl in Hstep.
  assert (Hk : (Z.to_nat i < length (averages st))%nat) by lia.
  split; [lia |].
  destruct (set_mem i (mnncell st)) eqn:Emem; inversion Hstep; subst st'; clear Hstep.
  - (* a further row of the anchor *)
    apply set_mem_In in Emem.
    split; constructor; simpl.
    + assumption.
    + intros id. rewrite map_snd_snoc, in_app_iff, Hmem. simpl.
      apply Hmem in Emem. intuition. now subst.
    + now rewrite !update_length.
    + intros id Hid. rewrite update_length. auto.
    + intros id Hid. rewrite rows_with_snoc.
      destruct (Z.eqb_spec i id) as [-> | Hne].
      * rewrite nth_update_eq by assumption.
        rewrite vsum_snoc.
        -- now rewrite Hsum.
        -- rewrite rows_with_nil. intros Hn. apply Hn. now apply Hmem.
      * rewrite app_nil_r. rewrite nth_update_neq; [auto |].
        specialize (Hrange id Hid). lia.
    + now rewrite update_length.
    + intros k Hk'. rewrite rows_with_snoc.
      destruct (Z.eqb_spec i (Z.of_nat k)) as [E | Hne].
      * assert (Z.to_nat i = k) by lia. subst k.
        rewrite nth_update_eq by lia. rewrite Hcount by lia.
        rewrite length_app. simpl. lia.
      * rewrite app_nil_r. rewrite nth_update_neq by lia. auto.
  - (* the first row of the anchor *)
    apply set_mem_false in Emem.
    split; constructor; simpl.
    + now apply set_insert_sorted.
    + intros id. rewrite set_insert_In, map_snd_snoc, in_app_iff, Hmem. simpl. intuition.
    + now rewrite !update_length.
    + intros id Hid. rewrite update_length. apply set_insert_In in Hid.
      destruct Hid as [-> | Hid]; [lia | auto].
    + intros id Hid. rewrite rows_with_snoc. apply set_insert_In in Hid.
      destruct (Z.eqb_spec i id) as [-> | Hne].
      * rewrite nth_update_eq by assumption.
        assert (E : rows_with vect done id = []).
        { apply rows_with_nil. intros Hn. apply Emem. now apply Hmem. }
        now rewrite E.
      * destruct Hid as [-> | Hid]; [congruence |].
        rewrite app_nil_r. rewrite nth_update_neq; [auto |].
        specialize (Hrange id Hid). lia.
    + now rewrite update_length.
    + intros k Hk'. rewrite rows_with_snoc.
      destruct (Z.eqb_spec i (Z.of_nat k)) as [E | Hne].
      * assert (Z.to_nat i = k) by lia. subst k.
        rewrite nth_update_eq by lia. rewrite Hcount by lia.
        rewrite length_app. simpl. lia.
      * rewrite app_nil_r. rewrite nth_update_neq by lia. auto.
Qed.

Lemma vector_avg_loop_inv (vect : matrix) (ncells : nat) (index : list Z) :
  forall (row : nat) (done : list (nat * Z)) (st st' : avg_state),
    avg_inv vect done st -> avg_inv_vector vect ncells done st ->
    SmoothGaussianKernel.avg_loop vect index row st = Ok st' ->
    Forall (in_range ncells) index /\
    avg_inv vect (done ++ combine (seq row (length index)) index) st' /\
    avg_inv_vector vect ncells (done ++ combine (seq row (length index)) index) st'.
Proof.
  induction index as [| i rest IH]; intros row done st st' Hinv Hvec Hloop; simpl in *.
  - inversion Hloop; subst. rewrite app_nil_r. auto.
  - destruct (SmoothGaussianKernel.avg_step (get_row vect row) i st) as [st1 | e] eqn:Estep;
      simpl in Hloop; [| discriminate].
    destruct (vector_avg_step_inv _ _ _ _ _ _ _ Hinv Hvec Estep) as [Hi [Hinv1 Hvec1]].
    destruct (IH _ _ _ _ Hinv1 Hvec1 Hloop) as [Hall [Hinv2 Hvec2]].
    rewrite <- app_assoc in Hinv2, Hvec2. simpl in Hinv2, Hvec2. auto.
Qed.

Lemma vector_avg_loop_ok (vect : matrix) (ncells : nat) (index : list Z) :
  forall (row : nat) (done : list (nat * Z)) (st : avg_state),
    avg_inv vect done st -> avg_inv_vector vect ncells done st ->
    Forall (in_range ncells) index ->
    exists st', SmoothGaussianKernel.avg_loop vect index row st = Ok st'.
Proof.
  induction index as [| i rest IH]; intros row done st Hinv Hvec Hall; simpl.
  - eauto.
  - apply Forall_cons_iff in Hall. destruct Hall as [Hi Hall].
    destruct (vector_avg_step_ok (get_row vect row) i st) as [st1 Estep].
    { unfold in_range in Hi. now rewrite (invv_size Hvec). }
    rewrite Estep. simpl.
    destruct (vector_avg_step_inv _ _ _ _ _ _ _ Hinv Hvec Estep) as [_ [Hinv1 Hvec1]].
    eapply IH; eauto.
Qed.

Lemma vector_avg_loop_err (vect : matrix) (ncells : nat) (index : list Z) :
  forall (row : nat) (done : list (nat * Z)) (st : avg_state),
    avg_inv vect done st -> avg_inv_vector vect ncells done st ->
    ~ Forall (in_range ncells) index ->
    SmoothGaussianKernel.avg_loop vect index row st = Err OutOfBounds.
Proof.
  induction index as [| i rest IH]; intros row done st Hinv Hvec Hall; simpl.
  - exfalso. apply Hall. constructor.
  - destruct (SmoothGaussianKernel.avg_step (get_row vect row) i st) as [st1 | e] eqn:Estep.
    + simpl. destruct (vector_avg_step_inv _ _ _ _ _ _ _ Hinv Hvec Estep) as [Hi [Hinv1 Hvec1]].
      eapply IH; eauto.
    + simpl. unfold SmoothGaussianKernel.avg_step in Estep.
      destruct ((i <? 0)%Z || (Z.of_nat (length (averages st)) <=? i)%Z).
      * congruence.
      * destruct (set_mem i (mnncell st)); discriminate.
Qed.

Lemma avg_inv_vector_initial (vect : matrix) (ncells : nat) :
  avg_inv vect [] (AvgState (repeat [] ncells) (repeat 0%Z ncells) []) /\
  avg_inv_vector vect ncells [] (AvgState (repeat [] ncells) (repeat 0%Z ncells) []).
Proof.
  split; constructor; simpl.
  - constructor.
  - intuition.
  - now rewrite !repeat_length.
  - intros id [].
  - intros id [].
  - apply repeat_length.
  - intros k _. apply nth_repeat.
Qed.

(** *** The division by the counts *)

Lemma divide_averages_fold (l : list Z) :
  forall st : avg_state,
    NoDup l ->
    (forall id, In id l -> (0 <= id < Z.of_nat (length (averages st)))%Z) ->
    let st' :=
      fold_left
        (fun s i =>
           let k := Z.to_nat i in
           AvgState (update (averages s) k (vdiv_int (nth k (averages s) []) (nth k (number s) 0%Z)))
                    (number s) (mnncell s)) l st in
    mnncell st' = mnncell st /\ number st' = number st /\
    length (averages st') = length (averages st) /\
    (forall id, In id l ->
       nth (Z.to_nat id) (averages st') [] =
       vdiv_int (nth (Z.to_nat id) (averages st) []) (nth (Z.to_nat id) (number st) 0%Z)) /\
    (forall k, ~ In (Z.of_nat k) l -> nth k (averages st') [] = nth k (averages st) []).
Proof.
  induction l as [| i rest IH]; intros st Hnd Hrange; simpl.
  - repeat split; auto. intros id [].
  - apply NoDup_cons_iff in Hnd. destruct Hnd as [Hni Hnd].
    set (st1 := AvgState _ _ _).
    assert (Hi : (0 <= i < Z.of_nat (length (averages st)))%Z) by (apply Hrange; now left).
    destruct (IH st1 Hnd) as [Hm [Hn [Hl [Hin Hout]]]].
    { intros id Hid. subst st1; simpl. rewrite update_length. apply Hrange. now right. }
    subst st1; simpl in *.
    rewrite update_length in Hl.
    repeat split; auto.
    + intros id [-> | Hid].
      * rewrite Hout by (rewrite Z2Nat.id by lia; assumption).
        apply nth_update_eq. lia.
      * rewrite Hin by assumption.
        assert (Hne : Z.to_nat i <> Z.to_nat id).
        { intros E. specialize (Hrange id (or_intror Hid)).
          assert (i = id) by lia. congruence. }
        now rewrite nth_update_neq.
    + intros k Hk. rewrite Hout by tauto.
      apply nth_update_neq. intros E. apply Hk. left. lia.
Qed.

Lemma divide_averages_spec (vect : matrix) (done : list (nat * Z)) (st : avg_state) :
  avg_inv vect done st ->
  mnncell (divide_averages st) = mnncell st /\
  number (divide_averages st) = number st /\
  length (averages (divide_averages st)) = length (averages st) /\
  forall id, In id (mnncell st) ->
    nth (Z.to_nat id) (averages (divide_averages st)) [] =
    vdiv_int (vsum (rows_with vect done id)) (nth (Z.to_nat id) (number st) 0%Z).
Proof.
  intros Hinv.
  destruct (divide_averages_fold (mnncell st) st) as [Hm [Hn [Hl [Hin _]]]].
  - apply sorted_NoDup, (inv_sorted Hinv).
  - apply (inv_range Hinv).
  - unfold divide_averages.
    split; [exact Hm | split; [exact Hn | split; [exact Hl |]]].
    intros id Hid. etransitivity; [exact (Hin id Hid) |].
    now rewrite (inv_sum Hinv id Hid).
Qed.

(** *** mnn_correction.cpp *)

Lemma deque_avg_step_ok (currow : list dbl) (i : Z) (st : avg_state) :
  (0 <= i)%Z -> exists st', MnnCorrection.avg_step currow i st = Ok st'.
Proof.
  intros H. unfold MnnCorrection.avg_step.
  destruct (Z.ltb_spec i 0); [lia |].
  destruct (_ || _); eauto.
Qed.

Lemma deque_avg_step_err (currow : list dbl) (i : Z) (st : avg_state) :
  (i < 0)%Z ->
  MnnCorrection.avg_step currow i st = Err OutOfBounds \/
  MnnCorrection.avg_step currow i st = Err LengthError.
Proof.
  intros H. unfold MnnCorrection.avg_step.
  destruct (Z.ltb_spec i 0); [| lia].
  destruct (i =? -1)%Z; auto.
Qed.

Lemma deque_avg_step_inv (vect : matrix) (done : list (nat * Z))
    (r : nat) (i : Z) (st st' : avg_state) :
  avg_inv vect done st -> avg_inv_deque vect done st ->
  MnnCorrection.avg_step (get_row vect r) i st = Ok st' ->
  (0 <= i)%Z /\
  avg_inv vect (done ++ [(r, i)]) st' /\ avg_inv_deque vect (done ++ [(r, i)]) st'.
Proof.
  intros [Hsort Hmem Hlen Hrange Hsum] [Hunset Hcount] Hstep.
  unfold MnnCorrection.avg_step in Hstep.
  destruct (Z.ltb_spec i 0) as [Hneg | Hpos].
  { destruct (i =? -1)%Z; discriminate. }
  split; [assumption |].
  remember (Z.to_nat i) as k eqn:Hk.
  assert (Hki : Z.of_nat k = i) by lia.
  assert (Hrows : forall id, In id (mnncell st) -> rows_with vect done id <> []).
  { intros id Hid. rewrite rows_with_nil. intros Hn. apply Hn. now apply Hmem. }
  assert (Hnorows : ~ In i (mnncell st) -> rows_with vect done i = []).
  { intros Hn. apply rows_with_nil. intros Hi. apply Hn. now apply Hmem. }
  destruct (Nat.leb_spec (length (averages st)) k) as [Hgrow | Hin];
    [| destruct (Nat.eqb_spec (length (nth k (averages st) [])) 0) as [Hempty | Hfull]];
    simpl in Hstep; inversion Hstep; subst st'; clear Hstep.
  - (* the deque grows: the anchor is new *)
    assert (Hnew : ~ In i (mnncell st)).
    { intros Hi. specialize (Hrange i Hi). lia. }
    split; constructor; simpl.
    + now apply set_insert_sorted.
    + intros id. rewrite set_insert_In, map_snd_snoc, in_app_iff, Hmem. simpl. intuition.
    + now rewrite !update_length, !resize_length.
    + intros id Hid. rewrite update_length, resize_length. apply set_insert_In in Hid.
      destruct Hid as [-> | Hid]; [lia |]. specialize (Hrange id Hid). lia.
    + intros id Hid. rewrite rows_with_snoc. apply set_insert_In in Hid.
      destruct (Z.eqb_spec i id) as [<- | Hne].
      * rewrite <- ?Hk. rewrite nth_update_eq by (rewrite resize_length; lia).
        now rewrite (Hnorows Hnew).
      * destruct Hid as [-> | Hid]; [congruence |].
        rewrite app_nil_r. specialize (Hrange id Hid).
        rewrite nth_update_neq by lia.
        rewrite nth_resize_grow by lia. auto.
    + intros k' Hk'. rewrite set_insert_In in Hk'.
      rewrite nth_update_neq by (intros E; apply Hk'; left; lia).
      rewrite nth_resize_grow by lia. apply Hunset. tauto.
    + intros id Hid.
      destruct (Nat.eq_dec (get_ncol vect) 0) as [Hz | Hnz]; [now left | right].
      rewrite rows_with_snoc. apply set_insert_In in Hid.
      destruct (Z.eqb_spec i id) as [<- | Hne].
      * rewrite <- ?Hk. rewrite nth_update_eq by (rewrite resize_length; lia).
        now rewrite (Hnorows Hnew).
      * destruct Hid as [-> | Hid]; [congruence |].
        rewrite app_nil_r. specialize (Hrange id Hid).
        rewrite nth_update_neq by lia.
        rewrite nth_resize_grow by lia.
        destruct (Hcount id Hid); [contradiction | assumption].
  - (* the vector under the anchor is empty: it is taken as new *)
    assert (Hcase : ~ In i (mnncell st) \/ get_ncol vect = 0%nat).
    { destruct (in_dec Z.eq_dec i (mnncell st)) as [Hi | Hi]; [right | now left].
      rewrite <- Hempty. pose proof (Hsum i Hi) as Hs. rewrite <- Hk in Hs. rewrite Hs.
      symmetry. apply vsum_length; [apply rows_with_length_row | auto]. }
    split; constructor; simpl.
    + now apply set_insert_sorted.
    + intros id. rewrite set_insert_In, map_snd_snoc, in_app_iff, Hmem. simpl. intuition.
    + now rewrite !update_length.
    + intros id Hid. rewrite update_length. apply set_insert_In in Hid.
      destruct Hid as [-> | Hid]; [lia | auto].
    + intros id Hid. rewrite rows_with_snoc. apply set_insert_In in Hid.
      destruct (Z.eqb_spec i id) as [<- | Hne].
      * rewrite <- ?Hk. rewrite nth_update_eq by lia.
        destruct Hcase as [Hnew | Hz].
        -- now rewrite (Hnorows Hnew).
        -- rewrite vsum_empty_rows.
           ++ apply length_zero_iff_nil. now rewrite get_row_length.
           ++ apply Forall_app. split.
              ** rewrite <- Hz. apply rows_with_length_row.
              ** constructor; [| constructor]. now rewrite get_row_length.
      * destruct Hid as [-> | Hid]; [congruence |].
        rewrite app_nil_r. specialize (Hrange id Hid).
        rewrite nth_update_neq by lia. auto.
    + intros k' Hk'. rewrite set_insert_In in Hk'.
      rewrite nth_update_neq by (intros E; apply Hk'; left; lia).
      apply Hunset. tauto.
    + intros id Hid.
      destruct (Nat.eq_dec (get_ncol vect) 0) as [Hz | Hnz]; [now left | right].
      destruct Hcase as [Hnew | Hz]; [| contradiction].
      rewrite rows_with_snoc. apply set_insert_In in Hid.
      destruct (Z.eqb_spec i id) as [<- | Hne].
      * rewrite <- ?Hk. rewrite nth_update_eq by lia.
        now rewrite (Hnorows Hnew).
      * destruct Hid as [-> | Hid]; [congruence |].
        rewrite app_nil_r. specialize (Hrange id Hid).
        rewrite nth_update_neq by lia.
        destruct (Hcount id Hid); [contradiction | assumption].
  - (* a further row of the anchor *)
    assert (Hi : In i (mnncell st)).
    { destruct (in_dec Z.eq_dec i (mnncell st)) as [Hi | Hi]; [assumption |].
      exfalso. apply Hfull. rewrite Hunset; [reflexivity | now rewrite Hki]. }
    split; constructor; simpl.
    + assumption.
    + intros id. rewrite map_snd_snoc, in_app_iff, Hmem. simpl.
      apply Hmem in Hi. intuition. now subst.
    + now rewrite !update_length.
    + intros id Hid. rewrite update_length. auto.
    + intros id Hid. rewrite rows_with_snoc.
      destruct (Z.eqb_spec i id) as [<- | Hne].
      * rewrite <- ?Hk. rewrite nth_update_eq by lia.
        rewrite vsum_snoc by auto. pose proof (Hsum i Hi) as Hs. rewrite <- Hk in Hs. now rewrite Hs.
      * rewrite app_nil_r. specialize (Hrange id Hid).
        rewrite nth_update_neq by lia. auto.
    + intros k' Hk'.
      rewrite nth_update_neq by (intros E; apply Hk'; rewrite <- E, Hki; exact Hi).
      auto.
    + intros id Hid.
      destruct (Nat.eq_dec (get_ncol vect) 0) as [Hz | Hnz]; [now left | right].
      rewrite rows_with_snoc.
      destruct (Z.eqb_spec i id) as [<- | Hne].
      * rewrite <- ?Hk. rewrite nth_update_eq by lia.
        destruct (Hcount i Hi) as [| Hc]; [contradiction |].
        rewrite <- Hk in Hc. rewrite Hc, length_app. simpl. lia.
      * rewrite app_nil_r. specialize (Hrange id Hid).
        rewrite nth_update_neq by lia.
        destruct (Hcount id Hid); [contradiction | assumption].
Qed.

Lemma deque_avg_loop_inv (vect : matrix) (index : list Z) :
  forall (row : nat) (done : list (nat * Z)) (st st' : avg_state),
    avg_inv vect done st -> avg_inv_deque vect done st ->
    MnnCorrection.avg_loop vect index row st = Ok st' ->
    Forall (fun i => 0 <= i)%Z index /\
    avg_inv vect (done ++ combine (seq row (length index)) index) st' /\
    avg_inv_deque vect (done ++ combine (seq row (length index)) index) st'.
Proof.
  induction index as [| i rest IH]; intros row done st st' Hinv Hdeq Hloop; simpl in *.
  - inversion Hloop; subst. rewrite app_nil_r. auto.
  - destruct (MnnCorrection.avg_step (get_row vect row) i st) as [st1 | e] eqn:Estep;
      simpl in Hloop; [| discriminate].
    destruct (deque_avg_step_inv _ _ _ _ _ _ Hinv Hdeq Estep) as [Hi [Hinv1 Hdeq1]].
    destruct (IH _ _ _ _ Hinv1 Hdeq1 Hloop) as [Hall [Hinv2 Hdeq2]].
    rewrite <- app_assoc in Hinv2, Hdeq2. simpl in Hinv2, Hdeq2. auto.
Qed.

Lemma deque_avg_loop_ok (vect : matrix) (index : list Z) :
  forall (row : nat) (done : list (nat * Z)) (st : avg_state),
    avg_inv vect done st -> avg_inv_deque vect done st ->
    Forall (fun i => 0 <= i)%Z index ->
    exists st', MnnCorrection.avg_loop vect index row st = Ok st'.
Proof.
  induction index as [| i rest IH]; intros row done st Hinv Hdeq Hall; simpl.
  - eauto.
  - apply Forall_cons_iff in Hall. destruct Hall as [Hi Hall].
    destruct (deque_avg_step_ok (get_row vect row) i st Hi) as [st1 Estep].
    rewrite Estep. simpl.
    destruct (deque_avg_step_inv _ _ _ _ _ _ Hinv Hdeq Estep) as [_ [Hinv1 Hdeq1]].
    eapply IH; eauto.
Qed.

Lemma deque_avg_loop_err (vect : matrix) (index : list Z) :
  forall (row : nat) (done : list (nat * Z)) (st : avg_state),
    avg_inv vect done st -> avg_inv_deque vect done st ->
    ~ Forall (fun i => 0 <= i)%Z index ->
    MnnCorrection.avg_loop vect index row st = Err OutOfBounds \/
    MnnCorrection.avg_loop vect index row st = Err LengthError.
Proof.
  induction index as [| i rest IH]; intros row done st Hinv Hdeq Hall; simpl.
  - exfalso. apply Hall. constructor.
  - destruct (MnnCorrection.avg_step (get_row vect row) i st) as [st1 | e] eqn:Estep.
    + simpl. destruct (deque_avg_step_inv _ _ _ _ _ _ Hinv Hdeq Estep) as [Hi [Hinv1 Hdeq1]].
      eapply IH; eauto.
    + simpl. destruct (Z.lt_ge_cases i 0) as [Hneg | Hpos].
      * destruct (deque_avg_step_err (get_row vect row) i st Hneg); left + right; congruence.
      * destruct (deque_avg_step_ok (get_row vect row) i st Hpos). congruence.
Qed.

Lemma avg_inv_deque_initial (vect : matrix) :
  avg_inv vect [] (AvgState [] [] []) /\ avg_inv_deque vect [] (AvgState [] [] []).
Proof.
  split; constructor; simpl.
  - constructor.
  - intuition.
  - reflexivity.
  - intros id [].
  - intros id [].
  - intros k _. now destruct k.
  - intros id [].
Qed.

(** *** What the averaging block leaves *)

Lemma map_snd_combine_seq (index : list Z) (row : nat) :
  map snd (combine (seq row (length index)) index) = index.
Proof.
  revert row; induction index as [| i rest IH]; intros row; simpl; [reflexivity |].
  now rewrite IH.
Qed.

Lemma vector_build_averages_spec (vect : matrix) (index : list Z) (ncells : nat) :
  Forall (in_range ncells) index ->
  exists st,
    SmoothGaussianKernel.build_averages vect index ncells = Ok st /\
    StronglySorted Z.lt (mnncell st) /\
    (forall id, In id (mnncell st) <-> In id index) /\
    length (averages st) = ncells /\
    (forall id, In id index ->
       nth (Z.to_nat id) (averages st) [] = arithmetic_mean (rows_of vect index id) /\
       nth (Z.to_nat id) (number st) 0%Z = Z.of_nat (length (rows_of vect index id))).
Proof.
  intros Hall.
  destruct (avg_inv_vector_initial vect ncells) as [Hinv0 Hvec0].
  destruct (vector_avg_loop_ok vect ncells index 0 [] _ Hinv0 Hvec0 Hall) as [st1 Hloop].
  destruct (vector_avg_loop_inv vect ncells index 0 [] _ _ Hinv0 Hvec0 Hloop)
    as [_ [Hinv Hvec]].
  simpl in Hinv, Hvec.
  destruct (divide_averages_spec _ _ _ Hinv) as [Hm [Hn [Hl Hdiv]]].
  exists (divide_averages st1).
  unfold SmoothGaussianKernel.build_averages. rewrite Hloop. simpl.
  assert (Hmem : forall id, In id (mnncell st1) <-> In id index).
  { intros id. rewrite (inv_mem Hinv). now rewrite map_snd_combine_seq. }
  split; [reflexivity |].
  split; [rewrite Hm; apply (inv_sorted Hinv) |].
  split; [now rewrite Hm |].
  split; [rewrite Hl; apply (invv_size Hvec) |].
  intros id Hid. apply Hmem in Hid.
  assert (Hr : (0 <= id < Z.of_nat ncells)%Z).
  { rewrite <- (invv_size Hvec). apply (inv_range Hinv). assumption. }
  assert (Hc : nth (Z.to_nat id) (number st1) 0%Z =
               Z.of_nat (length (rows_of vect index id))).
  { rewrite (invv_count Hvec) by lia. rewrite Z2Nat.id by lia. reflexivity. }
  split.
  - rewrite (Hdiv id Hid). rewrite Hc. reflexivity.
  - rewrite Hn. exact Hc.
Qed.

Lemma deque_build_averages_spec (vect : matrix) (index : list Z) :
  Forall (fun i => 0 <= i)%Z index ->
  exists st,
    MnnCorrection.build_averages vect index = Ok st /\
    StronglySorted Z.lt (mnncell st) /\
    (forall id, In id (mnncell st) <-> In id index) /\
    (forall id, In id index ->
       nth (Z.to_nat id) (averages st) [] = arithmetic_mean (rows_of vect index id) /\
       (get_ncol vect <> 0%nat ->
        nth (Z.to_nat id) (number st) 0%Z = Z.of_nat (length (rows_of vect index id)))).
Proof.
  intros Hall.
  destruct (avg_inv_deque_initial vect) as [Hinv0 Hdeq0].
  destruct (deque_avg_loop_ok vect index 0 [] _ Hinv0 Hdeq0 Hall) as [st1 Hloop].
  destruct (deque_avg_loop_inv vect index 0 [] _ _ Hinv0 Hdeq0 Hloop) as [_ [Hinv Hdeq]].
  simpl in Hinv, Hdeq.
  destruct (divide_averages_spec _ _ _ Hinv) as [Hm [Hn [Hl Hdiv]]].
  exists (divide_averages st1).
  unfold MnnCorrection.build_averages. rewrite Hloop. simpl.
  assert (Hmem : forall id, In id (mnncell st1) <-> In id index).
  { intros id. rewrite (inv_mem Hinv). now rewrite map_snd_combine_seq. }
  split; [reflexivity |].
  split; [rewrite Hm; apply (inv_sorted Hinv) |].
  split; [now rewrite Hm |].
  intros id Hid. apply Hmem in Hid.
  split.
  - rewrite (Hdiv id Hid).
    destruct (invd_count Hdeq id Hid) as [Hz | Hc].
    + unfold arithmetic_mean, rows_of.
      rewrite vsum_empty_rows; [reflexivity |].
      rewrite <- Hz. apply rows_with_length_row.
    + rewrite Hc. reflexivity.
  - intros Hnz. rewrite Hn.
    destruct (invd_count Hdeq id Hid) as [Hz | Hc]; [contradiction | exact Hc].
Qed.

(** *** The mean, entry by entry *)

Lemma list_as_entries (l : list dbl) : l = map (fun g => nth g l NaN) (seq 0 (length l)).
Proof.
  induction l as [| x t IH]; simpl; [reflexivity |].
  f_equal. rewrite <- seq_shift, map_map. exact IH.
Qed.

Lemma nth_vadd (a b : list dbl) (g : nat) :
  length a = length b -> (g < length a)%nat ->
  nth g (vadd a b) NaN = dadd (nth g a NaN) (nth g b NaN).
Proof.
  unfold vadd, zip_with. revert b g.
  induction a as [| x a IH]; intros [| y b] g Hl Hg; simpl in *; try lia.
  destruct g as [| g]; [reflexivity |]. apply IH; lia.
Qed.

(** The rows added one onto the other hold, entry by entry, the sums of the
    entries. *)
Lemma vsum_entries (n : nat) (rows : list (list dbl)) :
  rows <> [] -> Forall (fun r => length r = n) rows ->
  vsum rows = map (fun g => entry_sum g rows) (seq 0 n).
Proof.
  destruct rows as [| r rest]; [congruence | intros _ H].
  apply Forall_cons_iff in H. destruct H as [Hr Hrest]. simpl.
  revert r Hr. induction Hrest as [| x rest Hx Hrest IH]; intros r Hr; simpl.
  - rewrite <- Hr. apply list_as_entries.
  - rewrite IH by (rewrite vadd_length; lia).
    apply map_ext_in. intros g Hg. apply in_seq in Hg.
    rewrite nth_vadd by lia. reflexivity.
Qed.

Lemma arithmetic_mean_entries (n : nat) (rows : list (list dbl)) :
  rows <> [] -> Forall (fun r => length r = n) rows ->
  arithmetic_mean rows = mean_of_rows n rows.
Proof.
  intros Hne Hlen. unfold arithmetic_mean, mean_of_rows.
  rewrite (vsum_entries n rows Hne Hlen). now rewrite map_map.
Qed.

(** What the loops leave under an identifier of the index is the mean of
    its rows. *)
Lemma anchor_mean_entries (vect : matrix) (index : list Z) (id : Z) :
  In id index ->
  arithmetic_mean (rows_of vect index id) = mean_of_rows (get_ncol vect) (rows_of vect index id).
Proof.
  intros Hid. apply arithmetic_mean_entries; [| apply rows_with_length_row].
  unfold rows_of. rewrite rows_with_nil, map_snd_combine_seq. tauto.
Qed.





(** The state that the averaging block leaves on the example of the
    specification, in both files. *)
Example average_map_of_the_specification :
  SmoothGaussianKernel.build_averages Examples.vect3 Examples.index3 2 =
    Ok (AvgState [[Fin 2; Fin 2]; [Fin 10; Fin 10]] [2; 1]%Z [0; 1]%Z) /\
  MnnCorrection.build_averages Examples.vect3 Examples.index3 =
    Ok (AvgState [[Fin 2; Fin 2]; [Fin 10; Fin 10]] [2; 1]%Z [0; 1]%Z).
Proof.
  split; run; repeat f_equal; lra.
Qed.

(* ================================================================= *)
(** ** The smoothing loop runs when the anchors are cells *)

Lemma foldM_ok {A S : Type} (f : A -> S -> result S) (l : list A) :
  (forall a, In a l -> forall s, exists s', f a s = Ok s') ->
  forall s, exists s', foldM f l s = Ok s'.
Proof.
  induction l as [| a t IH]; intros H s; simpl.
  - eauto.
  - destruct (H a (or_introl eq_refl) s) as [s1 E]. rewrite E. simpl.
    apply IH. intros b Hb. apply H. now right.
Qed.

Lemma foldM_ext {A S : Type} (f g : A -> S -> result S) (l : list A) :
  (forall a, In a l -> forall s, f a s = g a s) ->
  forall s, foldM f l s = foldM g l s.
Proof.
  induction l as [| a t IH]; intros H s; simpl.
  - reflexivity.
  - rewrite (H a (or_introl eq_refl) s). destruct (g a s); simpl; [| reflexivity].
    apply IH. intros b Hb. apply H. now right.
Qed.

Lemma at_index_ok {A : Type} (l : list A) (i : Z) (d : A) :
  in_range (length l) i -> at_index l i = Ok (nth (Z.to_nat i) l d).
Proof.
  unfold in_range, at_index. intros H.
  destruct (Z.ltb_spec i 0); [lia |].
  destruct (nth_error l (Z.to_nat i)) as [x |] eqn:E.
  - now rewrite (nth_error_nth _ _ d E).
  - apply nth_error_None in E. lia.
Qed.

Lemma at_index_err {A : Type} (l : list A) (i : Z) :
  ~ in_range (length l) i -> at_index l i = Err OutOfBounds.
Proof.
  unfold in_range, at_index. intros H.
  destruct (Z.ltb_spec i 0); [reflexivity |].
  destruct (nth_error l (Z.to_nat i)) as [x |] eqn:E; [| reflexivity].
  exfalso. apply H. assert (Z.to_nat i < length l)%nat; [| lia].
  apply nth_error_Some. congruence.
Qed.

Lemma at_index_cases {A : Type} (l : list A) (i : Z) :
  (exists x, at_index l i = Ok x) \/ at_index l i = Err OutOfBounds.
Proof.
  unfold at_index. destruct (i <? 0)%Z; [now right |].
  destruct (nth_error l (Z.to_nat i)); eauto.
Qed.

Lemma get_const_col_ok (m : matrix) (c : Z) :
  in_range (get_ncol m) c -> get_const_col m c = Ok (get_col m (Z.to_nat c)).
Proof.
  unfold in_range, get_const_col. intros H.
  destruct (Z.leb_spec 0 c); [| lia].
  destruct (Z.ltb_spec c (Z.of_nat (get_ncol m))); [reflexivity | lia].
Qed.

Lemma get_const_col_err (m : matrix) (c : Z) :
  ~ in_range (get_ncol m) c -> get_const_col m c = Err OutOfBounds.
Proof.
  unfold in_range, get_const_col. intros H.
  destruct (Z.leb_spec 0 c); [| reflexivity].
  destruct (Z.ltb_spec c (Z.of_nat (get_ncol m))); [lia | reflexivity].
Qed.

Lemma deque_log_probabilities_length (mat : matrix) (s2 : dbl) (col : list dbl) :
  length (MnnCorrection.log_probabilities mat s2 col) = get_ncol mat.
Proof.
  unfold MnnCorrection.log_probabilities. now rewrite !length_map, length_seq.
Qed.

Lemma vector_log_probabilities_length (mat : matrix) (s2 : dbl) (col : list dbl) :
  length (SmoothGaussianKernel.log_probabilities mat s2 col) = get_ncol mat.
Proof.
  unfold SmoothGaussianKernel.log_probabilities. now rewrite !length_map, length_seq.
Qed.

(** The two passes of mnn_correction.cpp give what the single pass of
    smooth_gaussian_kernel.cpp gives. *)
Lemma log_probabilities_agree (mat : matrix) (s2 : dbl) (col : list dbl) :
  MnnCorrection.log_probabilities mat s2 col =
  SmoothGaussianKernel.log_probabilities mat s2 col.
Proof.
  unfold MnnCorrection.log_probabilities, SmoothGaussianKernel.log_probabilities.
  now rewrite map_map.
Qed.

Lemma deque_density_ok (distances2 : list dbl) (cells : list Z) :
  Forall (in_range (length distances2)) cells ->
  forall density, exists d, foldM (MnnCorrection.density_step distances2) cells density = Ok d.
Proof.
  intros H. apply foldM_ok. intros a Ha s.
  rewrite Forall_forall in H. unfold MnnCorrection.density_step.
  rewrite (at_index_ok _ _ NaN (H a Ha)). simpl.
  destruct (ISNA s); eauto.
Qed.

Lemma vector_density_ok (distances2 : list dbl) (cells : list Z) :
  Forall (in_range (length distances2)) cells ->
  forall st, exists d, foldM (SmoothGaussianKernel.density_step distances2) cells st = Ok d.
Proof.
  intros H. apply foldM_ok. intros a Ha s.
  rewrite Forall_forall in H. unfold SmoothGaussianKernel.density_step.
  rewrite (at_index_ok _ _ NaN (H a Ha)). simpl.
  destruct (snd s); eauto.
Qed.

Lemma deque_density_err (distances2 : list dbl) (cells : list Z) :
  ~ Forall (in_range (length distances2)) cells ->
  forall density,
    foldM (MnnCorrection.density_step distances2) cells density = Err OutOfBounds.
Proof.
  induction cells as [| c t IH]; intros H density; simpl.
  - exfalso. apply H. constructor.
  - unfold MnnCorrection.density_step at 1.
    destruct (at_index_cases distances2 c) as [[x E] | E]; rewrite E; simpl; [| reflexivity].
    assert (Ht : ~ Forall (in_range (length distances2)) t).
    { intros Ht. apply H. constructor; [| exact Ht].
      destruct (Z.lt_ge_cases c 0) as [Hc | Hc];
        [| destruct (Z.lt_ge_cases c (Z.of_nat (length distances2)))];
        [| unfold in_range; lia |];
        rewrite at_index_err in E by (unfold in_range; lia); discriminate. }
    destruct (ISNA density); simpl; apply IH; exact Ht.
Qed.

Lemma deque_smooth_sums_ok (mat : matrix) (s2 : dbl) (st : avg_state) (ngenes : nat) :
  Forall (in_range (get_ncol mat)) (mnncell st) ->
  exists acc, MnnCorrection.smooth_sums mat s2 st ngenes = Ok acc.
Proof.
  intros H. unfold MnnCorrection.smooth_sums. apply foldM_ok. intros a Ha s.
  unfold MnnCorrection.smooth_pass.
  rewrite get_const_col_ok by (rewrite Forall_forall in H; auto). simpl.
  unfold MnnCorrection.mnn_density.
  destruct (deque_density_ok
              (MnnCorrection.log_probabilities mat s2 (get_col mat (Z.to_nat a)))
              (mnncell st)) with (density := NA) as [d E].
  - now rewrite deque_log_probabilities_length.
  - rewrite E. simpl. eauto.
Qed.

Lemma vector_smooth_sums_ok (mat : matrix) (s2 : dbl) (st : avg_state) (ngenes : nat) :
  Forall (in_range (get_ncol mat)) (mnncell st) ->
  exists acc, SmoothGaussianKernel.smooth_sums mat s2 st ngenes = Ok acc.
Proof.
  intros H. unfold SmoothGaussianKernel.smooth_sums. apply foldM_ok. intros a Ha s.
  unfold SmoothGaussianKernel.smooth_pass.
  rewrite get_const_col_ok by (rewrite Forall_forall in H; auto). simpl.
  unfold SmoothGaussianKernel.mnn_density.
  destruct (vector_density_ok
              (SmoothGaussianKernel.log_probabilities mat s2 (get_col mat (Z.to_nat a)))
              (mnncell st)) with (st := (zero, true)) as [d E].
  - now rewrite vector_log_probabilities_length.
  - rewrite E. simpl. eauto.
Qed.

(** In mnn_correction.cpp an anchor that is not a cell is met in the first
    round: by [get_const_col], or else by the density loop. *)
Lemma deque_smooth_sums_err (mat : matrix) (s2 : dbl) (st : avg_state) (ngenes : nat) :
  ~ Forall (in_range (get_ncol mat)) (mnncell st) ->
  MnnCorrection.smooth_sums mat s2 st ngenes = Err OutOfBounds.
Proof.
  intros H. unfold MnnCorrection.smooth_sums.
  destruct (mnncell st) as [| a t] eqn:Ecells.
  - exfalso. apply H. constructor.
  - simpl. unfold MnnCorrection.smooth_pass at 1.
    destruct (get_const_col mat a) as [col | e] eqn:Ecol.
    + simpl. unfold MnnCorrection.mnn_density. rewrite Ecells.
      rewrite deque_density_err; [reflexivity |].
      now rewrite deque_log_probabilities_length.
    + simpl. unfold get_const_col in Ecol.
      destruct (_ && _); congruence.
Qed.

Lemma Forall_same_members {A : Type} (P : A -> Prop) (l1 l2 : list A) :
  (forall x, In x l1 <-> In x l2) -> Forall P l1 <-> Forall P l2.
Proof.
  intros H. rewrite !Forall_forall. split; intros HP x Hx; apply HP, H, Hx.
Qed.

(** C10.  The only check that [smooth_gaussian_kernel] makes on the anchor
    index is that of its length.  Past it (and with a bandwidth that
    [check_numeric_scalar] accepts), the call returns a matrix when every
    identifier is the number of a cell of [data], and it leaves a container
    as soon as one is not: smooth_gaussian_kernel.cpp in the averaging loop,
    mnn_correction.cpp in [resize] or in [averages] for a negative identifier
    and in the first round of the smoothing loop otherwise. *)
Theorem anchor_index_must_name_cells :
  forall (check : dbl -> result dbl) (vect : matrix) (index : list Z) (data : matrix)
         (sigma s2 : dbl),
    check sigma = Ok s2 ->
    (get_nrow vect <> length index ->
       SmoothGaussianKernel.smooth_gaussian_kernel check vect index data sigma =
         Err DimensionMismatch /\
       MnnCorrection.smooth_gaussian_kernel check vect index data sigma =
         Err DimensionMismatch) /\
    (get_nrow vect = length index ->
     Forall (in_range (get_ncol data)) index ->
       (exists out,
           SmoothGaussianKernel.smooth_gaussian_kernel check vect index data sigma = Ok out) /\
       (exists out,
           MnnCorrection.smooth_gaussian_kernel check vect index data sigma = Ok out)) /\
    (get_nrow vect = length index ->
     ~ Forall (in_range (get_ncol data)) index ->
       SmoothGaussianKernel.smooth_gaussian_kernel check vect index data sigma =
         Err OutOfBounds /\
       (MnnCorrection.smooth_gaussian_kernel check vect index data sigma = Err OutOfBounds \/
        MnnCorrection.smooth_gaussian_kernel check vect index data sigma = Err LengthError)).
Proof.
  intros check vect index data sigma s2 Hcheck.
  unfold SmoothGaussianKernel.smooth_gaussian_kernel, MnnCorrection.smooth_gaussian_kernel.
  split; [| split].
  - intros Hlen. apply Nat.eqb_neq in Hlen. rewrite Hlen. simpl. auto.
  - intros Hlen Hall. apply Nat.eqb_eq in Hlen. rewrite Hlen. simpl.
    split.
    + destruct (vector_build_averages_spec vect index (get_ncol data) Hall)
        as [st [Hb [_ [Hmem _]]]].
      destruct (vector_smooth_sums_ok data s2 st (get_ncol vect)) as [acc Hacc].
      { now apply (Forall_same_members _ _ _ Hmem). }
      eexists. rewrite Hcheck. simpl. rewrite Hb. simpl. rewrite Hacc. simpl. reflexivity.
    + destruct (deque_build_averages_spec vect index) as [st [Hb [_ [Hmem _]]]].
      { eapply Forall_impl; [| exact Hall]. unfold in_range. intros; lia. }
      destruct (deque_smooth_sums_ok data s2 st (get_ncol vect)) as [acc Hacc].
      { now apply (Forall_same_members _ _ _ Hmem). }
      eexists. rewrite Hb. simpl. rewrite Hcheck. simpl. rewrite Hacc. simpl. reflexivity.
  - intros Hlen Hall. apply Nat.eqb_eq in Hlen. rewrite Hlen. simpl. rewrite Hcheck. simpl.
    split.
    + unfold SmoothGaussianKernel.build_averages.
      destruct (avg_inv_vector_initial vect (get_ncol data)) as [Hinv0 Hvec0].
      now rewrite (vector_avg_loop_err vect (get_ncol data) index 0 [] _ Hinv0 Hvec0 Hall).
    + destruct (Forall_dec (fun i => (0 <= i)%Z) (fun i => Z_le_dec 0 i) index)
        as [Hpos | Hneg].
      * destruct (deque_build_averages_spec vect index Hpos) as [st [Hb [_ [Hmem _]]]].
        rewrite Hb. simpl. rewrite ?Hcheck. simpl.
        rewrite deque_smooth_sums_err; [now left |].
        now rewrite (Forall_same_members _ _ _ Hmem).
      * unfold MnnCorrection.build_averages.
        destruct (avg_inv_deque_initial vect) as [Hinv0 Hdeq0].
        destruct (deque_avg_loop_err vect index 0 [] _ Hinv0 Hdeq0 Hneg) as [E | E];
          rewrite E; simpl; auto.
Qed.

Lemma anchor_index_must_name_cells_witness :
  check_numeric_scalar (Fin 1) = Ok (Fin 1) /\
  Forall (in_range (get_ncol Examples.data2)) Examples.index3 /\
  ~ Forall (in_range (get_ncol Examples.data2)) [2%Z; 0%Z; 1%Z] /\
  (exists out,
      SmoothGaussianKernel.smooth_gaussian_kernel check_numeric_scalar
        Examples.vect3 Examples.index3 Examples.data2 (Fin 1) = Ok out) /\
  SmoothGaussianKernel.smooth_gaussian_kernel check_numeric_scalar
    Examples.vect3 [2%Z; 0%Z; 1%Z] Examples.data2 (Fin 1) = Err OutOfBounds.
Proof.
  assert (Hc : check_numeric_scalar (Fin 1) = Ok (Fin 1)).
  { unfold check_numeric_scalar, dle, zero. now rewrite rle_false by lra. }
  assert (Hr : Forall (in_range (get_ncol Examples.data2)) Examples.index3).
  { unfold Examples.index3, in_range. repeat constructor; simpl; lia. }
  assert (Hn : ~ Forall (in_range (get_ncol Examples.data2)) [2%Z; 0%Z; 1%Z]).
  { intros H. apply Forall_inv in H. unfold in_range in H. simpl in H. lia. }
  split; [exact Hc |]. split; [exact Hr |]. split; [exact Hn |].
  split.
  - destruct (anchor_index_must_name_cells check_numeric_scalar Examples.vect3
                Examples.index3 Examples.data2 (Fin 1) (Fin 1) Hc) as [_ [Hok _]].
    exact (proj1 (Hok eq_refl Hr)).
  - destruct (anchor_index_must_name_cells check_numeric_scalar Examples.vect3
                [2%Z; 0%Z; 1%Z] Examples.data2 (Fin 1) (Fin 1) Hc) as [_ [_ Herr]].
    exact (proj1 (Herr eq_refl Hn)).
Defined.

(* ================================================================= *)
(** ** The division by the total probability *)

Lemma ddiv_by_zero_not_finite (x : dbl) : is_finite (ddiv x zero) = false.
Proof.
  destruct x; simpl; try reflexivity.
  - rewrite req_true by reflexivity. unfold signed_inf.
    destruct (req r 0); [reflexivity |]. destruct (rlt 0 r); reflexivity.
  - destruct (rlt 0 0); reflexivity.
  - destruct (rlt 0 0); reflexivity.
Qed.

Lemma nth_error_zip_with {A B C : Type} (f : A -> B -> C) (l1 : list A) (l2 : list B)
    (n : nat) (c : C) :
  nth_error (zip_with f l1 l2) n = Some c ->
  exists a b, nth_error l1 n = Some a /\ nth_error l2 n = Some b /\ c = f a b.
Proof.
  revert l2 n; induction l1 as [| a t IH]; intros [| b u] [| n] H; simpl in *;
    try discriminate.
  - inversion H. eauto.
  - apply IH. exact H.
Qed.

Lemma divide_by_total_zero (output : list (list dbl)) (totalprob : list dbl)
    (s : nat) (col : list dbl) :
  nth_error totalprob s = Some zero ->
  nth_error (Kernel.divide_by_total output totalprob) s = Some col ->
  Forall (fun val => is_finite val = false) col.
Proof.
  intros Ht Hc. unfold Kernel.divide_by_total in Hc.
  apply nth_error_zip_with in Hc. destruct Hc as [curcol [total [_ [Ht' ->]]]].
  rewrite Ht in Ht'. inversion Ht'; subst total.
  apply Forall_forall. intros v Hv. apply in_map_iff in Hv.
  destruct Hv as [x [<- _]]. apply ddiv_by_zero_not_finite.
Qed.

Lemma far_cell_sums :
  SmoothGaussianKernel.build_averages Examples.vect1 Examples.index1 2 =
    Ok (AvgState [[Fin 5]; []] [1; 0]%Z [0%Z]) /\
  SmoothGaussianKernel.smooth_sums Examples.data_far (Fin 1)
    (AvgState [[Fin 5]; []] [1; 0]%Z [0%Z]) 1 =
    Ok ([[Fin 5]; [Fin 0]], [Fin 1; Fin 0]).
Proof.
  split; run; exp_zero; rdecide; repeat f_equal; try lra; field.
Qed.

(** With one anchor at 0 and a second cell infinitely far from it, the
    weight of the second cell is zero; the call returns all the same, with a
    NaN in the column of that cell. *)
Lemma zero_total_weight_is_not_an_error :
  SmoothGaussianKernel.build_averages Examples.vect1 Examples.index1 2 =
    Ok (AvgState [[Fin 5]; []] [1; 0]%Z [0%Z]) /\
  SmoothGaussianKernel.smooth_sums Examples.data_far (Fin 1)
    (AvgState [[Fin 5]; []] [1; 0]%Z [0%Z]) 1 =
    Ok ([[Fin 5]; [Fin 0]], [Fin 1; Fin 0]) /\
  SmoothGaussianKernel.smooth_gaussian_kernel check_numeric_scalar
    Examples.vect1 Examples.index1 Examples.data_far (Fin 1) = Ok [[Fin 5]; [NaN]] /\
  MnnCorrection.smooth_gaussian_kernel check_numeric_scalar
    Examples.vect1 Examples.index1 Examples.data_far (Fin 1) = Ok [[Fin 5]; [NaN]].
Proof.
  repeat split; run; exp_zero; rdecide; repeat f_equal; try lra; field.
Qed.

(** C3, amended.  Nothing guards the division by the total probability: when
    the loop over the anchors has run, the call returns the sums divided by
    the totals, and in the column of a cell whose total is zero no entry is
    finite (0/0 is a NaN, anything else over 0 an infinity).  No error is
    raised. *)
Theorem zero_total_weight_gives_non_finite_column :
  forall (check : dbl -> result dbl) (vect : matrix) (index : list Z) (data : matrix)
         (sigma s2 : dbl),
    get_nrow vect = length index ->
    check sigma = Ok s2 ->
    (forall st acc,
        SmoothGaussianKernel.build_averages vect index (get_ncol data) = Ok st ->
        SmoothGaussianKernel.smooth_sums data s2 st (get_ncol vect) = Ok acc ->
        SmoothGaussianKernel.smooth_gaussian_kernel check vect index data sigma =
          Ok (Kernel.divide_by_total (fst acc) (snd acc)) /\
        forall s col,
          nth_error (snd acc) s = Some zero ->
          nth_error (Kernel.divide_by_total (fst acc) (snd acc)) s = Some col ->
          Forall (fun val => is_finite val = false) col) /\
    (forall st acc,
        MnnCorrection.build_averages vect index = Ok st ->
        MnnCorrection.smooth_sums data s2 st (get_ncol vect) = Ok acc ->
        MnnCorrection.smooth_gaussian_kernel check vect index data sigma =
          Ok (Kernel.divide_by_total (fst acc) (snd acc)) /\
        forall s col,
          nth_error (snd acc) s = Some zero ->
          nth_error (Kernel.divide_by_total (fst acc) (snd acc)) s = Some col ->
          Forall (fun val => is_finite val = false) col).
Proof.
  intros check vect index data sigma s2 Hlen Hcheck.
  apply Nat.eqb_eq in Hlen.
  split; intros st acc Hb Hacc; (split; [| apply divide_by_total_zero]).
  - unfold SmoothGaussianKernel.smooth_gaussian_kernel.
    rewrite Hlen. simpl. rewrite Hcheck. simpl. rewrite Hb. simpl. now rewrite Hacc.
  - unfold MnnCorrection.smooth_gaussian_kernel.
    rewrite Hlen. simpl. rewrite Hb. simpl. rewrite Hcheck. simpl. now rewrite Hacc.
Qed.

Lemma zero_total_weight_witness :
  get_nrow Examples.vect1 = length Examples.index1 /\
  check_numeric_scalar (Fin 1) = Ok (Fin 1) /\
  SmoothGaussianKernel.smooth_gaussian_kernel check_numeric_scalar
    Examples.vect1 Examples.index1 Examples.data_far (Fin 1) =
    Ok (Kernel.divide_by_total [[Fin 5]; [Fin 0]] [Fin 1; Fin 0]) /\
  Forall (fun val => is_finite val = false)
         (nth 1 (Kernel.divide_by_total [[Fin 5]; [Fin 0]] [Fin 1; Fin 0]) []).
Proof.
  assert (Hc : check_numeric_scalar (Fin 1) = Ok (Fin 1)).
  { unfold check_numeric_scalar, dle, zero. now rewrite rle_false by lra. }
  destruct far_cell_sums as [Hb Hs].
  destruct (zero_total_weight_gives_non_finite_column check_numeric_scalar
              Examples.vect1 Examples.index1 Examples.data_far (Fin 1) (Fin 1)
              eq_refl Hc) as [Hv _].
  destruct (Hv _ _ Hb Hs) as [Hcall Hcol].
  split; [reflexivity |]. split; [exact Hc |]. split; [exact Hcall |].
  apply (Hcol 1%nat); reflexivity.
Defined.

(* ================================================================= *)
(** ** The buffers of [adjust_shift_variance] *)

Import MnnCorrection.

Lemma line_residual_length (scale : dbl) (working grad : list dbl) :
  forall dist, length (snd (line_residual scale working grad dist)) = length working.
Proof.
  revert grad; induction working as [| w ws IH]; intros [| g gs] dist; simpl; auto.
Qed.

(** [working] is overwritten: its length alone counts. *)
Lemma sq_distance_to_line_working (ref grad point w w' : list dbl) :
  length w = length w' ->
  sq_distance_to_line ref grad point w = sq_distance_to_line ref grad point w'.
Proof. intros H. unfold sq_distance_to_line. now rewrite H. Qed.

Lemma sq_distance_to_line_length (ref grad point w : list dbl) :
  (length w <= length ref)%nat -> (length w <= length point)%nat ->
  length (snd (sq_distance_to_line ref grad point w)) = length w.
Proof.
  intros Hr Hp. unfold sq_distance_to_line.
  rewrite line_residual_length, length_firstn, zip_with_length. lia.
Qed.

Lemma same_loop_working (d2 : matrix) (s2 : dbl) (grad curcell : list dbl) (cp : dbl)
    (cell : nat) (cells : list nat) :
  length curcell = get_nrow d2 ->
  forall (p t : dbl) (w w' : list dbl),
    length w = length w' -> (length w <= get_nrow d2)%nat ->
    fst (fold_left (same_step d2 s2 grad curcell cp cell) cells (p, t, w)) =
    fst (fold_left (same_step d2 s2 grad curcell cp cell) cells (p, t, w')) /\
    length (snd (fold_left (same_step d2 s2 grad curcell cp cell) cells (p, t, w))) =
    length w.
Proof.
  intros Hcur. induction cells as [| c rest IH]; intros p t w w' Hlen Hle; simpl.
  - auto.
  - destruct (Nat.eqb c cell).
    + apply IH; assumption.
    + rewrite (sq_distance_to_line_working curcell grad (get_col d2 c) w w' Hlen).
      set (r := sq_distance_to_line curcell grad (get_col d2 c) w').
      assert (Hr : length (snd r) = length w').
      { apply sq_distance_to_line_length; rewrite ?Hcur, ?get_col_length; lia. }
      split; [reflexivity |].
      rewrite <- Hlen in Hr. rewrite <- Hr.
      apply (IH _ _ (snd r) (snd r) eq_refl). lia.
Qed.

(** The reference loop writes every element of [distance1]. *)
Lemma other_loop_spec (d1 : matrix) (s2 : dbl) (grad curcell : list dbl) (n : nat) :
  length curcell = get_nrow d1 ->
  forall (start : nat) (tot : dbl) (b : buffers),
    (length (working b) <= get_nrow d1)%nat ->
    let weight := fun other =>
      dexp (ddiv (dneg (fst (sq_distance_to_line curcell grad (get_col d1 other)
                                                 (working b)))) s2) in
    let r := fold_left (other_step d1 s2 grad curcell) (seq start n) (tot, b) in
    fst r = fold_left dadd (map weight (seq start n)) tot /\
    length (working (snd r)) = length (working b) /\
    length (distance1 (snd r)) = length (distance1 b) /\
    forall o,
      nth_error (distance1 (snd r)) o =
      if ((start <=? o) && (o <? start + n) && (o <? length (distance1 b)))%nat
      then Some (inner_product grad (get_col d1 o) zero, weight o)
      else nth_error (distance1 b) o.
Proof.
  intros Hcur. induction n as [| n IH]; intros start tot b Hw; cbv zeta.
  - cbn [seq fold_left map fst snd]. repeat split; auto. intros o. now nat_cases.
  - set (r0 := sq_distance_to_line curcell grad (get_col d1 start) (working b)).
    assert (Hr0 : length (snd r0) = length (working b)).
    { apply sq_distance_to_line_length; rewrite ?Hcur, ?get_col_length; lia. }
    set (b1 := Buffers (snd r0)
                 (update (distance1 b) start
                    (inner_product grad (get_col d1 start) zero,
                     dexp (ddiv (dneg (fst r0)) s2)))).
    cbn [seq fold_left map].
    change (other_step d1 s2 grad curcell (tot, b) start)
      with (dadd tot (dexp (ddiv (dneg (fst r0)) s2)), b1).
    specialize (IH (S start) (dadd tot (dexp (ddiv (dneg (fst r0)) s2))) b1).
    cbv zeta in IH. destruct IH as [Ht [Hwl [Hdl Hnth]]].
    { unfold b1; cbn [working]. lia. }
    assert (Hsame : forall other,
               sq_distance_to_line curcell grad (get_col d1 other) (working b1) =
               sq_distance_to_line curcell grad (get_col d1 other) (working b)).
    { intros other. now apply sq_distance_to_line_working. }
    assert (Hd1 : length (distance1 b1) = length (distance1 b)).
    { unfold b1; cbn [distance1]. apply update_length. }
    split; [| split; [| split]].
    + rewrite Ht. f_equal. apply map_ext. intros o. now rewrite Hsame.
    + rewrite Hwl. exact Hr0.
    + rewrite Hdl. exact Hd1.
    + intros o. rewrite Hnth, Hd1, Hsame.
      destruct (Nat.eq_dec o start) as [-> | Hne].
      * unfold b1; cbn [distance1]. nat_cases.
        -- now rewrite nth_error_update_eq.
        -- rewrite (proj2 (nth_error_None _ _)) by (rewrite update_length; lia).
           symmetry. apply nth_error_None. lia.
      * unfold b1; cbn [distance1]. rewrite nth_error_update_neq by lia.
        now nat_cases.
Qed.

Lemma other_loop_distance1 (d1 : matrix) (s2 : dbl) (grad curcell : list dbl)
    (tot : dbl) (b : buffers) :
  length curcell = get_nrow d1 ->
  (length (working b) <= get_nrow d1)%nat ->
  length (distance1 b) = get_ncol d1 ->
  distance1 (snd (fold_left (other_step d1 s2 grad curcell) (seq 0 (get_ncol d1)) (tot, b))) =
  map (fun o =>
         (inner_product grad (get_col d1 o) zero,
          dexp (ddiv (dneg (fst (sq_distance_to_line curcell grad (get_col d1 o)
                                                     (working b)))) s2)))
      (seq 0 (get_ncol d1)).
Proof.
  intros Hcur Hw Hd.
  destruct (other_loop_spec d1 s2 grad curcell (get_ncol d1) Hcur 0 tot b Hw)
    as [_ [_ [Hl Hnth]]].
  apply nth_error_ext. intros o. rewrite Hnth, Hd.
  destruct (Nat.lt_ge_cases o (get_ncol d1)) as [Ho | Ho].
  - nat_cases. rewrite nth_error_map, nth_error_nth' with (d := 0%nat)
      by (rewrite length_seq; lia).
    rewrite seq_nth by lia. reflexivity.
  - nat_cases; rewrite (proj2 (nth_error_None _ _)) by lia;
      symmetry; apply nth_error_None; rewrite length_map, length_seq; lia.
Qed.

(** *** The sort *)

Lemma sort_insert_perm (x : dbl * dbl) (l : list (dbl * dbl)) :
  Permutation (sort_insert x l) (x :: l).
Proof.
  induction l as [| y t IH]; simpl; [reflexivity |].
  destruct (pair_lt y x); [| reflexivity].
  rewrite IH. apply perm_swap.
Qed.

Lemma sort_perm (l : list (dbl * dbl)) : Permutation (sort l) l.
Proof.
  induction l as [| x t IH]; simpl; [reflexivity |].
  rewrite sort_insert_perm. now constructor.
Qed.

Lemma sort_length (l : list (dbl * dbl)) : length (sort l) = length l.
Proof. apply Permutation_length, sort_perm. Qed.

(** What a round leaves in the buffers does not show in the next round. *)
Lemma adjust_cell_buffers (d1 d2 v : matrix) (s2 : dbl) (cell : nat) (b b' : buffers) :
  get_nrow d1 = get_nrow d2 ->
  length (working b) = get_nrow d1 -> length (distance1 b) = get_ncol d1 ->
  length (working b') = get_nrow d1 -> length (distance1 b') = get_ncol d1 ->
  fst (adjust_cell d1 d2 v s2 cell b) = fst (adjust_cell d1 d2 v s2 cell b') /\
  length (working (snd (adjust_cell d1 d2 v s2 cell b))) = get_nrow d1 /\
  length (distance1 (snd (adjust_cell d1 d2 v s2 cell b))) = get_ncol d1.
Proof.
  intros Hg Hw Hd Hw' Hd'. unfold adjust_cell.
  set (grad0 := get_row v cell).
  set (l2 := dsqrt (fold_left (fun acc g => dadd acc (dmul g g)) grad0 zero)).
  set (grad := map (fun g => ddiv g l2) grad0).
  set (curcell := get_col d2 cell).
  set (cp := inner_product grad curcell zero).
  assert (Hcur2 : length curcell = get_nrow d2) by apply get_col_length.
  assert (Hcur1 : length curcell = get_nrow d1) by lia.
  destruct (same_loop_working d2 s2 grad curcell cp cell (seq 0 (get_ncol d2)) Hcur2
              zero zero (working b) (working b')) as [Hsame Hlen]; [lia | lia |].
  destruct (same_loop_working d2 s2 grad curcell cp cell (seq 0 (get_ncol d2)) Hcur2
              zero zero (working b') (working b)) as [_ Hlen']; [lia | lia |].
  destruct (fold_left (same_step d2 s2 grad curcell cp cell) (seq 0 (get_ncol d2))
                      (zero, zero, working b)) as [[p t] w].
  destruct (fold_left (same_step d2 s2 grad curcell cp cell) (seq 0 (get_ncol d2))
                      (zero, zero, working b')) as [[p' t'] w'].
  simpl in Hsame, Hlen, Hlen'. inversion Hsame; subst p' t'. clear Hsame.
  pose proof (other_loop_spec d1 s2 grad curcell (get_ncol d1) Hcur1 0 zero
                (Buffers w (distance1 b))) as H1.
  pose proof (other_loop_spec d1 s2 grad curcell (get_ncol d1) Hcur1 0 zero
                (Buffers w' (distance1 b'))) as H1'.
  pose proof (other_loop_distance1 d1 s2 grad curcell zero (Buffers w (distance1 b)) Hcur1)
    as H2.
  pose proof (other_loop_distance1 d1 s2 grad curcell zero (Buffers w' (distance1 b')) Hcur1)
    as H2'.
  cbv zeta in H1, H1'. cbn [working distance1] in H1, H1', H2, H2'.
  destruct H1 as [Ht [Hwl [Hdl _]]]; [lia |].
  destruct H1' as [Ht' _]; [lia |].
  specialize (H2 ltac:(lia) Hd). specialize (H2' ltac:(lia) Hd').
  assert (Hww : forall o,
             sq_distance_to_line curcell grad (get_col d1 o) w =
             sq_distance_to_line curcell grad (get_col d1 o) w').
  { intros o. apply sq_distance_to_line_working. lia. }
  destruct (fold_left (other_step d1 s2 grad curcell) (seq 0 (get_ncol d1))
                      (zero, Buffers w (distance1 b))) as [tp b1].
  destruct (fold_left (other_step d1 s2 grad curcell) (seq 0 (get_ncol d1))
                      (zero, Buffers w' (distance1 b'))) as [tp' b1'].
  cbn [fst snd] in *.
  assert (Etp : tp = tp').
  { rewrite Ht, Ht'. f_equal. apply map_ext. intros o. now rewrite Hww. }
  assert (Ed : distance1 b1 = distance1 b1').
  { rewrite H2, H2'. apply map_ext. intros o. now rewrite Hww. }
  rewrite Etp, Ed. split; [reflexivity |]. cbn [working distance1].
  split; [lia |].
  rewrite sort_length, <- Ed, H2. now rewrite length_map, length_seq.
Qed.

Lemma adjust_cell_fresh (d1 d2 v : matrix) (s2 : dbl) (cell : nat) (b : buffers) :
  get_nrow d1 = get_nrow d2 ->
  length (working b) = get_nrow d1 -> length (distance1 b) = get_ncol d1 ->
  fst (adjust_cell d1 d2 v s2 cell b) = cell_trace_of d1 d2 v s2 cell.
Proof.
  intros Hg Hw Hd. unfold cell_trace_of.
  apply adjust_cell_buffers; try assumption; unfold fresh_buffers; simpl;
    apply repeat_length.
Qed.

Lemma adjust_loop_spec (d1 d2 v : matrix) (s2 : dbl) (cells : list nat) :
  get_nrow d1 = get_nrow d2 ->
  NoDup cells ->
  forall (out : list dbl) (b : buffers),
    length (working b) = get_nrow d1 -> length (distance1 b) = get_ncol d1 ->
    forall c,
      nth_error (fst (adjust_loop d1 d2 v s2 cells (out, b))) c =
      if in_dec Nat.eq_dec c cells
      then (if (c <? length out)%nat then Some (scaling (cell_trace_of d1 d2 v s2 c)) else None)
      else nth_error out c.
Proof.
  intros Hg Hnd. unfold adjust_loop.
  induction cells as [| c0 rest IH]; intros out b Hw Hd c; simpl.
  - reflexivity.
  - apply NoDup_cons_iff in Hnd. destruct Hnd as [Hni Hnd].
    destruct (adjust_cell_buffers d1 d2 v s2 c0 b b Hg Hw Hd Hw Hd) as [_ [Hw1 Hd1]].
    rewrite (IH Hnd _ _ Hw1 Hd1 c). rewrite update_length.
    rewrite (adjust_cell_fresh d1 d2 v s2 c0 b Hg Hw Hd).
    destruct (Nat.eq_dec c0 c) as [-> | Hne].
    + destruct (in_dec Nat.eq_dec c rest); [contradiction |].
      destruct (Nat.ltb_spec c (length out)).
      * now apply nth_error_update_eq.
      * apply nth_error_None. rewrite update_length. lia.
    + destruct (in_dec Nat.eq_dec c rest); [reflexivity |].
      now apply nth_error_update_neq.
Qed.

(** Past its checks, [adjust_shift_variance] returns the scaling of every
    cell, each computed on its own. *)
Lemma adjust_shift_variance_spec (check : dbl -> result dbl) (d1 d2 v : matrix)
    (sigma s2 : dbl) :
  get_nrow d1 = get_nrow d2 -> get_nrow d1 = get_ncol v -> get_ncol d2 = get_nrow v ->
  check sigma = Ok s2 ->
  adjust_shift_variance check d1 d2 v sigma =
  Ok (map (fun c => scaling (cell_trace_of d1 d2 v s2 c)) (seq 0 (get_ncol d2))).
Proof.
  intros H1 H2 H3 Hc. unfold adjust_shift_variance.
  rewrite (proj2 (Nat.eqb_eq _ _) H1), (proj2 (Nat.eqb_eq _ _) H2),
    (proj2 (Nat.eqb_eq _ _) H3). simpl. rewrite Hc. simpl. f_equal.
  apply nth_error_ext. intros c.
  rewrite (adjust_loop_spec d1 d2 v s2 (seq 0 (get_ncol d2)) H1 (seq_NoDup _ _));
    try apply repeat_length.
  rewrite repeat_length.
  destruct (in_dec Nat.eq_dec c (seq 0 (get_ncol d2))) as [Hin | Hout].
  - apply in_seq in Hin. destruct (Nat.ltb_spec c (get_ncol d2)); [| lia].
    rewrite nth_error_map, nth_error_nth' with (d := 0%nat) by (rewrite length_seq; lia).
    now rewrite seq_nth by lia.
  - rewrite in_seq in Hout.
    rewrite (proj2 (nth_error_None _ _)) by (rewrite repeat_length; lia).
    symmetry. apply nth_error_None. rewrite length_map, length_seq. lia.
Qed.

Lemma adjust_shift_variance_nth (check : dbl -> result dbl) (d1 d2 v : matrix)
    (sigma s2 : dbl) (out : list dbl) (c : nat) :
  get_nrow d1 = get_nrow d2 -> get_nrow d1 = get_ncol v -> get_ncol d2 = get_nrow v ->
  check sigma = Ok s2 ->
  adjust_shift_variance check d1 d2 v sigma = Ok out ->
  (c < get_ncol d2)%nat ->
  nth_error out c = Some (scaling (cell_trace_of d1 d2 v s2 c)).
Proof.
  intros H1 H2 H3 Hc Hout Hlt.
  rewrite (adjust_shift_variance_spec check d1 d2 v sigma s2 H1 H2 H3 Hc) in Hout.
  inversion Hout; subst out.
  rewrite nth_error_map, nth_error_nth' with (d := 0%nat) by (rewrite length_seq; lia).
  now rewrite seq_nth by lia.
Qed.

(** The round of a cell reads its own row of the gradient matrix only. *)
Lemma cell_trace_of_row (d1 d2 v v' : matrix) (s2 : dbl) (c : nat) :
  get_row v' c = get_row v c ->
  cell_trace_of d1 d2 v' s2 c = cell_trace_of d1 d2 v s2 c.
Proof.
  intros H. unfold cell_trace_of, adjust_cell. now rewrite H.
Qed.

(* ================================================================= *)
(** ** The scaling of one cell *)

Lemma cell_trace_scaling (d1 d2 v : matrix) (s2 : dbl) (c : nat) :
  let t := cell_trace_of d1 d2 v s2 c in
  scaling t = ddiv (dsub (ref_quan t) (curproj t)) (l2norm t).
Proof.
  unfold cell_trace_of, adjust_cell.
  destruct (fold_left (same_step _ _ _ _ _ _) _ _) as [[p t] w].
  destruct (fold_left (other_step _ _ _ _) _ _) as [tp b1].
  reflexivity.
Qed.

Lemma cell_trace_l2norm (d1 d2 v : matrix) (s2 : dbl) (c : nat) :
  l2norm (cell_trace_of d1 d2 v s2 c) =
  dsqrt (fold_left (fun acc g => dadd acc (dmul g g)) (get_row v c) zero).
Proof.
  unfold cell_trace_of, adjust_cell.
  destruct (fold_left (same_step _ _ _ _ _ _) _ _) as [[p t] w].
  destruct (fold_left (other_step _ _ _ _) _ _) as [tp b1].
  reflexivity.
Qed.

(** A gradient row of zeros has the norm zero. *)
Lemma zero_row_has_zero_norm (d1 d2 v : matrix) (s2 : dbl) (c : nat) :
  Forall (fun g => g = zero) (get_row v c) ->
  l2norm (cell_trace_of d1 d2 v s2 c) = zero.
Proof.
  intros H. rewrite cell_trace_l2norm.
  assert (E : fold_left (fun acc g => dadd acc (dmul g g)) (get_row v c) zero = zero).
  { induction H as [| g t Hg Ht IH]; cbn [fold_left]; [reflexivity |].
    rewrite Hg. replace (dadd zero (dmul zero zero)) with zero; [exact IH |].
    unfold zero. simpl. f_equal. lra. }
  rewrite E. unfold zero. simpl. rewrite rlt_false by lra. f_equal. apply sqrt_0.
Qed.

Lemma nth_error_seq_Some (a n k x : nat) :
  nth_error (seq a n) k = Some x -> x = (a + k)%nat /\ (k < n)%nat.
Proof.
  intros E.
  assert (Hk : (k < length (seq a n))%nat) by (apply nth_error_Some; congruence).
  rewrite length_seq in Hk.
  apply nth_error_nth with (d := 0%nat) in E.
  rewrite seq_nth in E by assumption. auto.
Qed.

(** C7.  A gradient row whose norm is zero does not stop
    [adjust_shift_variance]: the call returns, the scale factor of that cell
    is a division by zero and so is not finite, and the scale factors of the
    other cells are what they are whatever that row holds. *)
Theorem zero_norm_gradient_gives_non_finite_scaling :
  forall (check : dbl -> result dbl) (data1 data2 vect : matrix) (sigma s2 : dbl) (c : nat),
    get_nrow data1 = get_nrow data2 ->
    get_nrow data1 = get_ncol vect ->
    get_ncol data2 = get_nrow vect ->
    check sigma = Ok s2 ->
    (c < get_ncol data2)%nat ->
    l2norm (cell_trace_of data1 data2 vect s2 c) = zero ->
    exists out,
      adjust_shift_variance check data1 data2 vect sigma = Ok out /\
      length out = get_ncol data2 /\
      (exists x, nth_error out c = Some x /\ is_finite x = false) /\
      forall vect',
        get_nrow vect' = get_nrow vect -> get_ncol vect' = get_ncol vect ->
        (forall c', c' <> c -> get_row vect' c' = get_row vect c') ->
        exists out',
          adjust_shift_variance check data1 data2 vect' sigma = Ok out' /\
          forall c', c' <> c -> nth_error out' c' = nth_error out c'.
Proof.
  intros check d1 d2 v sigma s2 c H1 H2 H3 Hc Hlt Hnorm.
  pose proof (adjust_shift_variance_spec check d1 d2 v sigma s2 H1 H2 H3 Hc) as Hout.
  eexists. split; [exact Hout |].
  split; [now rewrite length_map, length_seq |].
  split.
  - eexists. split.
    + apply (adjust_shift_variance_nth check d1 d2 v sigma s2 _ c H1 H2 H3 Hc Hout Hlt).
    + rewrite cell_trace_scaling, Hnorm. apply ddiv_by_zero_not_finite.
  - intros v' Hr Hcl Hrows.
    assert (H2' : get_nrow d1 = get_ncol v') by lia.
    assert (H3' : get_ncol d2 = get_nrow v') by lia.
    pose proof (adjust_shift_variance_spec check d1 d2 v' sigma s2 H1 H2' H3' Hc) as Hout'.
    eexists. split; [exact Hout' |].
    intros c' Hne. rewrite !nth_error_map.
    destruct (nth_error (seq 0 (get_ncol d2)) c') as [c'' |] eqn:E; [| reflexivity].
    simpl. f_equal. f_equal.
    apply nth_error_seq_Some in E. destruct E as [-> _].
    apply cell_trace_of_row. auto.
Qed.

(* ================================================================= *)
(** ** The matched quantile *)

Lemma dlt_dle (x y : dbl) : dlt x y = true -> dle x y = true.
Proof.
  destruct x, y; simpl; try congruence. unfold rlt, rle.
  destruct (Rlt_dec r r0), (Rle_dec r r0); try congruence. lra.
Qed.

Lemma dle_total (x y : dbl) :
  ISNAN x = false -> ISNAN y = false -> dlt x y = false -> dle y x = true.
Proof.
  destruct x, y; simpl; try congruence. unfold rlt, rle.
  destruct (Rlt_dec r r0), (Rle_dec r0 r); try congruence. lra.
Qed.

Lemma dle_trans (x y z : dbl) : dle x y = true -> dle y z = true -> dle x z = true.
Proof.
  destruct x, y, z; simpl; try congruence. unfold rle.
  destruct (Rle_dec r r0), (Rle_dec r0 r1), (Rle_dec r r1); try congruence. lra.
Qed.

Lemma dle_refl (x : dbl) : ISNAN x = false -> dle x x = true.
Proof.
  destruct x; simpl; try congruence. intros _. apply rle_true. lra.
Qed.

Lemma pair_lt_dle (a b : dbl * dbl) :
  ISNAN (fst a) = false -> ISNAN (fst b) = false ->
  pair_lt a b = true -> dle (fst a) (fst b) = true.
Proof.
  intros Ha Hb H. unfold pair_lt in H. apply orb_true_iff in H.
  destruct H as [H | H].
  - now apply dlt_dle.
  - apply andb_true_iff in H. destruct H as [H _]. apply negb_true_iff in H.
    now apply dle_total.
Qed.

Lemma pair_lt_false_dle (a b : dbl * dbl) :
  ISNAN (fst a) = false -> ISNAN (fst b) = false ->
  pair_lt a b = false -> dle (fst b) (fst a) = true.
Proof.
  intros Ha Hb H. unfold pair_lt in H. apply orb_false_iff in H.
  destruct H as [H _]. now apply dle_total.
Qed.

(** When no projection is a NaN the sort puts the projections in order. *)
Lemma sort_insert_sorted (x : dbl * dbl) (l : list (dbl * dbl)) :
  ISNAN (fst x) = false -> Forall (fun p => ISNAN (fst p) = false) l ->
  StronglySorted (fun a b => dle (fst a) (fst b) = true) l ->
  StronglySorted (fun a b => dle (fst a) (fst b) = true) (sort_insert x l).
Proof.
  intros Hx Hl Hs. induction Hs as [| y t Hs IH Hy]; simpl.
  - repeat constructor.
  - apply Forall_cons_iff in Hl. destruct Hl as [Hny Hnt].
    destruct (pair_lt y x) eqn:E.
    + constructor; [now apply IH |].
      apply Forall_forall. intros z Hz.
      apply (Permutation_in _ (sort_insert_perm x t)) in Hz.
      destruct Hz as [<- | Hz].
      * now apply pair_lt_dle.
      * rewrite Forall_forall in Hy. now apply Hy.
    + assert (Hxy : dle (fst x) (fst y) = true) by now apply pair_lt_false_dle.
      constructor; [now constructor |].
      constructor; [assumption |].
      apply Forall_forall. intros z Hz. rewrite Forall_forall in Hy.
      apply dle_trans with (y := fst y); auto.
Qed.

Lemma sort_sorted (l : list (dbl * dbl)) :
  Forall (fun p => ISNAN (fst p) = false) l ->
  StronglySorted (fun a b => dle (fst a) (fst b) = true) (sort l).
Proof.
  induction l as [| x t IH]; intros H; simpl.
  - constructor.
  - apply Forall_cons_iff in H. destruct H as [Hx Ht].
    apply sort_insert_sorted; auto.
    apply Forall_forall. intros p Hp.
    apply (Permutation_in _ (sort_perm t)) in Hp.
    rewrite Forall_forall in Ht. auto.
Qed.

Lemma sorted_last_is_largest (l : list (dbl * dbl)) (d : dbl * dbl) :
  Forall (fun p => ISNAN (fst p) = false) l ->
  StronglySorted (fun a b => dle (fst a) (fst b) = true) l ->
  forall p, In p l -> dle (fst p) (fst (last l d)) = true.
Proof.
  intros Hn Hs. induction Hs as [| y t Hs IH Hy]; intros p Hp; [destruct Hp |].
  apply Forall_cons_iff in Hn. destruct Hn as [Hny Hnt].
  destruct t as [| z t'].
  - destruct Hp as [<- | []]. simpl. now apply dle_refl.
  - change (last (y :: z :: t') d) with (last (z :: t') d).
    destruct Hp as [<- | Hp]; [| now apply IH].
    rewrite Forall_forall in Hy. apply dle_trans with (y := fst z).
    + apply Hy. now left.
    + apply IH; [assumption | now left].
Qed.

Lemma last_In {A : Type} (l : list A) (d : A) : l <> [] -> In (last l d) l.
Proof.
  induction l as [| x t IH]; [congruence | intros _].
  destruct t as [| y t']; [now left |].
  right. apply IH. discriminate.
Qed.

(** The walk stops nowhere when no cumulative weight reaches the target. *)
Lemma quantile_walk_none (l : list (dbl * dbl)) (target : dbl) :
  forall cumulative,
    (forall n, (1 <= n <= length l)%nat ->
               dge (fold_left dadd (map snd (firstn n l)) cumulative) target = false) ->
    quantile_walk l target cumulative = None.
Proof.
  induction l as [| val t IH]; intros cum H; simpl; [reflexivity |].
  pose proof (H 1%nat ltac:(simpl; lia)) as H1.
  cbn [firstn map fold_left snd] in H1. rewrite H1.
  apply IH. intros n Hn. apply (H (S n)). simpl. lia.
Qed.

(** The fields of the trace that the quantile is read from. *)
Lemma cell_trace_reference (d1 d2 v : matrix) (s2 : dbl) (c : nat) :
  get_nrow d1 = get_nrow d2 ->
  let t := cell_trace_of d1 d2 v s2 c in
  (exists weight,
      sorted1 t = sort (map (fun o => (projection1 d1 t o, weight o))
                            (seq 0 (get_ncol d1)))) /\
  ref_quan t =
  match quantile_walk (sorted1 t) (dmul (prob2 t) (totalprob1 t)) zero with
  | Some q => q
  | None => if (get_ncol d1 =? 0)%nat then NA else fst (last (sorted1 t) (NA, NA))
  end.
Proof.
  intros Hg. unfold cell_trace_of, projection1, adjust_cell.
  set (grad0 := get_row v c).
  set (l2 := dsqrt (fold_left (fun acc g => dadd acc (dmul g g)) grad0 zero)).
  set (grad := map (fun g => ddiv g l2) grad0).
  set (curcell := get_col d2 c).
  set (cp := inner_product grad curcell zero).
  assert (Hcur2 : length curcell = get_nrow d2) by apply get_col_length.
  assert (Hcur1 : length curcell = get_nrow d1) by lia.
  assert (Hfw : length (working (fresh_buffers d1)) = get_nrow d1) by apply repeat_length.
  assert (Hfd : length (distance1 (fresh_buffers d1)) = get_ncol d1) by apply repeat_length.
  destruct (same_loop_working d2 s2 grad curcell cp c (seq 0 (get_ncol d2)) Hcur2
              zero zero (working (fresh_buffers d1)) (working (fresh_buffers d1)))
    as [_ Hlen]; [lia | lia |].
  rewrite Hfw in Hlen.
  destruct (fold_left (same_step d2 s2 grad curcell cp c) (seq 0 (get_ncol d2))
                      (zero, zero, working (fresh_buffers d1))) as [[p t] w].
  cbn [snd] in Hlen.
  pose proof (other_loop_distance1 d1 s2 grad curcell zero
                (Buffers w (distance1 (fresh_buffers d1))) Hcur1) as H2.
  cbn [working distance1] in H2. specialize (H2 ltac:(lia) Hfd).
  destruct (fold_left (other_step d1 s2 grad curcell) (seq 0 (get_ncol d1))
                      (zero, Buffers w (distance1 (fresh_buffers d1)))) as [tp b1].
  cbn [fst snd sorted1 ref_quan prob2 totalprob1 unit_grad] in *.
  split; [| reflexivity].
  eexists. rewrite H2. reflexivity.
Qed.

(** C6.  In the round of a cell of [adjust_shift_variance]: without reference
    cells the matched quantile is the missing value, a NaN; with reference
    cells, and no cumulative weight of the sorted reference cells reaching the
    target [prob2 * totalprob1], it is the projection of a reference cell,
    the last of the sorted ones, which no other projection exceeds (as long
    as no projection is a NaN, which has no place in an order). *)
Theorem reference_quantile_defaults :
  forall (data1 data2 vect : matrix) (s2 : dbl) (c : nat),
    get_nrow data1 = get_nrow data2 ->
    let t := cell_trace_of data1 data2 vect s2 c in
    (get_ncol data1 = 0%nat -> ref_quan t = NA /\ ISNAN (ref_quan t) = true) /\
    (get_ncol data1 <> 0%nat ->
     (forall n, (1 <= n <= get_ncol data1)%nat ->
        dge (fold_left dadd (map snd (firstn n (sorted1 t))) zero)
            (dmul (prob2 t) (totalprob1 t)) = false) ->
     ref_quan t = fst (last (sorted1 t) (NA, NA)) /\
     (exists o, (o < get_ncol data1)%nat /\ ref_quan t = projection1 data1 t o) /\
     ((forall o, (o < get_ncol data1)%nat -> ISNAN (projection1 data1 t o) = false) ->
      forall o, (o < get_ncol data1)%nat -> dle (projection1 data1 t o) (ref_quan t) = true)).
Proof.
  intros d1 d2 v s2 c Hg t.
  destruct (cell_trace_reference d1 d2 v s2 c Hg) as [[weight Hsorted] Hrq].
  fold t in Hsorted, Hrq.
  set (pairs := map (fun o => (projection1 d1 t o, weight o)) (seq 0 (get_ncol d1))) in *.
  assert (Hlen : length (sorted1 t) = get_ncol d1).
  { rewrite Hsorted, sort_length. unfold pairs. now rewrite length_map, length_seq. }
  split.
  - intros Hz. rewrite Hrq.
    assert (E : sorted1 t = []) by (apply length_zero_iff_nil; lia).
    rewrite E, Hz. simpl. auto.
  - intros Hnz Hwalk.
    assert (Hq : ref_quan t = fst (last (sorted1 t) (NA, NA))).
    { rewrite Hrq. rewrite quantile_walk_none by (now rewrite Hlen).
      destruct (Nat.eqb_spec (get_ncol d1) 0); [contradiction | reflexivity]. }
    assert (Hin : In (last (sorted1 t) (NA, NA)) pairs).
    { apply (Permutation_in _ (sort_perm pairs)). rewrite <- Hsorted.
      apply last_In. intros E. rewrite E in Hlen. simpl in Hlen. lia. }
    split; [exact Hq |]. split.
    + unfold pairs in Hin. apply in_map_iff in Hin. destruct Hin as [o [Eo Ho]].
      apply in_seq in Ho. exists o. split; [lia |]. rewrite Hq, <- Eo. reflexivity.
    + intros Hnan o Ho. rewrite Hq, Hsorted.
      assert (Hall : Forall (fun p => ISNAN (fst p) = false) pairs).
      { apply Forall_forall. intros p Hp. unfold pairs in Hp.
        apply in_map_iff in Hp. destruct Hp as [o' [<- Ho']]. apply in_seq in Ho'.
        simpl. apply Hnan. lia. }
      change (projection1 d1 t o) with (fst (projection1 d1 t o, weight o)).
      apply sorted_last_is_largest.
      * apply Forall_forall. intros p Hp.
        apply (Permutation_in _ (sort_perm pairs)) in Hp.
        rewrite Forall_forall in Hall. auto.
      * now apply sort_sorted.
      * apply (Permutation_in _ (Permutation_sym (sort_perm pairs))).
        unfold pairs. apply in_map_iff. exists o. split; [reflexivity |].
        apply in_seq. lia.
Qed.

Lemma cell_trace_unit_grad (d1 d2 v : matrix) (s2 : dbl) (c : nat) :
  let t := cell_trace_of d1 d2 v s2 c in
  unit_grad t = map (fun g => ddiv g (l2norm t)) (get_row v c).
Proof.
  unfold cell_trace_of, adjust_cell.
  destruct (fold_left (same_step _ _ _ _ _ _) _ _) as [[p t] w].
  destruct (fold_left (other_step _ _ _ _) _ _) as [tp b1].
  reflexivity.
Qed.

Lemma cell_trace_curproj (d1 d2 v : matrix) (s2 : dbl) (c : nat) :
  let t := cell_trace_of d1 d2 v s2 c in
  curproj t = inner_product (unit_grad t) (get_col d2 c) zero.
Proof.
  unfold cell_trace_of, adjust_cell.
  destruct (fold_left (same_step _ _ _ _ _ _) _ _) as [[p t] w].
  destruct (fold_left (other_step _ _ _ _) _ _) as [tp b1].
  reflexivity.
Qed.

(** The weights of the reference cells are [exp(-dist / s2)]. *)
Lemma cell_trace_weights (d1 d2 v : matrix) (s2 : dbl) (c : nat) :
  get_nrow d1 = get_nrow d2 ->
  Forall (fun p => exists dist, snd p = dexp (ddiv (dneg dist) s2))
         (sorted1 (cell_trace_of d1 d2 v s2 c)).
Proof.
  intros Hg. unfold cell_trace_of, adjust_cell.
  set (grad0 := get_row v c).
  set (l2 := dsqrt (fold_left (fun acc g => dadd acc (dmul g g)) grad0 zero)).
  set (grad := map (fun g => ddiv g l2) grad0).
  set (curcell := get_col d2 c).
  set (cp := inner_product grad curcell zero).
  assert (Hcur2 : length curcell = get_nrow d2) by apply get_col_length.
  assert (Hcur1 : length curcell = get_nrow d1) by lia.
  assert (Hfw : length (working (fresh_buffers d1)) = get_nrow d1) by apply repeat_length.
  assert (Hfd : length (distance1 (fresh_buffers d1)) = get_ncol d1) by apply repeat_length.
  destruct (same_loop_working d2 s2 grad curcell cp c (seq 0 (get_ncol d2)) Hcur2
              zero zero (working (fresh_buffers d1)) (working (fresh_buffers d1)))
    as [_ Hlen]; [lia | lia |].
  rewrite Hfw in Hlen.
  destruct (fold_left (same_step d2 s2 grad curcell cp c) (seq 0 (get_ncol d2))
                      (zero, zero, working (fresh_buffers d1))) as [[p t] w].
  cbn [snd] in Hlen.
  pose proof (other_loop_distance1 d1 s2 grad curcell zero
                (Buffers w (distance1 (fresh_buffers d1))) Hcur1) as H2.
  cbn [working distance1] in H2. specialize (H2 ltac:(lia) Hfd).
  destruct (fold_left (other_step d1 s2 grad curcell) (seq 0 (get_ncol d1))
                      (zero, Buffers w (distance1 (fresh_buffers d1)))) as [tp b1].
  cbn [fst snd sorted1] in *.
  apply Forall_forall. intros q Hq.
  apply (Permutation_in _ (sort_perm _)) in Hq. rewrite H2 in Hq.
  apply in_map_iff in Hq. destruct Hq as [o [<- _]]. simpl. eauto.
Qed.

Lemma firstn_incl {A : Type} (n : nat) (l : list A) (x : A) :
  In x (firstn n l) -> In x l.
Proof.
  intros H. rewrite <- (firstn_skipn n l). apply in_or_app. now left.
Qed.

Lemma dadd_nan_right (x y : dbl) : ISNAN y = true -> ISNAN (dadd x y) = true.
Proof. destruct x, y; simpl; congruence. Qed.

Lemma dadd_nan_left (x y : dbl) : ISNAN x = true -> ISNAN (dadd x y) = true.
Proof. destruct x, y; simpl; congruence. Qed.

Lemma ddiv_nan_right (x y : dbl) : ISNAN y = true -> ISNAN (ddiv x y) = true.
Proof. destruct x, y; simpl; congruence. Qed.

Lemma dexp_nan (x : dbl) : ISNAN x = true -> ISNAN (dexp x) = true.
Proof. destruct x; simpl; congruence. Qed.

Lemma dge_nan_left (x y : dbl) : ISNAN x = true -> dge x y = false.
Proof. unfold dge. destruct x, y; simpl; congruence. Qed.

Lemma sum_of_nans (l : list dbl) :
  Forall (fun w => ISNAN w = true) l ->
  forall acc, (l <> [] \/ ISNAN acc = true) -> ISNAN (fold_left dadd l acc) = true.
Proof.
  induction 1 as [| w t Hw Ht IH]; intros acc Hacc; simpl.
  - destruct Hacc; [congruence | assumption].
  - apply IH. right. now apply dadd_nan_right.
Qed.

(** With a bandwidth that is a NaN every weight is a NaN, and no cumulative
    weight compares with the target. *)
Lemma nan_bandwidth_never_reaches (d1 d2 v : matrix) (s2 : dbl) (c : nat) :
  get_nrow d1 = get_nrow d2 -> ISNAN s2 = true ->
  forall n target, (1 <= n <= length (sorted1 (cell_trace_of d1 d2 v s2 c)))%nat ->
    dge (fold_left dadd (map snd (firstn n (sorted1 (cell_trace_of d1 d2 v s2 c)))) zero)
        target = false.
Proof.
  intros Hg Hs n target Hn. apply dge_nan_left. apply sum_of_nans.
  - apply Forall_forall. intros w Hw. apply in_map_iff in Hw.
    destruct Hw as [p [<- Hp]]. apply firstn_incl in Hp.
    pose proof (cell_trace_weights d1 d2 v s2 c Hg) as Hall.
    rewrite Forall_forall in Hall. destruct (Hall p Hp) as [dist ->].
    apply dexp_nan. now apply ddiv_nan_right.
  - left. intros E. apply (f_equal (@length dbl)) in E.
    rewrite length_map, length_firstn in E. simpl in E. lia.
Qed.

(** The first cell of the example: gradient 2, of norm 2. *)
Lemma example_l2norm (s2 : dbl) :
  l2norm (cell_trace_of Examples.ref3 Examples.query2 Examples.grad2 s2 0) = Fin 2.
Proof. rewrite cell_trace_l2norm. run. sqrt_values. reflexivity. Qed.

Lemma example_projection1 (s2 : dbl) (o : nat) :
  (o < 3)%nat ->
  projection1 Examples.ref3
    (cell_trace_of Examples.ref3 Examples.query2 Examples.grad2 s2 0) o = Fin (INR (S o)).
Proof.
  intros Ho. unfold projection1. rewrite cell_trace_unit_grad, example_l2norm.
  destruct o as [| [| [| o]]]; [| | | lia]; run; f_equal; field.
Qed.

(** With a bandwidth that is a NaN no cumulative weight compares with the
    target, and the quantile is the largest of the projections 1, 2, 3 of the
    reference cells. *)
Lemma reference_quantile_defaults_witness :
  get_nrow Examples.ref3 = get_nrow Examples.query2 /\
  get_ncol Examples.ref3 <> 0%nat /\
  ref_quan (cell_trace_of Examples.ref3 Examples.query2 Examples.grad2 NaN 0) = Fin 3.
Proof.
  set (t := cell_trace_of Examples.ref3 Examples.query2 Examples.grad2 NaN 0).
  assert (Hnz : get_ncol Examples.ref3 <> 0%nat) by (simpl; lia).
  destruct (reference_quantile_defaults Examples.ref3 Examples.query2 Examples.grad2
              NaN 0%nat eq_refl) as [_ Hdef].
  fold t in Hdef.
  destruct (Hdef Hnz) as [_ [[o [Ho Hq]] Hmax]].
  { intros n Hn. apply nan_bandwidth_never_reaches; [reflexivity | reflexivity |].
    destruct (cell_trace_reference Examples.ref3 Examples.query2 Examples.grad2 NaN 0 eq_refl)
      as [[weight Hs] _].
    rewrite Hs, sort_length, length_map, length_seq. exact Hn. }
  split; [reflexivity |]. split; [exact Hnz |].
  assert (Hle : dle (Fin 3) (ref_quan t) = true).
  { replace (Fin 3) with (projection1 Examples.ref3 t 2).
    - apply Hmax; [| simpl; lia].
      intros o' Ho'. unfold t. now rewrite example_projection1.
    - unfold t. rewrite example_projection1 by lia. f_equal. simpl. lra. }
  rewrite Hq in *. unfold t in *. rewrite example_projection1 in * by exact Ho.
  simpl in Ho. apply rle_iff in Hle. f_equal.
  destruct o as [| [| [| o]]]; [| | | lia]; simpl in *; lra.
Defined.

Lemma zero_norm_gradient_witness :
  get_nrow Examples.ref3 = get_nrow Examples.query2 /\
  check_numeric_scalar (Fin 1) = Ok (Fin 1) /\
  l2norm (cell_trace_of Examples.ref3 Examples.query2 Examples.grad2 (Fin 1) 1) = zero /\
  exists out,
    adjust_shift_variance check_numeric_scalar
      Examples.ref3 Examples.query2 Examples.grad2 (Fin 1) = Ok out /\
    length out = 2%nat /\
    exists x, nth_error out 1 = Some x /\ is_finite x = false.
Proof.
  assert (Hn : l2norm (cell_trace_of Examples.ref3 Examples.query2 Examples.grad2 (Fin 1) 1)
               = zero).
  { rewrite cell_trace_l2norm. run. sqrt_values. reflexivity. }
  split; [reflexivity |]. split; [exact check_numeric_scalar_one |]. split; [exact Hn |].
  destruct (zero_norm_gradient_gives_non_finite_scaling check_numeric_scalar
              Examples.ref3 Examples.query2 Examples.grad2 (Fin 1) (Fin 1) 1%nat
              eq_refl eq_refl eq_refl check_numeric_scalar_one ltac:(simpl; lia) Hn)
    as [out [Hout [Hlen [Hx _]]]].
  exists out. auto.
Defined.

(* ================================================================= *)
(** ** Scaling a gradient *)







(* ================================================================= *)
(** ** A single anchor *)

Lemma zip_with_repeat_l {A B C : Type} (f : A -> B -> C) (x : A) (l : list B) :
  zip_with f (repeat x (length l)) l = map (f x) l.
Proof.
  unfold zip_with. induction l as [| b t IH]; simpl; [reflexivity |].
  now rewrite IH.
Qed.

Lemma zip_with_map_same {A B C D : Type} (g : B -> C -> D) (f1 : A -> B) (f2 : A -> C)
    (l : list A) :
  zip_with g (map f1 l) (map f2 l) = map (fun x => g (f1 x) (f2 x)) l.
Proof.
  unfold zip_with. induction l as [| a t IH]; simpl; [reflexivity |].
  now rewrite IH.
Qed.

(** One round of the smoothing loop on the fresh output, then the division. *)
Lemma single_pass_output (distances2 : list dbl) (density : dbl) (correction : list dbl) :
  let acc := Kernel.accumulate distances2 density correction
               (Kernel.initial_output (length correction) (length distances2)) in
  Kernel.divide_by_total (fst acc) (snd acc) =
  map (fun d =>
         let mult := dexp (dsub d density) in
         map (fun corval => ddiv (dadd zero (dmul corval mult)) (dadd zero mult)) correction)
      distances2.
Proof.
  unfold Kernel.accumulate, Kernel.initial_output, Kernel.divide_by_total. cbn [fst snd].
  set (mults := map (fun d => dexp (dsub d density)) distances2).
  assert (Hm : length mults = length distances2) by (unfold mults; apply length_map).
  rewrite <- Hm, !zip_with_repeat_l. rewrite zip_with_map_same.
  unfold mults. rewrite map_map. apply map_ext. intros d. cbv zeta.
  rewrite zip_with_repeat_l. now rewrite map_map.
Qed.

Lemma sq_dist_finite (a b : list dbl) :
  Forall (fun x => is_finite x = true) a -> Forall (fun x => is_finite x = true) b ->
  is_finite (Kernel.sq_dist a b) = true.
Proof.
  intros Ha Hb. unfold Kernel.sq_dist.
  assert (Hz : is_finite zero = true) by reflexivity. revert Hz. generalize zero as acc.
  revert b Hb. induction Ha as [| x a Hx Ha IH]; intros b Hb acc Hacc; simpl; [assumption |].
  destruct Hb as [| y b Hy Hb]; simpl; [assumption |].
  apply IH; [assumption |].
  destruct acc, x, y; simpl in *; congruence.
Qed.

Lemma sorted_singleton (l : list Z) (a : Z) :
  StronglySorted Z.lt l -> (forall id, In id l <-> id = a) -> l = [a].
Proof.
  intros Hs Hmem. apply sorted_NoDup in Hs.
  destruct l as [| x t].
  - exfalso. apply (proj2 (Hmem a) eq_refl).
  - assert (x = a) by (apply Hmem; now left). subst x.
    destruct t as [| y t']; [reflexivity |].
    assert (y = a) by (apply Hmem; right; now left). subst y.
    apply NoDup_cons_iff in Hs. exfalso. apply (proj1 Hs). now left.
Qed.

Lemma arithmetic_mean_length (vect : matrix) (index : list Z) (a : Z) :
  In a index -> length (arithmetic_mean (rows_of vect index a)) = get_ncol vect.
Proof.
  intros Ha. unfold arithmetic_mean. rewrite length_map.
  apply vsum_length; [apply rows_with_length_row |].
  unfold rows_of. rewrite rows_with_nil. rewrite map_snd_combine_seq. tauto.
Qed.

(** With one anchor the density is its own logged probability, in both
    files. *)
Lemma single_anchor_density_deque (distances2 : list dbl) (a : Z) :
  in_range (length distances2) a ->
  MnnCorrection.mnn_density distances2 [a] = Ok (nth (Z.to_nat a) distances2 NaN).
Proof.
  intros Ha. unfold MnnCorrection.mnn_density. cbn [foldM].
  unfold MnnCorrection.density_step.
  rewrite (at_index_ok distances2 a NaN Ha). reflexivity.
Qed.

Lemma single_anchor_density_vector (distances2 : list dbl) (a : Z) :
  in_range (length distances2) a ->
  SmoothGaussianKernel.mnn_density distances2 [a] = Ok (nth (Z.to_nat a) distances2 NaN).
Proof.
  intros Ha. unfold SmoothGaussianKernel.mnn_density. cbn [foldM].
  unfold SmoothGaussianKernel.density_step.
  rewrite (at_index_ok distances2 a NaN Ha). reflexivity.
Qed.

(** A correction weighted by 1, over 1, is the correction; weighted by 0,
    over 0, it is a NaN. *)
Lemma weighted_by_one (corval : dbl) :
  ddiv (dadd zero (dmul corval one)) (dadd zero one) = corval.
Proof. destruct corval as [x | | | |]; unfold zero, one; dbl_arith. Qed.

Lemma weighted_by_zero (corval : dbl) :
  ISNAN (ddiv (dadd zero (dmul corval zero)) (dadd zero zero)) = true.
Proof. destruct corval as [x | | | |]; unfold zero; dbl_arith. Qed.

(** The squared distance of a finite column to itself, logged, and its
    weight with itself as the only anchor. *)
Lemma own_weight_is_one (col : list dbl) (s : R) :
  Forall (fun x => is_finite x = true) col -> s <> 0 ->
  let logp := ddiv (Kernel.sq_dist col col) (dneg (Fin s)) in
  dexp (dsub logp logp) = one.
Proof.
  intros Hcol Hs.
  pose proof (sq_dist_finite col col Hcol Hcol) as Hf.
  destruct (Kernel.sq_dist col col) as [d | | | |]; simpl in Hf; try discriminate.
  cbv zeta. simpl. rewrite req_false by lra. simpl. unfold one. f_equal.
  rewrite <- exp_0. f_equal. lra.
Qed.

(** With one anchor whose only other cell lies infinitely far, the column of
    that cell is not the mean vector (5) of the anchor but a NaN. *)
Lemma single_anchor_far_cell :
  average_map (AvgState [[Fin 5]; []] [1; 0]%Z [0%Z]) 0%Z = Some ([Fin 5], 1%Z) /\
  SmoothGaussianKernel.build_averages Examples.vect1 Examples.index1 2 =
    Ok (AvgState [[Fin 5]; []] [1; 0]%Z [0%Z]) /\
  SmoothGaussianKernel.smooth_gaussian_kernel check_numeric_scalar
    Examples.vect1 Examples.index1 Examples.data_far (Fin 1) = Ok [[Fin 5]; [NaN]] /\
  MnnCorrection.smooth_gaussian_kernel check_numeric_scalar
    Examples.vect1 Examples.index1 Examples.data_far (Fin 1) = Ok [[Fin 5]; [NaN]].
Proof.
  repeat split; run; exp_zero; rdecide; repeat f_equal; try lra; field.
Qed.

(** C8, amended.  When the anchor index names a single cell [a], both files
    return the same matrix, and column [o] of it is, entry by entry,
    [(0 + mean * w) / (0 + w)]: [mean] the mean correction vector of the
    anchor and [w = exp(d o - d a)] the weight of cell [o], [d o] being the
    squared distance of cell [o] to the anchor divided by [-s2].  The column
    is the mean vector where the weight is 1, as it is in the column of the
    anchor itself when the cell of the anchor is finite and the bandwidth is
    finite and not zero; it is NaN throughout where the weight is 0. *)
Theorem single_anchor_columns_are_weighted_means :
  forall (check : dbl -> result dbl) (vect : matrix) (index : list Z) (data : matrix)
         (sigma s2 : dbl) (a : Z),
    get_nrow vect = length index ->
    index <> [] ->
    (forall i, In i index -> i = a) ->
    in_range (get_ncol data) a ->
    check sigma = Ok s2 ->
    let mean := mean_of_rows (get_ncol vect) (rows_of vect index a) in
    let logp := fun o =>
      ddiv (Kernel.sq_dist (get_col data (Z.to_nat a)) (get_col data o)) (dneg s2) in
    let weight := fun o => dexp (dsub (logp o) (logp (Z.to_nat a))) in
    exists out,
      SmoothGaussianKernel.smooth_gaussian_kernel check vect index data sigma = Ok out /\
      MnnCorrection.smooth_gaussian_kernel check vect index data sigma = Ok out /\
      length out = get_ncol data /\
      (forall o, (o < get_ncol data)%nat ->
         nth_error out o =
         Some (map (fun corval => ddiv (dadd zero (dmul corval (weight o)))
                                       (dadd zero (weight o))) mean)) /\
      (forall o, (o < get_ncol data)%nat -> weight o = one -> nth_error out o = Some mean) /\
      (forall o, (o < get_ncol data)%nat -> weight o = zero ->
         exists col, nth_error out o = Some col /\ length col = get_ncol vect /\
                     Forall (fun x => ISNAN x = true) col) /\
      (forall s, s2 = Fin s -> s <> 0 ->
         Forall (fun x => is_finite x = true) (get_col data (Z.to_nat a)) ->
         nth_error out (Z.to_nat a) = Some mean).
Proof.
  intros check vect index data sigma s2 a Hlen Hne Hall Ha Hcheck mean logp weight.
  assert (Hin : In a index).
  { destruct index as [| i rest]; [congruence |].
    rewrite <- (Hall i (or_introl eq_refl)). now left. }
  assert (Hmem : forall id, In id index <-> id = a).
  { intros id. split; [apply Hall | now intros ->]. }
  assert (Hrange : Forall (in_range (get_ncol data)) index).
  { apply Forall_forall. intros i Hi. now rewrite (Hall i Hi). }
  assert (Hmlen : length mean = get_ncol vect).
  { unfold mean, mean_of_rows. now rewrite length_map, length_seq. }
  set (distances2 :=
         SmoothGaussianKernel.log_probabilities data s2 (get_col data (Z.to_nat a))).
  assert (Hdlen : length distances2 = get_ncol data)
    by apply vector_log_probabilities_length.
  assert (Hda : in_range (length distances2) a) by (now rewrite Hdlen).
  assert (Hnth : forall o, (o < get_ncol data)%nat -> nth_error distances2 o = Some (logp o)).
  { intros o Ho. unfold distances2, SmoothGaussianKernel.log_probabilities.
    rewrite nth_error_map, nth_error_nth' with (d := 0%nat) by (rewrite length_seq; lia).
    now rewrite seq_nth by lia. }
  assert (Hdens : nth (Z.to_nat a) distances2 NaN = logp (Z.to_nat a)).
  { apply nth_error_nth. apply Hnth. unfold in_range in Ha. lia. }
  set (out := map (fun d =>
                     let mult := dexp (dsub d (logp (Z.to_nat a))) in
                     map (fun corval => ddiv (dadd zero (dmul corval mult)) (dadd zero mult))
                         mean) distances2).
  assert (Hcol : forall o, (o < get_ncol data)%nat ->
            nth_error out o =
            Some (map (fun corval => ddiv (dadd zero (dmul corval (weight o)))
                                          (dadd zero (weight o))) mean)).
  { intros o Ho. unfold out. rewrite nth_error_map, (Hnth o Ho). reflexivity. }
  assert (Hone : forall o, (o < get_ncol data)%nat -> weight o = one ->
            nth_error out o = Some mean).
  { intros o Ho Hw. rewrite (Hcol o Ho), Hw. f_equal.
    rewrite <- (map_id mean) at 2. apply map_ext. intros c. apply weighted_by_one. }
  apply Nat.eqb_eq in Hlen.
  exists out.
  split; [| split; [| split; [| split; [exact Hcol | split; [exact Hone | split]]]]].
  - destruct (vector_build_averages_spec vect index (get_ncol data) Hrange)
      as [st [Hb [Hsort [Hm [_ Hmean]]]]].
    assert (Hcells : mnncell st = [a]).
    { apply sorted_singleton; [assumption |]. intros id. now rewrite Hm. }
    destruct (Hmean a Hin) as [Hv _].
    rewrite (anchor_mean_entries vect index a Hin) in Hv. fold mean in Hv.
    unfold SmoothGaussianKernel.smooth_gaussian_kernel.
    rewrite Hlen. cbn [negb]. rewrite Hcheck. cbn [bind]. rewrite Hb. cbn [bind].
    unfold SmoothGaussianKernel.smooth_sums, SmoothGaussianKernel.smooth_pass.
    rewrite Hcells. cbn [foldM].
    rewrite get_const_col_ok by exact Ha. cbn [bind]. fold distances2.
    rewrite (single_anchor_density_vector distances2 a Hda). cbn [bind].
    rewrite Hv, Hdens. rewrite <- Hmlen, <- Hdlen.
    f_equal. apply single_pass_output.
  - destruct (deque_build_averages_spec vect index) as [st [Hb [Hsort [Hm Hmean]]]].
    { eapply Forall_impl; [| exact Hrange]. unfold in_range. intros; lia. }
    assert (Hcells : mnncell st = [a]).
    { apply sorted_singleton; [assumption |]. intros id. now rewrite Hm. }
    destruct (Hmean a Hin) as [Hv _].
    rewrite (anchor_mean_entries vect index a Hin) in Hv. fold mean in Hv.
    unfold MnnCorrection.smooth_gaussian_kernel.
    rewrite Hlen. cbn [negb]. rewrite Hb. cbn [bind]. rewrite Hcheck. cbn [bind].
    unfold MnnCorrection.smooth_sums, MnnCorrection.smooth_pass.
    rewrite Hcells. cbn [foldM].
    rewrite get_const_col_ok by exact Ha. cbn [bind].
    rewrite log_probabilities_agree. fold distances2.
    rewrite (single_anchor_density_deque distances2 a Hda). cbn [bind].
    rewrite Hv, Hdens. rewrite <- Hmlen, <- Hdlen.
    f_equal. apply single_pass_output.
  - unfold out. now rewrite length_map.
  - intros o Ho Hw. eexists. split; [apply (Hcol o Ho) |].
    split; [now rewrite length_map |].
    apply Forall_forall. intros x Hx. apply in_map_iff in Hx.
    destruct Hx as [c [<- _]]. rewrite Hw. apply weighted_by_zero.
  - intros s -> Hs Hfin. apply Hone; [unfold in_range in Ha; lia |].
    unfold weight, logp. apply own_weight_is_one; assumption.
Qed.

(** The mean vector of the single anchor of the example is (5). *)
Lemma example_single_mean :
  mean_of_rows 1 (rows_of Examples.vect1 Examples.index1 0%Z) = [Fin 5].
Proof. run. repeat f_equal. field. Qed.

Lemma single_anchor_columns_witness :
  get_nrow Examples.vect1 = length Examples.index1 /\
  in_range (get_ncol Examples.data2) 0%Z /\
  check_numeric_scalar (Fin 1) = Ok (Fin 1) /\
  Forall (fun x => is_finite x = true) (get_col Examples.data2 0) /\
  exists out,
    SmoothGaussianKernel.smooth_gaussian_kernel check_numeric_scalar
      Examples.vect1 Examples.index1 Examples.data2 (Fin 1) = Ok out /\
    MnnCorrection.smooth_gaussian_kernel check_numeric_scalar
      Examples.vect1 Examples.index1 Examples.data2 (Fin 1) = Ok out /\
    length out = 2%nat /\
    nth_error out 0 = Some [Fin 5].
Proof.
  assert (Hr : in_range (get_ncol Examples.data2) 0%Z) by (unfold in_range; simpl; lia).
  assert (Hf : Forall (fun x => is_finite x = true) (get_col Examples.data2 0)).
  { repeat constructor. }
  assert (Hall : forall i, In i Examples.index1 -> i = 0%Z).
  { intros i [<- | []]. reflexivity. }
  assert (Hs : 1 <> 0) by lra.
  split; [reflexivity |]. split; [exact Hr |].
  split; [exact check_numeric_scalar_one |]. split; [exact Hf |].
  destruct (single_anchor_columns_are_weighted_means check_numeric_scalar Examples.vect1
              Examples.index1 Examples.data2 (Fin 1) (Fin 1) 0%Z eq_refl
              ltac:(discriminate) Hall Hr check_numeric_scalar_one)
    as [out [Hv [Hd [Hl [_ [_ [_ Hown]]]]]]].
  exists out. split; [exact Hv |]. split; [exact Hd |]. split; [exact Hl |].
  rewrite <- example_single_mean. exact (Hown 1 eq_refl Hs Hf).
Defined.

(* ================================================================= *)
(** ** The two files compute the same smoothing *)

(** *** The density, away from the missing value *)

Lemma dlog1p_dexp_finite (z : R) : dlog1p (dexp (Fin z)) = Fin (ln (1 + exp z)).
Proof.
  simpl. pose proof (exp_pos z).
  now rewrite rlt_false, req_false by lra.
Qed.

(** One round of the density loop of mnn_correction.cpp after the first, and
    of smooth_gaussian_kernel.cpp. *)
Lemma density_rounds_agree (to_add density : dbl) :
  ISNA to_add = false -> ISNA density = false ->
  dadd (std_max to_add density) (log1pexp (dneg (dabs (dsub to_add density)))) =
  logspace_add density to_add.
Proof.
  intros Ha Hd. unfold logspace_add, log1pexp, std_max, fmax2, dsub.
  destruct to_add as [x | | | |], density as [y | | | |];
    cbn [ISNA ISNAN orb dneg dadd dabs dlt dle] in *; try congruence;
    try (rewrite rle_true by lra; reflexivity); try (simpl; reflexivity).
  assert (Habs : Rabs (x + - y) = Rabs (y + - x)).
  { replace (y + - x) with (- (x + - y)) by ring. now rewrite Rabs_Ropp. }
  pose proof (Rabs_pos (y + - x)) as Hpos.
  rewrite Habs. rewrite (rle_true (- Rabs (y + - x)) 18) by lra.
  rewrite dlog1p_dexp_finite.
  unfold rlt. destruct (Rlt_dec x y), (Rlt_dec y x); cbn [dadd]; try reflexivity; try lra.
  f_equal. lra.
Qed.

(** No operation makes a missing value out of operands that are not. *)
Lemma dneg_not_na (x : dbl) : ISNA x = false -> ISNA (dneg x) = false.
Proof. now destruct x. Qed.

Lemma dabs_not_na (x : dbl) : ISNA x = false -> ISNA (dabs x) = false.
Proof. now destruct x. Qed.

Lemma dexp_not_na (x : dbl) : ISNA x = false -> ISNA (dexp x) = false.
Proof. now destruct x. Qed.

Lemma dlog1p_not_na (x : dbl) : ISNA x = false -> ISNA (dlog1p x) = false.
Proof.
  destruct x; simpl; try congruence. intros _.
  destruct (rlt r (-1)); [reflexivity |]. now destruct (req r (-1)).
Qed.

Lemma dadd_not_na (x y : dbl) : ISNA x = false -> ISNA y = false -> ISNA (dadd x y) = false.
Proof. destruct x, y; simpl; congruence. Qed.

Lemma dsub_not_na (x y : dbl) : ISNA x = false -> ISNA y = false -> ISNA (dsub x y) = false.
Proof. intros Hx Hy. apply dadd_not_na; [assumption | now apply dneg_not_na]. Qed.

Lemma dmul_not_na (x y : dbl) : ISNA x = false -> ISNA y = false -> ISNA (dmul x y) = false.
Proof.
  destruct x, y; simpl; try congruence; intros _ _; unfold signed_inf;
    destruct (req r 0); try reflexivity; now destruct (rlt 0 r).
Qed.

Lemma ddiv_not_na (x y : dbl) : ISNA x = false -> ISNA y = false -> ISNA (ddiv x y) = false.
Proof.
  destruct x, y; simpl; try congruence; intros _ _; unfold signed_inf.
  - destruct (req r0 0); [| reflexivity]. destruct (req r 0); [reflexivity |].
    now destruct (rlt 0 r).
  - now destruct (rlt r 0).
  - now destruct (rlt r 0).
Qed.

Lemma logspace_add_not_na (x y : dbl) :
  ISNA x = false -> ISNA y = false -> ISNA (logspace_add x y) = false.
Proof.
  intros Hx Hy. unfold logspace_add. apply dadd_not_na.
  - unfold fmax2. destruct (ISNAN x || ISNAN y); [now apply dadd_not_na |].
    now destruct (dlt x y).
  - apply dlog1p_not_na, dexp_not_na, dneg_not_na, dabs_not_na. now apply dsub_not_na.
Qed.

Lemma sq_dist_not_na (a b : list dbl) :
  Forall (fun x => ISNA x = false) a -> Forall (fun x => ISNA x = false) b ->
  ISNA (Kernel.sq_dist a b) = false.
Proof.
  intros Ha Hb. unfold Kernel.sq_dist.
  assert (Hz : ISNA zero = false) by reflexivity. revert Hz. generalize zero as acc.
  revert b Hb. induction Ha as [| x a Hx Ha IH]; intros b Hb acc Hacc; simpl; [assumption |].
  destruct Hb as [| y b Hy Hb]; simpl; [assumption |].
  apply IH; [assumption |].
  apply dadd_not_na; [assumption |].
  apply dmul_not_na; now apply dsub_not_na.
Qed.

(** The density loops agree from the second round on ... *)
Lemma density_loops_agree_after_first (distances2 : list dbl) (cells : list Z) :
  (forall m x, In m cells -> at_index distances2 m = Ok x -> ISNA x = false) ->
  forall density,
    ISNA density = false ->
    foldM (MnnCorrection.density_step distances2) cells density =
    (r <- foldM (SmoothGaussianKernel.density_step distances2) cells (density, false) ;;
     Ok (fst r)).
Proof.
  induction cells as [| c rest IH]; intros Hna density Hd; cbn [foldM bind].
  - reflexivity.
  - unfold MnnCorrection.density_step at 1, SmoothGaussianKernel.density_step at 1.
    destruct (at_index distances2 c) as [x | e] eqn:E; cbn [bind snd fst]; [| reflexivity].
    rewrite Hd.
    assert (Hx : ISNA x = false) by (apply (Hna c x); [now left | assumption]).
    rewrite density_rounds_agree by assumption.
    apply IH.
    + intros m y Hm. apply Hna. now right.
    + now apply logspace_add_not_na.
Qed.

(** ... and so from the first, in a round of the smoothing loop (where there
    is an anchor at least). *)
Lemma densities_agree (distances2 : list dbl) (cells : list Z) :
  cells <> [] ->
  (forall m x, In m cells -> at_index distances2 m = Ok x -> ISNA x = false) ->
  MnnCorrection.mnn_density distances2 cells =
  SmoothGaussianKernel.mnn_density distances2 cells.
Proof.
  intros Hne Hna. destruct cells as [| c rest]; [congruence |].
  unfold MnnCorrection.mnn_density, SmoothGaussianKernel.mnn_density. cbn [foldM].
  unfold MnnCorrection.density_step at 1, SmoothGaussianKernel.density_step at 1.
  destruct (at_index distances2 c) as [x | e] eqn:E; cbn [bind snd fst ISNA]; [| reflexivity].
  apply density_loops_agree_after_first.
  - intros m y Hm. apply Hna. now right.
  - apply (Hna c x); [now left | assumption].
Qed.

(** *** Without a missing value at an anchor the rounds are the same *)

Lemma at_index_Ok_inv {A : Type} (l : list A) (i : Z) (x : A) :
  at_index l i = Ok x -> (0 <= i)%Z /\ nth_error l (Z.to_nat i) = Some x.
Proof.
  unfold at_index. destruct (Z.ltb_spec i 0); [discriminate |].
  destruct (nth_error l (Z.to_nat i)) as [y |]; [| discriminate].
  intros E. inversion E. auto.
Qed.

Lemma missing_at_anchor_false (data : matrix) (s2 : dbl) (cells : list Z) :
  missing_at_anchor data s2 cells = false ->
  ISNA s2 = false /\
  forall a r, In a cells -> (r < get_nrow data)%nat ->
              ISNA (cell data r (Z.to_nat a)) = false.
Proof.
  unfold missing_at_anchor. intros H. apply orb_false_iff in H. destruct H as [Hs He].
  split; [assumption |]. intros a r Ha Hr.
  destruct (ISNA (cell data r (Z.to_nat a))) eqn:E; [| reflexivity].
  assert (Hex : existsb (fun a => existsb (fun r => ISNA (cell data r (Z.to_nat a)))
                                          (seq 0 (get_nrow data))) cells = true).
  { apply existsb_exists. exists a. split; [assumption |].
    apply existsb_exists. exists r. split; [apply in_seq; lia | assumption]. }
  congruence.
Qed.

Lemma missing_at_anchor_true (data : matrix) (s2 : dbl) (cells : list Z) :
  missing_at_anchor data s2 cells = true ->
  ISNA s2 = true \/
  exists a r, In a cells /\ (r < get_nrow data)%nat /\
              ISNA (cell data r (Z.to_nat a)) = true.
Proof.
  unfold missing_at_anchor. intros H. apply orb_true_iff in H.
  destruct H as [Hs | He]; [now left | right].
  apply existsb_exists in He. destruct He as [a [Ha He]].
  apply existsb_exists in He. destruct He as [r [Hr He]]. apply in_seq in Hr.
  exists a, r. repeat split; try assumption; lia.
Qed.

Lemma get_col_not_na (data : matrix) (c : nat) :
  (forall r, (r < get_nrow data)%nat -> ISNA (cell data r c) = false) ->
  Forall (fun x => ISNA x = false) (get_col data c).
Proof.
  intros H. unfold get_col. apply Forall_forall. intros x Hx.
  apply in_map_iff in Hx. destruct Hx as [r [<- Hr]]. apply in_seq in Hr. apply H. lia.
Qed.

(** The logged probabilities of the anchors are not missing values. *)
Lemma anchor_probabilities_not_na (data : matrix) (s2 : dbl) (cells : list Z) (mnn : Z) :
  missing_at_anchor data s2 cells = false -> In mnn cells ->
  forall m x, In m cells ->
    at_index (SmoothGaussianKernel.log_probabilities data s2 (get_col data (Z.to_nat mnn))) m
      = Ok x ->
    ISNA x = false.
Proof.
  intros Hclean Hmnn m x Hm Hx.
  destruct (missing_at_anchor_false data s2 cells Hclean) as [Hs Hcells].
  apply at_index_Ok_inv in Hx. destruct Hx as [_ Hx].
  unfold SmoothGaussianKernel.log_probabilities in Hx.
  rewrite nth_error_map in Hx.
  destruct (nth_error (seq 0 (get_ncol data)) (Z.to_nat m)) as [o |] eqn:Eo;
    [| discriminate].
  apply nth_error_seq_Some in Eo. destruct Eo as [-> _]. simpl in Hx.
  inversion Hx; subst x.
  apply ddiv_not_na; [| now apply dneg_not_na].
  apply sq_dist_not_na; apply get_col_not_na; intros r Hr; now apply Hcells.
Qed.

Lemma smooth_passes_agree (data : matrix) (s2 : dbl) (stA stB : avg_state) (mnn : Z)
    (acc : list (list dbl) * list dbl) :
  mnncell stA = mnncell stB ->
  nth (Z.to_nat mnn) (averages stA) [] = nth (Z.to_nat mnn) (averages stB) [] ->
  missing_at_anchor data s2 (mnncell stB) = false ->
  In mnn (mnncell stB) ->
  MnnCorrection.smooth_pass data s2 stA mnn acc =
  SmoothGaussianKernel.smooth_pass data s2 stB mnn acc.
Proof.
  intros Hcells Hav Hclean Hin.
  unfold MnnCorrection.smooth_pass, SmoothGaussianKernel.smooth_pass.
  destruct (get_const_col data mnn) as [col | e] eqn:Ecol; cbn [bind]; [| reflexivity].
  assert (col = get_col data (Z.to_nat mnn)).
  { unfold get_const_col in Ecol. destruct (_ && _); congruence. }
  subst col. rewrite log_probabilities_agree, Hcells, Hav.
  rewrite densities_agree; [reflexivity | |].
  - intros E. rewrite E in Hin. destruct Hin.
  - now apply anchor_probabilities_not_na.
Qed.

Lemma smooth_sums_agree (data : matrix) (s2 : dbl) (stA stB : avg_state) (ngenes : nat) :
  mnncell stA = mnncell stB ->
  (forall mnn, In mnn (mnncell stB) ->
     nth (Z.to_nat mnn) (averages stA) [] = nth (Z.to_nat mnn) (averages stB) []) ->
  missing_at_anchor data s2 (mnncell stB) = false ->
  MnnCorrection.smooth_sums data s2 stA ngenes =
  SmoothGaussianKernel.smooth_sums data s2 stB ngenes.
Proof.
  intros Hcells Hav Hclean.
  unfold MnnCorrection.smooth_sums, SmoothGaussianKernel.smooth_sums.
  rewrite Hcells. apply foldM_ext. intros mnn Hin acc.
  apply smooth_passes_agree; auto.
Qed.

(** *** With a missing value at an anchor all of the output is NaN *)

Lemma ISNA_ISNAN (x : dbl) : ISNA x = true -> ISNAN x = true.
Proof. now destruct x. Qed.

Lemma dneg_nan (x : dbl) : ISNAN x = true -> ISNAN (dneg x) = true.
Proof. now destruct x. Qed.

Lemma dsub_nan_left (x y : dbl) : ISNAN x = true -> ISNAN (dsub x y) = true.
Proof. intros H. unfold dsub. now apply dadd_nan_left. Qed.

Lemma dmul_nan_left (x y : dbl) : ISNAN x = true -> ISNAN (dmul x y) = true.
Proof. destruct x, y; simpl; congruence. Qed.

Lemma dmul_nan_right (x y : dbl) : ISNAN y = true -> ISNAN (dmul x y) = true.
Proof. destruct x, y; simpl; congruence. Qed.

Lemma ddiv_nan_left (x y : dbl) : ISNAN x = true -> ISNAN (ddiv x y) = true.
Proof. destruct x, y; simpl; congruence. Qed.

(** A NaN in the column of the anchor makes the squared distance a NaN. *)
Lemma sq_dist_nan (a b : list dbl) (r : nat) :
  (r < length a)%nat -> (r < length b)%nat -> ISNAN (nth r a NaN) = true ->
  ISNAN (Kernel.sq_dist a b) = true.
Proof.
  unfold Kernel.sq_dist. generalize zero as acc.
  assert (Hkeep : forall l acc, ISNAN acc = true ->
            ISNAN (fold_left (fun curdist2 (p : dbl * dbl) =>
                                dadd curdist2 (dmul (dsub (fst p) (snd p))
                                                    (dsub (fst p) (snd p)))) l acc) = true).
  { induction l as [| p t IH]; intros acc Hacc; simpl; [assumption |].
    apply IH. now apply dadd_nan_left. }
  revert b r. induction a as [| x a IH]; intros b r acc Ha Hb Hnan; simpl in Ha; [lia |].
  destruct b as [| y b]; simpl in Hb; [lia |]. simpl.
  destruct r as [| r].
  - simpl in Hnan. apply Hkeep. apply dadd_nan_right, dmul_nan_left.
    now apply dsub_nan_left.
  - apply (IH b r); [lia | lia | exact Hnan].
Qed.

Lemma poisoned_probabilities (data : matrix) (s2 : dbl) (a : nat) :
  ISNA s2 = true \/
  (exists r, (r < get_nrow data)%nat /\ ISNA (cell data r a) = true) ->
  Forall (fun d => ISNAN d = true)
         (SmoothGaussianKernel.log_probabilities data s2 (get_col data a)).
Proof.
  intros H. unfold SmoothGaussianKernel.log_probabilities.
  apply Forall_forall. intros d Hd. apply in_map_iff in Hd. destruct Hd as [o [<- _]].
  destruct H as [Hs | [r [Hr Hna]]].
  - apply ddiv_nan_right, dneg_nan. now apply ISNA_ISNAN.
  - apply ddiv_nan_left. apply (sq_dist_nan _ _ r).
    + now rewrite get_col_length.
    + now rewrite get_col_length.
    + unfold get_col. rewrite nth_indep with (d' := cell data 0 a)
        by (rewrite length_map, length_seq; lia).
      rewrite (map_nth (fun r => cell data r a)). rewrite seq_nth by lia.
      now apply ISNA_ISNAN.
Qed.

Lemma Forall_zip_with {A B C : Type} (P : C -> Prop) (f : A -> B -> C)
    (l1 : list A) (l2 : list B) :
  (forall a b, In a l1 -> In b l2 -> P (f a b)) -> Forall P (zip_with f l1 l2).
Proof.
  intros H. unfold zip_with. apply Forall_forall. intros c Hc.
  apply in_map_iff in Hc. destruct Hc as [[a b] [<- Hab]].
  apply H; [eapply in_combine_l | eapply in_combine_r]; exact Hab.
Qed.

Lemma accumulate_poisoned (distances2 : list dbl) (density : dbl) (correction : list dbl)
    (acc : list (list dbl) * list dbl) :
  Forall (fun d => ISNAN d = true) distances2 ->
  all_nan (Kernel.accumulate distances2 density correction acc).
Proof.
  intros Hd. unfold all_nan, Kernel.accumulate. cbn [fst snd].
  assert (Hm : forall m, In m (map (fun d => dexp (dsub d density)) distances2) ->
                         ISNAN m = true).
  { intros m Hin. apply in_map_iff in Hin. destruct Hin as [d [<- Hin]].
    rewrite Forall_forall in Hd. apply dexp_nan, dsub_nan_left. auto. }
  split.
  - apply Forall_zip_with. intros col mult _ Hmult.
    apply Forall_zip_with. intros o corval _ _.
    apply dadd_nan_right, dmul_nan_right. auto.
  - apply Forall_zip_with. intros t mult _ Hmult. apply dadd_nan_right. auto.
Qed.

Lemma accumulate_keeps_nan (distances2 : list dbl) (density : dbl) (correction : list dbl)
    (acc : list (list dbl) * list dbl) :
  all_nan acc -> all_nan (Kernel.accumulate distances2 density correction acc).
Proof.
  intros [Ho Ht]. unfold all_nan, Kernel.accumulate. cbn [fst snd].
  rewrite Forall_forall in Ho, Ht. split.
  - apply Forall_zip_with. intros col mult Hcol _.
    apply Forall_zip_with. intros o corval Hin _.
    apply dadd_nan_left. specialize (Ho col Hcol). rewrite Forall_forall in Ho. auto.
  - apply Forall_zip_with. intros t mult Hin _. apply dadd_nan_left. auto.
Qed.

Lemma divide_by_total_nan (acc : list (list dbl) * list dbl) :
  all_nan acc ->
  Forall (Forall (fun x => ISNAN x = true)) (Kernel.divide_by_total (fst acc) (snd acc)).
Proof.
  intros [Ho Ht]. unfold Kernel.divide_by_total. rewrite Forall_forall in Ho.
  apply Forall_zip_with. intros col total Hcol _.
  specialize (Ho col Hcol). rewrite Forall_forall in Ho.
  apply Forall_forall. intros x Hx. apply in_map_iff in Hx. destruct Hx as [v [<- Hv]].
  apply ddiv_nan_left. auto.
Qed.

Lemma foldM_invariant {A S : Type} (P : S -> Prop) (f : A -> S -> result S) (l : list A) :
  (forall a s s', In a l -> f a s = Ok s' -> P s -> P s') ->
  forall s s', P s -> foldM f l s = Ok s' -> P s'.
Proof.
  induction l as [| a t IH]; intros Hstep s s' Hs Hfold; cbn [foldM] in Hfold.
  - inversion Hfold. now subst.
  - destruct (f a s) as [s1 | e] eqn:E; cbn [bind] in Hfold; [| discriminate].
    apply (IH (fun b u u' Hb => Hstep b u u' (or_intror Hb)) s1 s'); [| assumption].
    apply (Hstep a s s1); [now left | assumption | assumption].
Qed.

Lemma foldM_reaches {A S : Type} (P : S -> Prop) (f : A -> S -> result S) (l : list A)
    (a : A) :
  In a l ->
  (forall s s', f a s = Ok s' -> P s') ->
  (forall b s s', f b s = Ok s' -> P s -> P s') ->
  forall s s', foldM f l s = Ok s' -> P s'.
Proof.
  intros Hin Ha Hkeep. induction l as [| b t IH]; intros s s' Hfold; [destruct Hin |].
  cbn [foldM] in Hfold.
  destruct (f b s) as [s1 | e] eqn:E; cbn [bind] in Hfold; [| discriminate].
  destruct Hin as [-> | Hin].
  - apply (foldM_invariant P f t (fun c u u' _ => Hkeep c u u') s1 s'); [| assumption].
    now apply (Ha s).
  - now apply (IH Hin s1).
Qed.

(** A round of either file keeps sums that are NaN, and the round of an
    anchor with a missing value makes them NaN. *)
Lemma smooth_pass_nan (data : matrix) (s2 : dbl) (st : avg_state) (mnn : Z)
    (acc acc' : list (list dbl) * list dbl) :
  (MnnCorrection.smooth_pass data s2 st mnn acc = Ok acc' \/
   SmoothGaussianKernel.smooth_pass data s2 st mnn acc = Ok acc') ->
  (all_nan acc ->  all_nan acc') /\
  (ISNA s2 = true \/
   (exists r, (r < get_nrow data)%nat /\ ISNA (cell data r (Z.to_nat mnn)) = true) ->
   all_nan acc').
Proof.
  unfold MnnCorrection.smooth_pass, SmoothGaussianKernel.smooth_pass.
  destruct (get_const_col data mnn) as [col | e] eqn:Ecol; cbn [bind];
    [| intros [H | H]; discriminate].
  assert (col = get_col data (Z.to_nat mnn)).
  { unfold get_const_col in Ecol. destruct (_ && _); congruence. }
  subst col. rewrite log_probabilities_agree.
  intros [H | H].
  - destruct (MnnCorrection.mnn_density _ _) as [d | e]; cbn [bind] in H; [| discriminate].
    inversion H; subst acc'. split.
    + apply accumulate_keeps_nan.
    + intros Hp. apply accumulate_poisoned. now apply poisoned_probabilities.
  - destruct (SmoothGaussianKernel.mnn_density _ _) as [d | e]; cbn [bind] in H;
      [| discriminate].
    inversion H; subst acc'. split.
    + apply accumulate_keeps_nan.
    + intros Hp. apply accumulate_poisoned. now apply poisoned_probabilities.
Qed.

(** *** The shape of the sums *)

Lemma initial_output_shape (ngenes ncells : nat) :
  has_shape ngenes ncells (Kernel.initial_output ngenes ncells).
Proof.
  unfold has_shape, Kernel.initial_output. cbn [fst snd].
  rewrite !repeat_length. repeat split.
  apply Forall_forall. intros col Hcol. apply repeat_spec in Hcol. subst col.
  apply repeat_length.
Qed.

Lemma accumulate_shape (ngenes ncells : nat) (distances2 : list dbl) (density : dbl)
    (correction : list dbl) (acc : list (list dbl) * list dbl) :
  length distances2 = ncells -> length correction = ngenes ->
  has_shape ngenes ncells acc ->
  has_shape ngenes ncells (Kernel.accumulate distances2 density correction acc).
Proof.
  intros Hd Hc [Hl [Hcols Ht]]. unfold has_shape, Kernel.accumulate. cbn [fst snd].
  rewrite !zip_with_length, length_map. repeat split; try lia.
  apply Forall_zip_with. intros col mult Hcol _.
  rewrite Forall_forall in Hcols. rewrite zip_with_length, (Hcols col Hcol). lia.
Qed.

Lemma smooth_pass_shape (data : matrix) (s2 : dbl) (st : avg_state) (mnn : Z)
    (ngenes : nat) (acc acc' : list (list dbl) * list dbl) :
  (MnnCorrection.smooth_pass data s2 st mnn acc = Ok acc' \/
   SmoothGaussianKernel.smooth_pass data s2 st mnn acc = Ok acc') ->
  length (nth (Z.to_nat mnn) (averages st) []) = ngenes ->
  has_shape ngenes (get_ncol data) acc -> has_shape ngenes (get_ncol data) acc'.
Proof.
  unfold MnnCorrection.smooth_pass, SmoothGaussianKernel.smooth_pass.
  destruct (get_const_col data mnn) as [col | e]; cbn [bind];
    [| intros [H | H]; discriminate].
  intros [H | H] Hc Hs.
  - destruct (MnnCorrection.mnn_density _ _) as [d | e]; cbn [bind] in H; [| discriminate].
    inversion H; subst acc'.
    apply accumulate_shape; auto using deque_log_probabilities_length.
  - destruct (SmoothGaussianKernel.mnn_density _ _) as [d | e]; cbn [bind] in H;
      [| discriminate].
    inversion H; subst acc'.
    apply accumulate_shape; auto using vector_log_probabilities_length.
Qed.

Lemma divide_by_total_shape (ngenes ncells : nat) (acc : list (list dbl) * list dbl) :
  has_shape ngenes ncells acc ->
  length (Kernel.divide_by_total (fst acc) (snd acc)) = ncells /\
  Forall (fun col => length col = ngenes) (Kernel.divide_by_total (fst acc) (snd acc)).
Proof.
  intros [Hl [Hcols Ht]]. unfold Kernel.divide_by_total. split.
  - rewrite zip_with_length. lia.
  - apply Forall_zip_with. intros col total Hcol _. rewrite length_map.
    rewrite Forall_forall in Hcols. auto.
Qed.

Lemma same_value_refl (x : dbl) : same_value x x.
Proof. now left. Qed.

Lemma same_output_refl (o : list (list dbl)) : same_output o o.
Proof.
  unfold same_output. induction o as [| col t IH]; constructor; [| assumption].
  induction col; constructor; auto using same_value_refl.
Qed.

Lemma same_columns_nan (c1 c2 : list dbl) :
  length c1 = length c2 ->
  Forall (fun x => ISNAN x = true) c1 -> Forall (fun x => ISNAN x = true) c2 ->
  Forall2 same_value c1 c2.
Proof.
  revert c2. induction c1 as [| x t IH]; intros [| y u] Hl H1 H2; simpl in Hl;
    try discriminate; constructor.
  - right. split; [now apply Forall_inv in H1 | now apply Forall_inv in H2].
  - apply IH; [lia | now apply Forall_inv_tail in H1 | now apply Forall_inv_tail in H2].
Qed.

Lemma same_output_nan (ngenes : nat) (o1 o2 : list (list dbl)) :
  length o1 = length o2 ->
  Forall (fun col => length col = ngenes) o1 -> Forall (fun col => length col = ngenes) o2 ->
  Forall (Forall (fun x => ISNAN x = true)) o1 ->
  Forall (Forall (fun x => ISNAN x = true)) o2 ->
  same_output o1 o2.
Proof.
  unfold same_output. revert o2.
  induction o1 as [| c1 t IH]; intros [| c2 u] Hl Hs1 Hs2 Hn1 Hn2; simpl in Hl;
    try discriminate; constructor.
  - apply same_columns_nan.
    + apply Forall_inv in Hs1, Hs2. congruence.
    + now apply Forall_inv in Hn1.
    + now apply Forall_inv in Hn2.
  - apply IH; try lia; eauto using Forall_inv_tail.
Qed.

Lemma sorted_same_members (l1 l2 : list Z) :
  StronglySorted Z.lt l1 -> StronglySorted Z.lt l2 ->
  (forall x, In x l1 <-> In x l2) -> l1 = l2.
Proof.
  intros H1. revert l2. induction H1 as [| x t Ht IH Hx]; intros l2 H2 Hmem.
  - destruct l2 as [| y u]; [reflexivity |].
    exfalso. apply (proj2 (Hmem y)). now left.
  - destruct H2 as [| y u Hu Hy].
    + exfalso. apply (proj1 (Hmem x)). now left.
    + rewrite Forall_forall in Hx, Hy.
      assert (x = y).
      { destruct (proj1 (Hmem x) (or_introl eq_refl)) as [E | Hin]; [now symmetry |].
        destruct (proj2 (Hmem y) (or_introl eq_refl)) as [E | Hin']; [assumption |].
        specialize (Hx y Hin'). specialize (Hy x Hin). lia. }
      subst y. f_equal. apply IH; [assumption |].
      intros z. split; intros Hz.
      * destruct (proj1 (Hmem z) (or_intror Hz)) as [E | Hin]; [| assumption].
        subst z. specialize (Hx x Hz). lia.
      * destruct (proj2 (Hmem z) (or_intror Hz)) as [E | Hin]; [| assumption].
        subst z. specialize (Hy x Hz). lia.
Qed.

Lemma missing_at_anchor_members (data : matrix) (s2 : dbl) (l1 l2 : list Z) :
  (forall x, In x l1 <-> In x l2) ->
  missing_at_anchor data s2 l1 = missing_at_anchor data s2 l2.
Proof.
  intros Hmem. unfold missing_at_anchor. f_equal.
  set (p := fun a => existsb (fun r => ISNA (cell data r (Z.to_nat a)))
                             (seq 0 (get_nrow data))).
  destruct (existsb p l1) eqn:E1, (existsb p l2) eqn:E2; try reflexivity.
  - apply existsb_exists in E1. destruct E1 as [a [Ha Hp]].
    assert (existsb p l2 = true) by (apply existsb_exists; exists a; split; [apply Hmem |]; auto).
    congruence.
  - apply existsb_exists in E2. destruct E2 as [a [Ha Hp]].
    assert (existsb p l1 = true) by (apply existsb_exists; exists a; split; [apply Hmem |]; auto).
    congruence.
Qed.

(** The sums of the smoothing loop of either file have the shape of the
    output when the anchors carry vectors of [ngenes] entries. *)
Lemma smooth_sums_shape (data : matrix) (s2 : dbl) (st : avg_state) (ngenes : nat)
    (acc : list (list dbl) * list dbl) :
  (MnnCorrection.smooth_sums data s2 st ngenes = Ok acc \/
   SmoothGaussianKernel.smooth_sums data s2 st ngenes = Ok acc) ->
  (forall mnn, In mnn (mnncell st) -> length (nth (Z.to_nat mnn) (averages st) []) = ngenes) ->
  has_shape ngenes (get_ncol data) acc.
Proof.
  unfold MnnCorrection.smooth_sums, SmoothGaussianKernel.smooth_sums.
  intros [H | H] Hav;
    (eapply (foldM_invariant (has_shape ngenes (get_ncol data))); [| | exact H];
     [| apply initial_output_shape]);
    intros a s s' Ha Hstep Hs; apply (smooth_pass_shape data s2 st a ngenes s s'); auto.
Qed.

(** The sums of the smoothing loop of either file are NaN when an anchor has
    a missing value in its column or the bandwidth is missing. *)
Lemma smooth_sums_nan (data : matrix) (s2 : dbl) (st : avg_state) (ngenes : nat)
    (acc : list (list dbl) * list dbl) (a : Z) :
  (MnnCorrection.smooth_sums data s2 st ngenes = Ok acc \/
   SmoothGaussianKernel.smooth_sums data s2 st ngenes = Ok acc) ->
  In a (mnncell st) ->
  ISNA s2 = true \/
  (exists r, (r < get_nrow data)%nat /\ ISNA (cell data r (Z.to_nat a)) = true) ->
  all_nan acc.
Proof.
  unfold MnnCorrection.smooth_sums, SmoothGaussianKernel.smooth_sums.
  intros [H | H] Ha Hp;
    (eapply (foldM_reaches all_nan _ _ a Ha); [| | exact H]);
    [ intros s s' Hstep;
      apply (proj2 (smooth_pass_nan data s2 st a s s' (or_introl Hstep))); exact Hp
    | intros b s s' Hstep;
      apply (proj1 (smooth_pass_nan data s2 st b s s' (or_introl Hstep)))
    | intros s s' Hstep;
      apply (proj2 (smooth_pass_nan data s2 st a s s' (or_intror Hstep))); exact Hp
    | intros b s s' Hstep;
      apply (proj1 (smooth_pass_nan data s2 st b s s' (or_intror Hstep))) ].
Qed.

(** C2.  On an input for which both return a matrix, the
    [smooth_gaussian_kernel] of mnn_correction.cpp (all squared distances
    first, then the division by [-s2]) and that of smooth_gaussian_kernel.cpp
    (the division as each distance is computed) return matrices of the same
    numbers: the same doubles, or NaN in the same places.  When neither the
    bandwidth nor the column of an anchor holds a missing value, the two
    matrices are equal. *)
Theorem two_smoothing_implementations_agree :
  forall (check : dbl -> result dbl) (vect : matrix) (index : list Z) (data : matrix)
         (sigma : dbl) (outA outB : list (list dbl)),
    MnnCorrection.smooth_gaussian_kernel check vect index data sigma = Ok outA ->
    SmoothGaussianKernel.smooth_gaussian_kernel check vect index data sigma = Ok outB ->
    same_output outA outB /\
    (forall s2, check sigma = Ok s2 -> missing_at_anchor data s2 index = false ->
                outA = outB).
Proof.
  intros check vect index data sigma outA outB HA HB.
  unfold MnnCorrection.smooth_gaussian_kernel in HA.
  unfold SmoothGaussianKernel.smooth_gaussian_kernel in HB.
  destruct (get_nrow vect =? length index)%nat; cbn [negb] in HA, HB; [| discriminate].
  destruct (check sigma) as [s2 | e] eqn:Hcheck; cbn [bind] in HB; [| discriminate].
  destruct (SmoothGaussianKernel.build_averages vect index (get_ncol data))
    as [stB | e] eqn:HbB; cbn [bind] in HB; [| discriminate].
  destruct (SmoothGaussianKernel.smooth_sums data s2 stB (get_ncol vect))
    as [accB | e] eqn:HsB; cbn [bind] in HB; [| discriminate].
  destruct (MnnCorrection.build_averages vect index) as [stA | e] eqn:HbA;
    cbn [bind] in HA; [| discriminate].
  destruct (MnnCorrection.smooth_sums data s2 stA (get_ncol vect))
    as [accA | e] eqn:HsA; cbn [bind] in HA; [| discriminate].
  inversion HA; subst outA. inversion HB; subst outB. clear HA HB.
  (* the identifiers are cells *)
  assert (Hrange : Forall (in_range (get_ncol data)) index).
  { unfold SmoothGaussianKernel.build_averages in HbB.
    destruct (SmoothGaussianKernel.avg_loop vect index 0 _) as [st1 | e] eqn:Hloop;
      [| discriminate].
    destruct (avg_inv_vector_initial vect (get_ncol data)) as [Hinv0 Hvec0].
    apply (vector_avg_loop_inv vect (get_ncol data) index 0 [] _ _ Hinv0 Hvec0 Hloop). }
  destruct (vector_build_averages_spec vect index (get_ncol data) Hrange)
    as [st [Hb [HsortB [HmemB [_ HmeanB]]]]].
  rewrite HbB in Hb. inversion Hb; subst st. clear Hb.
  destruct (deque_build_averages_spec vect index) as [st [Hb [HsortA [HmemA HmeanA]]]].
  { eapply Forall_impl; [| exact Hrange]. unfold in_range. intros; lia. }
  rewrite HbA in Hb. inversion Hb; subst st. clear Hb.
  assert (Hcells : mnncell stA = mnncell stB).
  { apply sorted_same_members; try assumption. intros x. now rewrite HmemA, HmemB. }
  assert (Hav : forall mnn, In mnn (mnncell stB) ->
             nth (Z.to_nat mnn) (averages stA) [] = nth (Z.to_nat mnn) (averages stB) []).
  { intros mnn Hin. apply HmemB in Hin.
    rewrite (proj1 (HmeanA mnn Hin)), (proj1 (HmeanB mnn Hin)). reflexivity. }
  assert (Hclean : missing_at_anchor data s2 (mnncell stB) = false ->
                   Kernel.divide_by_total (fst accA) (snd accA) =
                   Kernel.divide_by_total (fst accB) (snd accB)).
  { intros Hc.
    rewrite (smooth_sums_agree data s2 stA stB (get_ncol vect) Hcells Hav Hc) in HsA.
    congruence. }
  split.
  - destruct (missing_at_anchor data s2 (mnncell stB)) eqn:Hmiss.
    + (* a missing value: NaN everywhere *)
      destruct (mnncell stB) as [| a0 rest] eqn:Ecells.
      * (* no anchor at all: no round *)
        unfold MnnCorrection.smooth_sums in HsA.
        unfold SmoothGaussianKernel.smooth_sums in HsB.
        rewrite Hcells in HsA. rewrite Ecells in HsB. cbn [foldM] in HsA, HsB.
        assert (accA = accB) by congruence. subst accB. apply same_output_refl.
      * assert (Hlens : forall st', mnncell st' = a0 :: rest ->
                  (forall id, In id index ->
                     nth (Z.to_nat id) (averages st') [] =
                     arithmetic_mean (rows_of vect index id)) ->
                  forall mnn, In mnn (mnncell st') ->
                    length (nth (Z.to_nat mnn) (averages st') []) = get_ncol vect).
        { intros st' E Hm mnn Hin. rewrite E in Hin.
          apply HmemB in Hin. rewrite (Hm mnn Hin). now apply arithmetic_mean_length. }
        assert (HshA : has_shape (get_ncol vect) (get_ncol data) accA).
        { apply (smooth_sums_shape data s2 stA (get_ncol vect) accA (or_introl HsA)).
          apply Hlens; [congruence |]. intros id Hid. apply (HmeanA id Hid). }
        assert (HshB : has_shape (get_ncol vect) (get_ncol data) accB).
        { apply (smooth_sums_shape data s2 stB (get_ncol vect) accB (or_intror HsB)).
          apply Hlens; [assumption |]. intros id Hid. apply (HmeanB id Hid). }
        assert (Hpoison : exists a, In a (a0 :: rest) /\
                  (ISNA s2 = true \/
                   exists r, (r < get_nrow data)%nat /\
                             ISNA (cell data r (Z.to_nat a)) = true)).
        { destruct (missing_at_anchor_true data s2 (a0 :: rest) Hmiss)
            as [Hs | [a [r [Ha [Hr Hna]]]]].
          - exists a0. split; [now left | now left].
          - exists a. split; [assumption | right; eauto]. }
        destruct Hpoison as [a [Ha Hp]].
        assert (HnA : all_nan accA).
        { apply (smooth_sums_nan data s2 stA (get_ncol vect) accA a (or_introl HsA));
            [congruence | exact Hp]. }
        assert (HnB : all_nan accB).
        { apply (smooth_sums_nan data s2 stB (get_ncol vect) accB a (or_intror HsB));
            [congruence | exact Hp]. }
        destruct (divide_by_total_shape _ _ accA HshA) as [HlA HcA].
        destruct (divide_by_total_shape _ _ accB HshB) as [HlB HcB].
        apply (same_output_nan (get_ncol vect)); try assumption; try congruence;
          now apply divide_by_total_nan.
    + rewrite Hclean by reflexivity. apply same_output_refl.
  - intros s2' Hs2' Hmiss. inversion Hs2'; subst s2'. apply Hclean.
    rewrite <- Hmiss. apply missing_at_anchor_members. exact HmemB.
Qed.

(** Both files return a matrix when the identifiers are cells. *)
Lemma both_return_when_cells (check : dbl -> result dbl) (vect : matrix) (index : list Z)
    (data : matrix) (sigma s2 : dbl) :
  check sigma = Ok s2 ->
  get_nrow vect = length index ->
  Forall (in_range (get_ncol data)) index ->
  (exists out,
      MnnCorrection.smooth_gaussian_kernel check vect index data sigma = Ok out) /\
  (exists out,
      SmoothGaussianKernel.smooth_gaussian_kernel check vect index data sigma = Ok out).
Proof.
  intros Hcheck Hlen Hall. apply Nat.eqb_eq in Hlen.
  unfold SmoothGaussianKernel.smooth_gaussian_kernel, MnnCorrection.smooth_gaussian_kernel.
  rewrite Hlen. cbn [negb]. split.
  - destruct (deque_build_averages_spec vect index) as [st [Hb [_ [Hmem _]]]].
    { eapply Forall_impl; [| exact Hall]. unfold in_range. intros; lia. }
    destruct (deque_smooth_sums_ok data s2 st (get_ncol vect)) as [acc Hacc].
    { now apply (Forall_same_members _ _ _ Hmem). }
    eexists. rewrite Hb. cbn [bind]. rewrite Hcheck. cbn [bind]. rewrite Hacc. reflexivity.
  - destruct (vector_build_averages_spec vect index (get_ncol data) Hall)
      as [st [Hb [_ [Hmem _]]]].
    destruct (vector_smooth_sums_ok data s2 st (get_ncol vect)) as [acc Hacc].
    { now apply (Forall_same_members _ _ _ Hmem). }
    eexists. rewrite Hcheck. cbn [bind]. rewrite Hb. cbn [bind]. rewrite Hacc. reflexivity.
Qed.

Lemma two_smoothing_implementations_witness :
  exists outA outB,
    MnnCorrection.smooth_gaussian_kernel check_numeric_scalar
      Examples.vect3 Examples.index3 Examples.data2 (Fin 1) = Ok outA /\
    SmoothGaussianKernel.smooth_gaussian_kernel check_numeric_scalar
      Examples.vect3 Examples.index3 Examples.data2 (Fin 1) = Ok outB /\
    same_output outA outB /\ outA = outB.
Proof.
  assert (Hr : Forall (in_range (get_ncol Examples.data2)) Examples.index3).
  { unfold Examples.index3, in_range. repeat constructor; simpl; lia. }
  destruct (both_return_when_cells check_numeric_scalar Examples.vect3 Examples.index3
              Examples.data2 (Fin 1) (Fin 1) check_numeric_scalar_one eq_refl Hr)
    as [[outA HA] [outB HB]].
  destruct (two_smoothing_implementations_agree check_numeric_scalar Examples.vect3
              Examples.index3 Examples.data2 (Fin 1) outA outB HA HB) as [Hsame Heq].
  exists outA, outB. split; [exact HA |]. split; [exact HB |]. split; [exact Hsame |].
  apply (Heq (Fin 1) check_numeric_scalar_one). reflexivity.
Defined.

(* ================================================================= *)
(** ** A run of [adjust_shift_variance] *)

(** The weight of a reference cell in the round of cell [c]. *)
Lemma cell_trace_stages (d1 d2 v : matrix) (s2 : dbl) (c : nat) :
  get_nrow d1 = get_nrow d2 ->
  let t := cell_trace_of d1 d2 v s2 c in
  let weight := fun o =>
    dexp (ddiv (dneg (fst (sq_distance_to_line (get_col d2 c) (unit_grad t) (get_col d1 o)
                                               (repeat zero (get_nrow d1))))) s2) in
  let same := fold_left (same_step d2 s2 (unit_grad t) (get_col d2 c) (curproj t) c)
                        (seq 0 (get_ncol d2)) (zero, zero, repeat zero (get_nrow d1)) in
  prob2 t = ddiv (fst (fst same)) (snd (fst same)) /\
  totalprob1 t = fold_left dadd (map weight (seq 0 (get_ncol d1))) zero /\
  sorted1 t = sort (map (fun o => (projection1 d1 t o, weight o)) (seq 0 (get_ncol d1))).
Proof.
  intros Hg. unfold cell_trace_of, projection1, adjust_cell.
  set (grad0 := get_row v c).
  set (l2 := dsqrt (fold_left (fun acc g => dadd acc (dmul g g)) grad0 zero)).
  set (grad := map (fun g => ddiv g l2) grad0).
  set (curcell := get_col d2 c).
  set (cp := inner_product grad curcell zero).
  assert (Hcur2 : length curcell = get_nrow d2) by apply get_col_length.
  assert (Hcur1 : length curcell = get_nrow d1) by lia.
  change (working (fresh_buffers d1)) with (repeat zero (get_nrow d1)).
  set (w0 := repeat zero (get_nrow d1)).
  assert (Hw0 : length w0 = get_nrow d1) by apply repeat_length.
  assert (Hfd : length (distance1 (fresh_buffers d1)) = get_ncol d1) by apply repeat_length.
  destruct (same_loop_working d2 s2 grad curcell cp c (seq 0 (get_ncol d2)) Hcur2
              zero zero w0 w0) as [_ Hlen]; [lia | lia |].
  destruct (fold_left (same_step d2 s2 grad curcell cp c) (seq 0 (get_ncol d2))
                      (zero, zero, w0)) as [[p t] w] eqn:Esame.
  cbn [snd] in Hlen.
  pose proof (other_loop_spec d1 s2 grad curcell (get_ncol d1) Hcur1 0 zero
                (Buffers w (distance1 (fresh_buffers d1)))) as H1.
  pose proof (other_loop_distance1 d1 s2 grad curcell zero
                (Buffers w (distance1 (fresh_buffers d1))) Hcur1) as H2.
  cbv zeta in H1. cbn [working distance1] in H1, H2.
  destruct H1 as [Ht _]; [lia |]. specialize (H2 ltac:(lia) Hfd).
  assert (Hww : forall o,
             sq_distance_to_line curcell grad (get_col d1 o) w =
             sq_distance_to_line curcell grad (get_col d1 o) w0).
  { intros o. apply sq_distance_to_line_working. lia. }
  destruct (fold_left (other_step d1 s2 grad curcell) (seq 0 (get_ncol d1))
                      (zero, Buffers w (distance1 (fresh_buffers d1)))) as [tp b1].
  cbn [fst snd sorted1 prob2 totalprob1 unit_grad curproj] in *.
  rewrite Esame. cbn [fst snd].
  split; [reflexivity |]. split.
  - rewrite Ht. f_equal. apply map_ext. intros o. now rewrite Hww.
  - rewrite H2. f_equal. apply map_ext. intros o. now rewrite Hww.
Qed.

(** The round of the first cell of the example, stage by stage. *)
Lemma example_first_cell :
  let t := cell_trace_of Examples.ref3 Examples.query2 Examples.grad2 (Fin 1) 0 in
  unit_grad t = [Fin 1] /\ curproj t = Fin 0 /\ prob2 t = Fin (1 / 2) /\
  totalprob1 t = Fin 3 /\ sorted1 t = [(Fin 1, Fin 1); (Fin 2, Fin 1); (Fin 3, Fin 1)] /\
  ref_quan t = Fin 2 /\ scaling t = Fin 1.
Proof.
  intros t.
  assert (Hl : l2norm t = Fin 2) by apply example_l2norm.
  assert (Hg : unit_grad t = [Fin 1]).
  { unfold t. rewrite cell_trace_unit_grad, example_l2norm. run. repeat f_equal. field. }
  assert (Hc : curproj t = Fin 0).
  { unfold t. rewrite cell_trace_curproj. fold t. rewrite Hg. run. f_equal. lra. }
  destruct (cell_trace_stages Examples.ref3 Examples.query2 Examples.grad2 (Fin 1) 0 eq_refl)
    as [Hp [Ht Hs]].
  destruct (cell_trace_reference Examples.ref3 Examples.query2 Examples.grad2 (Fin 1) 0
              eq_refl) as [_ Hq].
  pose proof (cell_trace_scaling Examples.ref3 Examples.query2 Examples.grad2 (Fin 1) 0)
    as Hsc.
  cbv zeta in Hsc. unfold projection1 in Hs. fold t in Hp, Ht, Hs, Hq, Hsc.
  rewrite Hg, Hc in Hp. rewrite Hg in Ht, Hs.
  assert (Hp' : prob2 t = Fin (1 / 2)).
  { rewrite Hp. run. exp_zero. rdecide. f_equal. lra. }
  assert (Ht' : totalprob1 t = Fin 3).
  { rewrite Ht. run. exp_zero. rdecide. f_equal. lra. }
  assert (Hs' : sorted1 t = [(Fin 1, Fin 1); (Fin 2, Fin 1); (Fin 3, Fin 1)]).
  { rewrite Hs.
    replace (map _ (seq 0 (get_ncol Examples.ref3)))
      with [(Fin 1, Fin 1); (Fin 2, Fin 1); (Fin 3, Fin 1)].
    - run. reflexivity.
    - run. exp_zero. rdecide. repeat f_equal; lra. }
  assert (Hq' : ref_quan t = Fin 2).
  { rewrite Hq, Hs', Hp', Ht'. run. reflexivity. }
  rewrite Hl, Hq', Hc in Hsc.
  repeat split; try assumption.
  rewrite Hsc. run. f_equal. lra.
Qed.

(** The round of the second cell, whose gradient is zero: all is NaN. *)
Lemma example_second_cell :
  scaling (cell_trace_of Examples.ref3 Examples.query2 Examples.grad2 (Fin 1) 1) = NaN.
Proof.
  set (t := cell_trace_of Examples.ref3 Examples.query2 Examples.grad2 (Fin 1) 1).
  assert (Hl : l2norm t = Fin 0).
  { unfold t. rewrite cell_trace_l2norm. run. sqrt_values. reflexivity. }
  assert (Hg : unit_grad t = [NaN]).
  { unfold t. rewrite cell_trace_unit_grad. fold t. rewrite Hl. run. reflexivity. }
  assert (Hc : curproj t = NaN).
  { unfold t. rewrite cell_trace_curproj. fold t. rewrite Hg. reflexivity. }
  destruct (cell_trace_stages Examples.ref3 Examples.query2 Examples.grad2 (Fin 1) 1 eq_refl)
    as [_ [_ Hs]].
  destruct (cell_trace_reference Examples.ref3 Examples.query2 Examples.grad2 (Fin 1) 1
              eq_refl) as [_ Hq].
  pose proof (cell_trace_scaling Examples.ref3 Examples.query2 Examples.grad2 (Fin 1) 1)
    as Hsc.
  cbv zeta in Hsc. unfold projection1 in Hs. fold t in Hs, Hq, Hsc.
  rewrite Hg in Hs.
  assert (Hs' : sorted1 t = [(NaN, NaN); (NaN, NaN); (NaN, NaN)]).
  { rewrite Hs. reflexivity. }
  assert (Hq' : ref_quan t = NaN).
  { rewrite Hq, Hs'. destruct (dmul (prob2 t) (totalprob1 t)); reflexivity. }
  rewrite Hsc, Hq', Hc, Hl. reflexivity.
Qed.

(** Three reference cells at 1, 2, 3 and two cells at 0 and 5, the first with
    gradient 2 and the second with gradient 0.  Half of the weight of its
    batch lies at or below the first cell, the matching quantile of the
    reference is 2, and its scale factor is (2 - 0) / 2; the second has
    none. *)
Example adjust_shift_variance_on_a_line :
  adjust_shift_variance check_numeric_scalar
    Examples.ref3 Examples.query2 Examples.grad2 (Fin 1) = Ok [Fin 1; NaN].
Proof.
  rewrite (adjust_shift_variance_spec check_numeric_scalar Examples.ref3 Examples.query2
             Examples.grad2 (Fin 1) (Fin 1) eq_refl eq_refl eq_refl check_numeric_scalar_one).
  change (seq 0 (get_ncol Examples.query2)) with [0%nat; 1%nat]. cbn [map].
  destruct example_first_cell as [_ [_ [_ [_ [_ [_ Hs]]]]]].
  now rewrite Hs, example_second_cell.
Qed.

(* ================================================================= *)
(** ** A run of [smooth_gaussian_kernel] with two anchors *)

Lemma exp_neg_ln2 (x : R) : x = - ln 2 -> exp x = 1 / 2.
Proof.
  intros ->. rewrite exp_Ropp, exp_ln by lra. lra.
Qed.

(** The two cells of the example lie at the same place: all the logged
    probabilities are 0, and the density of either anchor is log 2. *)
Lemma example_log_probabilities (a : nat) :
  (a < 2)%nat ->
  SmoothGaussianKernel.log_probabilities Examples.data_same (Fin 1)
    (get_col Examples.data_same a) = [Fin 0; Fin 0].
Proof.
  intros Ha. destruct a as [| [| a]]; [| | lia]; run; repeat f_equal; field.
Qed.

Lemma example_densities :
  SmoothGaussianKernel.mnn_density [Fin 0; Fin 0] [0; 1]%Z = Ok (Fin (ln 2)) /\
  MnnCorrection.mnn_density [Fin 0; Fin 0] [0; 1]%Z = Ok (Fin (ln 2)).
Proof.
  split; run;
    repeat match goal with
    | |- context [Rabs ?x] =>
        replace (Rabs x) with 0
          by (symmetry; transitivity (Rabs 0); [f_equal; lra | apply Rabs_R0])
    end;
    exp_zero; rdecide; cbv beta iota; repeat f_equal;
    replace (1 + 1) with 2 by lra; lra.
Qed.

(** The anchors 0 and 1 carry the means (2,2) and (10,10); each weighs 1/2
    in either cell, and the smoothed vector of both cells is (6,6). *)
Example smooth_gaussian_kernel_two_anchors :
  SmoothGaussianKernel.smooth_gaussian_kernel check_numeric_scalar
    Examples.vect3 Examples.index3 Examples.data_same (Fin 1) =
    Ok [[Fin 6; Fin 6]; [Fin 6; Fin 6]] /\
  MnnCorrection.smooth_gaussian_kernel check_numeric_scalar
    Examples.vect3 Examples.index3 Examples.data_same (Fin 1) =
    Ok [[Fin 6; Fin 6]; [Fin 6; Fin 6]].
Proof.
  destruct average_map_of_the_specification as [HbB HbA].
  destruct example_densities as [HdB HdA].
  split.
  - unfold SmoothGaussianKernel.smooth_gaussian_kernel.
    change (negb (get_nrow Examples.vect3 =? length Examples.index3)%nat) with false.
    cbv iota. rewrite check_numeric_scalar_one. cbn [bind].
    change (get_ncol Examples.data_same) with 2%nat. rewrite HbB. cbn [bind].
    unfold SmoothGaussianKernel.smooth_sums, SmoothGaussianKernel.smooth_pass.
    cbn [mnncell foldM averages].
    change (get_const_col Examples.data_same 0)
      with (Ok (A := list dbl) (get_col Examples.data_same 0)).
    change (get_const_col Examples.data_same 1)
      with (Ok (A := list dbl) (get_col Examples.data_same 1)).
    cbn [bind]. rewrite !example_log_probabilities by lia. rewrite HdB. cbn [bind].
    run. repeat match goal with
         | |- context [exp ?x] => rewrite (exp_neg_ln2 x) by lra
         end.
    rdecide. repeat f_equal; field.
  - unfold MnnCorrection.smooth_gaussian_kernel.
    change (negb (get_nrow Examples.vect3 =? length Examples.index3)%nat) with false.
    cbv iota. rewrite HbA. cbn [bind]. rewrite check_numeric_scalar_one. cbn [bind].
    unfold MnnCorrection.smooth_sums, MnnCorrection.smooth_pass.
    cbn [mnncell foldM averages].
    change (get_const_col Examples.data_same 0)
      with (Ok (A := list dbl) (get_col Examples.data_same 0)).
    change (get_const_col Examples.data_same 1)
      with (Ok (A := list dbl) (get_col Examples.data_same 1)).
    cbn [bind]. rewrite !log_probabilities_agree.
    rewrite !example_log_probabilities by lia. rewrite HdA. cbn [bind].
    run. repeat match goal with
         | |- context [exp ?x] => rewrite (exp_neg_ln2 x) by lra
         end.
    rdecide. repeat f_equal; field.
Qed.

(* ================================================================= *)
(** ** Further properties of [adjust_shift_variance] *)

(** A call that returns has passed the three dimension checks and the check
    of the bandwidth, and its result is the scaling of every cell. *)
Lemma adjust_shift_variance_returns (check : dbl -> result dbl) (d1 d2 v : matrix)
    (sigma : dbl) (out : list dbl) :
  adjust_shift_variance check d1 d2 v sigma = Ok out ->
  get_nrow d1 = get_nrow d2 /\ get_nrow d1 = get_ncol v /\ get_ncol d2 = get_nrow v /\
  exists s2, check sigma = Ok s2 /\
    out = map (fun c => scaling (cell_trace_of d1 d2 v s2 c)) (seq 0 (get_ncol d2)).
Proof.
  intros H.
  destruct (Nat.eq_dec (get_nrow d1) (get_nrow d2)) as [E1 | N1];
    [| apply Nat.eqb_neq in N1; unfold adjust_shift_variance in H;
       rewrite N1 in H; discriminate].
  destruct (Nat.eq_dec (get_nrow d1) (get_ncol v)) as [E2 | N2];
    [| apply Nat.eqb_neq in N2; unfold adjust_shift_variance in H;
       rewrite N2, orb_true_r in H; discriminate].
  destruct (Nat.eq_dec (get_ncol d2) (get_nrow v)) as [E3 | N3];
    [| apply Nat.eqb_neq in N3; unfold adjust_shift_variance in H;
       rewrite N3 in H; destruct (_ || _); discriminate].
  destruct (check sigma) as [s2 | e] eqn:Hc;
    [| unfold adjust_shift_variance in H; rewrite Hc in H;
       destruct (_ || _); [| destruct (negb _)]; discriminate].
  rewrite (adjust_shift_variance_spec check d1 d2 v sigma s2 E1 E2 E3 Hc) in H.
  inversion H. eauto 6.
Qed.

Lemma nth_error_map_seq {A : Type} (f : nat -> A) (n c : nat) :
  (c < n)%nat -> nth_error (map f (seq 0 n)) c = Some (f c).
Proof.
  intros Hc. rewrite nth_error_map, nth_error_nth' with (d := 0%nat)
    by (rewrite length_seq; lia).
  now rewrite seq_nth by lia.
Qed.

(** *** The matched quantile *)

(** Where the walk stops, it stops at an element of the list. *)
Lemma quantile_walk_some (l : list (dbl * dbl)) (target : dbl) :
  forall cumulative q,
    quantile_walk l target cumulative = Some q -> exists p, In p l /\ fst p = q.
Proof.
  induction l as [| val t IH]; intros cum q H; simpl in H; [discriminate |].
  destruct (dge (dadd cum (snd val)) target).
  - inversion H. exists val. split; [now left | reflexivity].
  - destruct (IH _ _ H) as [p [Hp E]]. exists p. split; [now right | exact E].
Qed.

(** The quantile of a cell is the projection of a reference cell, when there
    is one. *)
Lemma ref_quan_in_reference (d1 d2 v : matrix) (s2 : dbl) (c : nat) :
  get_nrow d1 = get_nrow d2 -> get_ncol d1 <> 0%nat ->
  exists o, (o < get_ncol d1)%nat /\
    ref_quan (cell_trace_of d1 d2 v s2 c) = projection1 d1 (cell_trace_of d1 d2 v s2 c) o.
Proof.
  intros Hg Hnz.
  destruct (cell_trace_reference d1 d2 v s2 c Hg) as [[weight Hsorted] Hrq].
  set (t := cell_trace_of d1 d2 v s2 c) in *.
  set (pairs := map (fun o => (projection1 d1 t o, weight o)) (seq 0 (get_ncol d1))) in *.
  assert (Hin : exists p, In p (sorted1 t) /\ fst p = ref_quan t).
  { rewrite Hrq.
    destruct (quantile_walk (sorted1 t) (dmul (prob2 t) (totalprob1 t)) zero) as [q |] eqn:E.
    - exact (quantile_walk_some _ _ _ _ E).
    - destruct (Nat.eqb_spec (get_ncol d1) 0); [contradiction |].
      exists (last (sorted1 t) (NA, NA)). split; [| reflexivity].
      apply last_In. intros E0. apply (f_equal (@length _)) in E0.
      rewrite Hsorted, sort_length in E0. unfold pairs in E0.
      rewrite length_map, length_seq in E0. simpl in E0. contradiction. }
  destruct Hin as [p [Hp Ep]].
  rewrite Hsorted in Hp. apply (Permutation_in _ (sort_perm pairs)) in Hp.
  unfold pairs in Hp. apply in_map_iff in Hp. destruct Hp as [o [Eo Ho]].
  apply in_seq in Ho. exists o. split; [lia |].
  rewrite <- Ep, <- Eo. reflexivity.
Qed.

(** X1.  With a reference batch that is not empty, the quantile that
    [adjust_shift_variance] matches a cell with is always the projection of
    one of the reference cells on the unit gradient of the cell (no value
    between two of them is made up), whether the walk along the sorted
    reference cells stops or the default is kept; the scale factor of the
    cell is the distance from its own projection to that one, over the norm
    of the gradient. *)
Theorem matched_quantile_is_a_reference_projection :
  forall (check : dbl -> result dbl) (data1 data2 vect : matrix) (sigma : dbl)
         (out : list dbl) (c : nat),
    adjust_shift_variance check data1 data2 vect sigma = Ok out ->
    get_ncol data1 <> 0%nat ->
    (c < get_ncol data2)%nat ->
    exists s2 o,
      check sigma = Ok s2 /\ (o < get_ncol data1)%nat /\
      let t := cell_trace_of data1 data2 vect s2 c in
      ref_quan t = projection1 data1 t o /\
      nth_error out c = Some (ddiv (dsub (projection1 data1 t o) (curproj t)) (l2norm t)).
Proof.
  intros check d1 d2 v sigma out c Hout Hnz Hc.
  destruct (adjust_shift_variance_returns check d1 d2 v sigma out Hout)
    as [Hg [_ [_ [s2 [Hs2 ->]]]]].
  destruct (ref_quan_in_reference d1 d2 v s2 c Hg Hnz) as [o [Ho Eq]].
  exists s2, o. split; [exact Hs2 |]. split; [exact Ho |]. cbv zeta.
  split; [exact Eq |].
  rewrite nth_error_map_seq by exact Hc.
  rewrite <- Eq. f_equal. apply cell_trace_scaling.
Qed.

Lemma matched_quantile_witness :
  exists o, (o < 3)%nat /\
    ref_quan (cell_trace_of Examples.ref3 Examples.query2 Examples.grad2 (Fin 1) 0) =
    projection1 Examples.ref3
      (cell_trace_of Examples.ref3 Examples.query2 Examples.grad2 (Fin 1) 0) o.
Proof.
  destruct (matched_quantile_is_a_reference_projection check_numeric_scalar
              Examples.ref3 Examples.query2 Examples.grad2 (Fin 1) [Fin 1; NaN] 0%nat
              adjust_shift_variance_on_a_line ltac:(simpl; lia) ltac:(simpl; lia))
    as [s2 [o [Hs2 [Ho [Hq _]]]]].
  rewrite check_numeric_scalar_one in Hs2. inversion Hs2; subst s2.
  exists o. split; [exact Ho | exact Hq].
Defined.

(** On a sorted list without NaN, a target that the walk reaches is reached
    by every smaller one, at an element that is not larger. *)
Lemma quantile_walk_sorted_monotone (l : list (dbl * dbl)) (target target' : dbl) :
  StronglySorted (fun a b => dle (fst a) (fst b) = true) l ->
  Forall (fun p => ISNAN (fst p) = false) l ->
  dle target target' = true ->
  forall cumulative q',
    quantile_walk l target' cumulative = Some q' ->
    exists q, quantile_walk l target cumulative = Some q /\ dle q q' = true.
Proof.
  intros Hs Hn Ht. induction Hs as [| val t Hs IH Hval]; intros cum q' H;
    simpl in H; [discriminate |].
  apply Forall_cons_iff in Hn. destruct Hn as [Hnv Hnt].
  cbn [quantile_walk].
  destruct (dge (dadd cum (snd val)) target') eqn:E'.
  - inversion H; subst q'.
    assert (E : dge (dadd cum (snd val)) target = true).
    { unfold dge in *. now apply dle_trans with (y := target'). }
    rewrite E. exists (fst val). split; [reflexivity | now apply dle_refl].
  - destruct (dge (dadd cum (snd val)) target) eqn:E.
    + exists (fst val). split; [reflexivity |].
      destruct (quantile_walk_some _ _ _ _ H) as [p [Hp <-]].
      rewrite Forall_forall in Hval. now apply Hval.
    + now apply IH.
Qed.

(** X2.  The walk along the sorted reference cells is monotone in its
    target: when the cumulative weight reaches a target, it reaches every
    smaller target too, and stops for it at a projection that is not larger
    (no projection being a NaN). *)
Theorem larger_target_gets_larger_quantile :
  forall (distance1 : list (dbl * dbl)) (target target' cumulative q' : dbl),
    Forall (fun p => ISNAN (fst p) = false) distance1 ->
    dle target target' = true ->
    quantile_walk (sort distance1) target' cumulative = Some q' ->
    exists q,
      quantile_walk (sort distance1) target cumulative = Some q /\ dle q q' = true.
Proof.
  intros l target target' cum q' Hn Ht H.
  apply (quantile_walk_sorted_monotone (sort l) target target'); try assumption.
  - now apply sort_sorted.
  - apply Forall_forall. intros p Hp. apply (Permutation_in _ (sort_perm l)) in Hp.
    rewrite Forall_forall in Hn. auto.
Qed.

Lemma larger_target_witness :
  exists q,
    quantile_walk (sort [(Fin 2, Fin 1); (Fin 1, Fin 1)]) (Fin 1) zero = Some q /\
    dle q (Fin 2) = true.
Proof.
  apply (larger_target_gets_larger_quantile
           [(Fin 2, Fin 1); (Fin 1, Fin 1)] (Fin 1) (Fin 2) zero (Fin 2)).
  - repeat constructor.
  - simpl. apply rle_true. lra.
  - run. reflexivity.
Defined.

(** *** An empty reference batch *)

Lemma empty_reference_quantile (d1 d2 v : matrix) (s2 : dbl) (c : nat) :
  get_nrow d1 = get_nrow d2 -> get_ncol d1 = 0%nat ->
  ref_quan (cell_trace_of d1 d2 v s2 c) = NA.
Proof.
  intros Hg Hz. destruct (cell_trace_reference d1 d2 v s2 c Hg) as [[weight Hs] Hq].
  rewrite Hq, Hs, Hz. reflexivity.
Qed.

(** X3.  Without reference cells [adjust_shift_variance] still returns a
    scale factor for every cell of the second batch, and every one of them is
    a NaN: the matched quantile stays the missing value it starts as. *)
Theorem empty_reference_gives_nan :
  forall (check : dbl -> result dbl) (data1 data2 vect : matrix) (sigma s2 : dbl),
    get_nrow data1 = get_nrow data2 ->
    get_nrow data1 = get_ncol vect ->
    get_ncol data2 = get_nrow vect ->
    check sigma = Ok s2 ->
    get_ncol data1 = 0%nat ->
    exists out,
      adjust_shift_variance check data1 data2 vect sigma = Ok out /\
      length out = get_ncol data2 /\
      Forall (fun x => ISNAN x = true) out.
Proof.
  intros check d1 d2 v sigma s2 H1 H2 H3 Hc Hz.
  eexists. split; [exact (adjust_shift_variance_spec check d1 d2 v sigma s2 H1 H2 H3 Hc) |].
  split; [now rewrite length_map, length_seq |].
  apply Forall_forall. intros x Hx. apply in_map_iff in Hx. destruct Hx as [c [<- _]].
  rewrite cell_trace_scaling, empty_reference_quantile by assumption.
  reflexivity.
Qed.

Lemma empty_reference_witness :
  exists out,
    adjust_shift_variance check_numeric_scalar
      Examples.ref0 Examples.query2 Examples.grad2 (Fin 1) = Ok out /\
    length out = 2%nat /\ Forall (fun x => ISNAN x = true) out.
Proof.
  exact (empty_reference_gives_nan check_numeric_scalar Examples.ref0 Examples.query2
           Examples.grad2 (Fin 1) (Fin 1) eq_refl eq_refl eq_refl
           check_numeric_scalar_one eq_refl).
Defined.

(** *** One gradient vector per cell *)

(** X4.  The scale factor of a cell depends on the gradient matrix through
    the row of that cell only: two calls on the same batches and bandwidth
    whose gradient matrices agree on row [c] return the same element [c],
    whatever the other rows hold. *)
Theorem output_depends_on_own_gradient_row :
  forall (check : dbl -> result dbl) (data1 data2 vect vect' : matrix) (sigma : dbl)
         (out out' : list dbl) (c : nat),
    adjust_shift_variance check data1 data2 vect sigma = Ok out ->
    adjust_shift_variance check data1 data2 vect' sigma = Ok out' ->
    get_row vect' c = get_row vect c ->
    nth_error out' c = nth_error out c.
Proof.
  intros check d1 d2 v v' sigma out out' c Hout Hout' Hrow.
  destruct (adjust_shift_variance_returns check d1 d2 v sigma out Hout)
    as [_ [_ [_ [s2 [Hs2 ->]]]]].
  destruct (adjust_shift_variance_returns check d1 d2 v' sigma out' Hout')
    as [_ [_ [_ [s2' [Hs2' ->]]]]].
  assert (s2' = s2) by congruence. subst s2'.
  rewrite !nth_error_map.
  destruct (nth_error (seq 0 (get_ncol d2)) c) as [c' |] eqn:E; [| reflexivity].
  apply nth_error_seq_Some in E. destruct E as [-> _]. simpl.
  now rewrite (cell_trace_of_row d1 d2 v v' s2 c Hrow).
Qed.

Lemma own_gradient_row_witness :
  exists out out',
    adjust_shift_variance check_numeric_scalar
      Examples.ref3 Examples.query2 Examples.grad2 (Fin 1) = Ok out /\
    adjust_shift_variance check_numeric_scalar
      Examples.ref3 Examples.query2 Examples.grad2b (Fin 1) = Ok out' /\
    nth_error out' 0 = nth_error out 0.
Proof.
  pose proof (adjust_shift_variance_spec check_numeric_scalar Examples.ref3 Examples.query2
                Examples.grad2 (Fin 1) (Fin 1) eq_refl eq_refl eq_refl
                check_numeric_scalar_one) as H.
  pose proof (adjust_shift_variance_spec check_numeric_scalar Examples.ref3 Examples.query2
                Examples.grad2b (Fin 1) (Fin 1) eq_refl eq_refl eq_refl
                check_numeric_scalar_one) as H'.
  eexists. eexists. split; [exact H |]. split; [exact H' |].
  exact (output_depends_on_own_gradient_row check_numeric_scalar Examples.ref3
           Examples.query2 Examples.grad2 Examples.grad2b (Fin 1) _ _ 0%nat H H' eq_refl).
Defined.

(* ================================================================= *)
(** ** Further properties of [smooth_gaussian_kernel] *)

(** What the averaging block of either file has left when it returns. *)
Lemma vector_build_averages_returns (vect : matrix) (index : list Z) (ncells : nat)
    (st : avg_state) :
  SmoothGaussianKernel.build_averages vect index ncells = Ok st ->
  Forall (in_range ncells) index /\
  StronglySorted Z.lt (mnncell st) /\
  (forall id, In id (mnncell st) <-> In id index) /\
  (forall id, In id index ->
     nth (Z.to_nat id) (averages st) [] = arithmetic_mean (rows_of vect index id)).
Proof.
  intros Hb.
  assert (Hrange : Forall (in_range ncells) index).
  { unfold SmoothGaussianKernel.build_averages in Hb.
    destruct (SmoothGaussianKernel.avg_loop vect index 0 _) as [st1 | e] eqn:Hloop;
      [| discriminate].
    destruct (avg_inv_vector_initial vect ncells) as [Hinv0 Hvec0].
    apply (vector_avg_loop_inv vect ncells index 0 [] _ _ Hinv0 Hvec0 Hloop). }
  destruct (vector_build_averages_spec vect index ncells Hrange)
    as [st' [Hb' [Hsort [Hmem [_ Hmean]]]]].
  assert (st' = st) by congruence. subst st'.
  repeat split; try assumption; try apply Hmem. intros id Hid. apply (Hmean id Hid).
Qed.

Lemma deque_build_averages_returns (vect : matrix) (index : list Z) (st : avg_state) :
  MnnCorrection.build_averages vect index = Ok st ->
  Forall (fun i => 0 <= i)%Z index /\
  StronglySorted Z.lt (mnncell st) /\
  (forall id, In id (mnncell st) <-> In id index) /\
  (forall id, In id index ->
     nth (Z.to_nat id) (averages st) [] = arithmetic_mean (rows_of vect index id)).
Proof.
  intros Hb.
  assert (Hpos : Forall (fun i => 0 <= i)%Z index).
  { unfold MnnCorrection.build_averages in Hb.
    destruct (MnnCorrection.avg_loop vect index 0 _) as [st1 | e] eqn:Hloop;
      [| discriminate].
    destruct (avg_inv_deque_initial vect) as [Hinv0 Hdeq0].
    apply (deque_avg_loop_inv vect index 0 [] _ _ Hinv0 Hdeq0 Hloop). }
  destruct (deque_build_averages_spec vect index Hpos)
    as [st' [Hb' [Hsort [Hmem Hmean]]]].
  assert (st' = st) by congruence. subst st'.
  repeat split; try assumption; try apply Hmem. intros id Hid. apply (Hmean id Hid).
Qed.

(** The stages of a call that returns. *)
Lemma vector_smooth_returns (check : dbl -> result dbl) (vect : matrix) (index : list Z)
    (data : matrix) (sigma : dbl) (out : list (list dbl)) :
  SmoothGaussianKernel.smooth_gaussian_kernel check vect index data sigma = Ok out ->
  get_nrow vect = length index /\
  exists s2 st acc,
    check sigma = Ok s2 /\
    SmoothGaussianKernel.build_averages vect index (get_ncol data) = Ok st /\
    SmoothGaussianKernel.smooth_sums data s2 st (get_ncol vect) = Ok acc /\
    out = Kernel.divide_by_total (fst acc) (snd acc).
Proof.
  unfold SmoothGaussianKernel.smooth_gaussian_kernel. intros H.
  destruct (Nat.eqb_spec (get_nrow vect) (length index)) as [E | N];
    cbn [negb] in H; [| discriminate].
  destruct (check sigma) as [s2 | e] eqn:Hc; cbn [bind] in H; [| discriminate].
  destruct (SmoothGaussianKernel.build_averages vect index (get_ncol data)) as [st | e]
    eqn:Hb; cbn [bind] in H; [| discriminate].
  destruct (SmoothGaussianKernel.smooth_sums data s2 st (get_ncol vect)) as [acc | e]
    eqn:Hs; cbn [bind] in H; [| discriminate].
  inversion H. split; [exact E |]. exists s2, st, acc. auto.
Qed.

Lemma deque_smooth_returns (check : dbl -> result dbl) (vect : matrix) (index : list Z)
    (data : matrix) (sigma : dbl) (out : list (list dbl)) :
  MnnCorrection.smooth_gaussian_kernel check vect index data sigma = Ok out ->
  get_nrow vect = length index /\
  exists s2 st acc,
    check sigma = Ok s2 /\
    MnnCorrection.build_averages vect index = Ok st /\
    MnnCorrection.smooth_sums data s2 st (get_ncol vect) = Ok acc /\
    out = Kernel.divide_by_total (fst acc) (snd acc).
Proof.
  unfold MnnCorrection.smooth_gaussian_kernel. intros H.
  destruct (Nat.eqb_spec (get_nrow vect) (length index)) as [E | N];
    cbn [negb] in H; [| discriminate].
  destruct (MnnCorrection.build_averages vect index) as [st | e] eqn:Hb;
    cbn [bind] in H; [| discriminate].
  destruct (check sigma) as [s2 | e] eqn:Hc; cbn [bind] in H; [| discriminate].
  destruct (MnnCorrection.smooth_sums data s2 st (get_ncol vect)) as [acc | e] eqn:Hs;
    cbn [bind] in H; [| discriminate].
  inversion H. split; [exact E |]. exists s2, st, acc. auto.
Qed.

(** *** The shape of the smoothed matrix *)

(** X5.  The matrix that [smooth_gaussian_kernel] returns, in either file,
    has a column for every cell of [data], and every column has as many
    entries as the correction vectors have (the columns of [vect], not the
    rows of [data]). *)
Theorem smoothed_matrix_shape :
  forall (check : dbl -> result dbl) (vect : matrix) (index : list Z) (data : matrix)
         (sigma : dbl) (out : list (list dbl)),
    MnnCorrection.smooth_gaussian_kernel check vect index data sigma = Ok out \/
    SmoothGaussianKernel.smooth_gaussian_kernel check vect index data sigma = Ok out ->
    length out = get_ncol data /\
    Forall (fun col => length col = get_ncol vect) out.
Proof.
  intros check vect index data sigma out [H | H].
  - destruct (deque_smooth_returns check vect index data sigma out H)
      as [_ [s2 [st [acc [_ [Hb [Hs ->]]]]]]].
    destruct (deque_build_averages_returns vect index st Hb) as [_ [_ [Hmem Hmean]]].
    apply divide_by_total_shape.
    apply (smooth_sums_shape data s2 st (get_ncol vect) acc (or_introl Hs)).
    intros mnn Hin. apply Hmem in Hin. rewrite (Hmean mnn Hin).
    now apply arithmetic_mean_length.
  - destruct (vector_smooth_returns check vect index data sigma out H)
      as [_ [s2 [st [acc [_ [Hb [Hs ->]]]]]]].
    destruct (vector_build_averages_returns vect index (get_ncol data) st Hb)
      as [_ [_ [Hmem Hmean]]].
    apply divide_by_total_shape.
    apply (smooth_sums_shape data s2 st (get_ncol vect) acc (or_intror Hs)).
    intros mnn Hin. apply Hmem in Hin. rewrite (Hmean mnn Hin).
    now apply arithmetic_mean_length.
Qed.

Lemma smoothed_matrix_shape_witness :
  length [[Fin 6; Fin 6]; [Fin 6; Fin 6]] = get_ncol Examples.data_same /\
  Forall (fun col => length col = get_ncol Examples.vect3) [[Fin 6; Fin 6]; [Fin 6; Fin 6]].
Proof.
  exact (smoothed_matrix_shape check_numeric_scalar Examples.vect3 Examples.index3
           Examples.data_same (Fin 1) _
           (or_intror (proj1 smooth_gaussian_kernel_two_anchors))).
Defined.

(** *** No anchor at all *)

Lemma divide_fresh_output (ngenes ncells : nat) :
  Kernel.divide_by_total (fst (Kernel.initial_output ngenes ncells))
                         (snd (Kernel.initial_output ngenes ncells)) =
  repeat (repeat NaN ngenes) ncells.
Proof.
  unfold Kernel.divide_by_total, Kernel.initial_output, zip_with. cbn [fst snd].
  assert (Hcol : map (fun val => ddiv val zero) (repeat zero ngenes) = repeat NaN ngenes).
  { induction ngenes as [| g IHg]; cbn [repeat map]; [reflexivity |].
    rewrite IHg. f_equal. unfold zero, ddiv, signed_inf.
    now rewrite !req_true by reflexivity. }
  induction ncells as [| n IH]; cbn [repeat combine map fst snd]; [reflexivity |].
  now rewrite IH, Hcol.
Qed.

(** X6.  Without a correction vector (an empty anchor index and a [vect] of
    no row) [smooth_gaussian_kernel] raises nothing, in either file: no round
    of the smoothing loop runs, and the zeros of the fresh output are divided
    by the zeros of the fresh total weights, so that the matrix returned holds
    a NaN in every entry. *)
Theorem no_anchor_gives_nan_matrix :
  forall (check : dbl -> result dbl) (vect data : matrix) (sigma s2 : dbl),
    get_nrow vect = 0%nat ->
    check sigma = Ok s2 ->
    MnnCorrection.smooth_gaussian_kernel check vect [] data sigma =
      Ok (repeat (repeat NaN (get_ncol vect)) (get_ncol data)) /\
    SmoothGaussianKernel.smooth_gaussian_kernel check vect [] data sigma =
      Ok (repeat (repeat NaN (get_ncol vect)) (get_ncol data)).
Proof.
  intros check vect data sigma s2 Hz Hc.
  unfold MnnCorrection.smooth_gaussian_kernel, SmoothGaussianKernel.smooth_gaussian_kernel.
  rewrite Hz. cbn [length Nat.eqb negb]. rewrite Hc.
  unfold MnnCorrection.build_averages, SmoothGaussianKernel.build_averages.
  cbn [MnnCorrection.avg_loop SmoothGaussianKernel.avg_loop bind].
  unfold divide_averages. cbn [mnncell fold_left].
  unfold MnnCorrection.smooth_sums, SmoothGaussianKernel.smooth_sums.
  cbn [mnncell foldM bind].
  now rewrite divide_fresh_output.
Qed.

Lemma no_anchor_witness :
  SmoothGaussianKernel.smooth_gaussian_kernel check_numeric_scalar
    Examples.vect0 [] Examples.data2 (Fin 1) = Ok [[NaN; NaN]; [NaN; NaN]].
Proof.
  exact (proj2 (no_anchor_gives_nan_matrix check_numeric_scalar Examples.vect0
                  Examples.data2 (Fin 1) (Fin 1) eq_refl check_numeric_scalar_one)).
Defined.

(** *** The cells are read through their distances *)

Lemma smooth_pass_distances (data data' : matrix) (s2 : dbl) (st : avg_state) (mnn : Z)
    (acc : list (list dbl) * list dbl) :
  get_ncol data' = get_ncol data ->
  (in_range (get_ncol data) mnn ->
   forall o, (o < get_ncol data)%nat ->
     Kernel.sq_dist (get_col data' (Z.to_nat mnn)) (get_col data' o) =
     Kernel.sq_dist (get_col data (Z.to_nat mnn)) (get_col data o)) ->
  MnnCorrection.smooth_pass data' s2 st mnn acc = MnnCorrection.smooth_pass data s2 st mnn acc /\
  SmoothGaussianKernel.smooth_pass data' s2 st mnn acc =
  SmoothGaussianKernel.smooth_pass data s2 st mnn acc.
Proof.
  intros Hn Hd.
  unfold MnnCorrection.smooth_pass, SmoothGaussianKernel.smooth_pass.
  assert (Hdec : in_range (get_ncol data) mnn \/ ~ in_range (get_ncol data) mnn)
    by (unfold in_range; lia).
  destruct Hdec as [Hin | Hout].
  - rewrite (get_const_col_ok data mnn Hin).
    rewrite (get_const_col_ok data' mnn) by (now rewrite Hn).
    cbn [bind]. rewrite !log_probabilities_agree.
    assert (E : SmoothGaussianKernel.log_probabilities data' s2 (get_col data' (Z.to_nat mnn)) =
                SmoothGaussianKernel.log_probabilities data s2 (get_col data (Z.to_nat mnn))).
    { unfold SmoothGaussianKernel.log_probabilities. rewrite Hn.
      apply map_ext_in. intros o Ho. apply in_seq in Ho.
      rewrite (Hd Hin o) by lia. reflexivity. }
    rewrite E. split; reflexivity.
  - rewrite (get_const_col_err data mnn Hout).
    rewrite (get_const_col_err data' mnn) by (now rewrite Hn).
    split; reflexivity.
Qed.

Lemma smooth_depends_on_distances (check : dbl -> result dbl) (vect : matrix)
    (index : list Z) (data data' : matrix) (sigma : dbl) :
  get_ncol data' = get_ncol data ->
  (forall a o, In a index -> in_range (get_ncol data) a -> (o < get_ncol data)%nat ->
     Kernel.sq_dist (get_col data' (Z.to_nat a)) (get_col data' o) =
     Kernel.sq_dist (get_col data (Z.to_nat a)) (get_col data o)) ->
  MnnCorrection.smooth_gaussian_kernel check vect index data' sigma =
  MnnCorrection.smooth_gaussian_kernel check vect index data sigma /\
  SmoothGaussianKernel.smooth_gaussian_kernel check vect index data' sigma =
  SmoothGaussianKernel.smooth_gaussian_kernel check vect index data sigma.
Proof.
  intros Hn Hd.
  unfold MnnCorrection.smooth_gaussian_kernel, SmoothGaussianKernel.smooth_gaussian_kernel.
  destruct (negb (get_nrow vect =? length index)%nat); [split; reflexivity |].
  rewrite Hn. split.
  - destruct (MnnCorrection.build_averages vect index) as [st | e] eqn:Hb;
      cbn [bind]; [| reflexivity].
    destruct (check sigma) as [s2 | e]; cbn [bind]; [| reflexivity].
    destruct (deque_build_averages_returns vect index st Hb) as [_ [_ [Hmem _]]].
    assert (E : MnnCorrection.smooth_sums data' s2 st (get_ncol vect) =
                MnnCorrection.smooth_sums data s2 st (get_ncol vect)).
    { unfold MnnCorrection.smooth_sums. rewrite Hn. apply foldM_ext.
      intros mnn Hin acc. apply smooth_pass_distances; [exact Hn |].
      intros Hr o Ho. apply Hd; try assumption. now apply Hmem. }
    now rewrite E.
  - destruct (check sigma) as [s2 | e]; cbn [bind]; [| reflexivity].
    destruct (SmoothGaussianKernel.build_averages vect index (get_ncol data)) as [st | e]
      eqn:Hb; cbn [bind]; [| reflexivity].
    destruct (vector_build_averages_returns vect index (get_ncol data) st Hb)
      as [_ [_ [Hmem _]]].
    assert (E : SmoothGaussianKernel.smooth_sums data' s2 st (get_ncol vect) =
                SmoothGaussianKernel.smooth_sums data s2 st (get_ncol vect)).
    { unfold SmoothGaussianKernel.smooth_sums. rewrite Hn. apply foldM_ext.
      intros mnn Hin acc. apply smooth_pass_distances; [exact Hn |].
      intros Hr o Ho. apply Hd; try assumption. now apply Hmem. }
    now rewrite E.
Qed.

(** X7.  [smooth_gaussian_kernel] reads the cells of [data] through the
    squared distances between an anchor and a cell, and through nothing else:
    two matrices with as many cells, in which every cell lies as far from
    every anchor, give the same result (the same matrix or the same error),
    in either file. *)
Theorem smoothing_reads_data_through_distances :
  forall (check : dbl -> result dbl) (vect : matrix) (index : list Z)
         (data data' : matrix) (sigma : dbl),
    get_ncol data' = get_ncol data ->
    (forall a o, In a index -> in_range (get_ncol data) a -> (o < get_ncol data)%nat ->
       Kernel.sq_dist (get_col data' (Z.to_nat a)) (get_col data' o) =
       Kernel.sq_dist (get_col data (Z.to_nat a)) (get_col data o)) ->
    MnnCorrection.smooth_gaussian_kernel check vect index data' sigma =
    MnnCorrection.smooth_gaussian_kernel check vect index data sigma /\
    SmoothGaussianKernel.smooth_gaussian_kernel check vect index data' sigma =
    SmoothGaussianKernel.smooth_gaussian_kernel check vect index data sigma.
Proof.
  intros check vect index data data' sigma Hn Hd.
  now apply smooth_depends_on_distances.
Qed.

Lemma smoothing_distances_witness :
  SmoothGaussianKernel.smooth_gaussian_kernel check_numeric_scalar
    Examples.vect3 Examples.index3 Examples.data2_moved (Fin 1) =
  SmoothGaussianKernel.smooth_gaussian_kernel check_numeric_scalar
    Examples.vect3 Examples.index3 Examples.data2 (Fin 1).
Proof.
  apply (smoothing_reads_data_through_distances check_numeric_scalar Examples.vect3
           Examples.index3 Examples.data2 Examples.data2_moved (Fin 1) eq_refl).
  intros a o _ Ha Ho. unfold in_range in Ha. simpl in Ha, Ho.
  assert (Ea : a = 0%Z \/ a = 1%Z) by lia.
  assert (Eo : o = 0%nat \/ o = 1%nat) by lia.
  destruct Ea as [-> | ->], Eo as [-> | ->]; run; f_equal; lra.
Defined.

(* ================================================================= *)
(** ** The distance to a line *)

(** A square added to a sum of squares. *)
Lemma square_added (acc x : dbl) :
  is_sum_of_squares acc -> is_sum_of_squares (dadd acc (dmul x x)).
Proof.
  destruct acc as [a | | | |], x as [b | | | |]; simpl; intros H; try exact I; try contradiction.
  nra.
Qed.

Lemma line_residual_is_sum_of_squares (scale : dbl) (working grad : list dbl) :
  forall dist, is_sum_of_squares dist ->
               is_sum_of_squares (fst (line_residual scale working grad dist)).
Proof.
  revert grad. induction working as [| w ws IH]; intros grad dist H; simpl; [exact H |].
  destruct grad as [| g gs]; simpl; [exact H |].
  apply IH. now apply square_added.
Qed.

Lemma sq_distance_is_sum_of_squares (ref grad point working : list dbl) :
  is_sum_of_squares (fst (sq_distance_to_line ref grad point working)).
Proof.
  unfold sq_distance_to_line. apply line_residual_is_sum_of_squares. simpl. lra.
Qed.

(** X9.  [sq_distance_to_line] never returns a negative number, whatever the
    vectors hold (infinities and NaN included), whatever their lengths, and
    whatever [working] holds on entry: the comparison of its result with
    zero is false, the result being a sum of squares, so a number that is not
    negative, +Inf or a NaN. *)
Theorem sq_distance_to_line_is_never_negative :
  forall (ref grad point working : list dbl),
    dlt (fst (sq_distance_to_line ref grad point working)) zero = false.
Proof.
  intros ref grad point working.
  pose proof (sq_distance_is_sum_of_squares ref grad point working) as H.
  destruct (fst (sq_distance_to_line ref grad point working)) as [d | | | |];
    simpl in *; try reflexivity; try contradiction.
  apply rlt_false. lra.
Qed.

(* ================================================================= *)
(** ** The weights of [adjust_shift_variance] *)

(** The weight of a cell at a squared distance, with a positive bandwidth. *)
Lemma kernel_weight (dist : dbl) (s2 : R) :
  is_sum_of_squares dist -> 0 < s2 -> is_weight (dexp (ddiv (dneg dist) (Fin s2))).
Proof.
  intros Hd Hs. destruct dist as [d | | | |]; simpl in *.
  - rewrite req_false by lra. simpl. right. eexists. split; [reflexivity |].
    split; [left; apply exp_pos |].
    assert (Hinv : 0 < / s2) by now apply Rinv_0_lt_compat.
    assert (Hle : - d / s2 <= 0) by (unfold Rdiv; nra).
    rewrite <- exp_0. destruct Hle as [Hlt | E].
    + left. now apply exp_increasing.
    + rewrite E. lra.
  - rewrite rlt_false by lra. simpl. right. exists 0. split; [reflexivity | lra].
  - contradiction.
  - now left.
  - now left.
Qed.

Lemma partial_sums_own (lo : R) (p t : dbl) :
  0 <= lo -> partial_sums lo p t -> partial_sums 1 (dadd p one) (dadd t one).
Proof.
  intros Hl [H | [p' [t' [-> [-> Hb]]]]].
  - left. now apply dadd_nan_left.
  - right. exists (p' + 1), (t' + 1). repeat split; lra.
Qed.

Lemma partial_sums_weight (lo : R) (p t w : dbl) (counted : bool) :
  0 <= lo -> is_weight w -> partial_sums lo p t ->
  partial_sums lo (if counted then dadd p w else p) (dadd t w).
Proof.
  intros Hl Hw [H | [p' [t' [-> [-> Hb]]]]].
  - left. now apply dadd_nan_left.
  - destruct Hw as [Hw | [e [-> He]]].
    + left. now apply dadd_nan_right.
    + right. destruct counted.
      * exists (p' + e), (t' + e). repeat split; lra.
      * exists p', (t' + e). repeat split; lra.
Qed.

Lemma same_step_partial_sums (d2 : matrix) (s2 : R) (grad curcell : list dbl) (cp : dbl)
    (cell same : nat) (lo : R) (p t : dbl) (w : list dbl) :
  0 < s2 -> 0 <= lo -> partial_sums lo p t ->
  let r := same_step d2 (Fin s2) grad curcell cp cell (p, t, w) same in
  partial_sums lo (fst (fst r)) (snd (fst r)) /\
  (same = cell -> partial_sums 1 (fst (fst r)) (snd (fst r))).
Proof.
  intros Hs Hl H. unfold same_step.
  destruct (Nat.eqb_spec same cell) as [E | N]; cbn [fst snd].
  - pose proof (partial_sums_own lo p t Hl H) as H1. split; [| intros _; exact H1].
    destruct H as [H | [p' [t' [-> [-> Hb]]]]].
    + left. now apply dadd_nan_left.
    + right. exists (p' + 1), (t' + 1). repeat split; lra.
  - split; [| intros E; contradiction].
    apply partial_sums_weight; [exact Hl | | exact H].
    apply kernel_weight; [apply sq_distance_is_sum_of_squares | exact Hs].
Qed.

(** The loop over the cells of the own batch; once the cell itself is
    passed, [prob2] is at least 1. *)
Lemma same_loop_partial_sums (d2 : matrix) (s2 : R) (grad curcell : list dbl) (cp : dbl)
    (cell : nat) (cells : list nat) :
  0 < s2 ->
  forall (lo : R) (p t : dbl) (w : list dbl),
    0 <= lo -> partial_sums lo p t ->
    let r := fold_left (same_step d2 (Fin s2) grad curcell cp cell) cells (p, t, w) in
    partial_sums lo (fst (fst r)) (snd (fst r)) /\
    (In cell cells -> partial_sums 1 (fst (fst r)) (snd (fst r))).
Proof.
  intros Hs. induction cells as [| same rest IH]; intros lo p t w Hl H; cbn [fold_left].
  - split; [exact H | intros []].
  - destruct (same_step_partial_sums d2 s2 grad curcell cp cell same lo p t w Hs Hl H)
      as [H1 H2].
    destruct (same_step d2 (Fin s2) grad curcell cp cell (p, t, w) same) as [[p1 t1] w1].
    cbn [fst snd] in H1, H2.
    destruct (IH lo p1 t1 w1 Hl H1) as [Hlo Hin1].
    split; [exact Hlo |].
    intros [E | Hin]; [| exact (Hin1 Hin)].
    assert (H01 : 0 <= 1) by lra.
    exact (proj1 (IH 1 p1 t1 w1 H01 (H2 E))).
Qed.

Lemma quotient_of_partial_sums (p t : dbl) :
  partial_sums 1 p t -> is_probability (ddiv p t).
Proof.
  intros [H | [p' [t' [-> [-> Hb]]]]].
  - left. now apply ddiv_nan_right.
  - right. simpl. rewrite req_false by lra. eexists. split; [reflexivity |].
    assert (Ht : 0 < t') by lra. split.
    + apply Rdiv_lt_0_compat; lra.
    + apply (Rmult_le_reg_r t'); [exact Ht |]. unfold Rdiv.
      rewrite Rmult_assoc, Rinv_l by lra. lra.
Qed.

(** X11.  In the round of a cell of [adjust_shift_variance] with a positive
    bandwidth, whatever the batches and the gradient hold: the weight of
    every reference cell is a NaN or a number from 0 to 1, and the cumulative
    probability [prob2] of the cell in its own batch is a NaN or a number
    above 0 and at most 1. *)
Theorem weights_lie_between_zero_and_one :
  forall (data1 data2 vect : matrix) (s2 : R) (c : nat),
    get_nrow data1 = get_nrow data2 ->
    0 < s2 ->
    (c < get_ncol data2)%nat ->
    let t := cell_trace_of data1 data2 vect (Fin s2) c in
    is_probability (prob2 t) /\
    Forall (fun q => is_weight (snd q)) (sorted1 t).
Proof.
  intros d1 d2 v s2 c Hg Hs Hc t.
  destruct (cell_trace_stages d1 d2 v (Fin s2) c Hg) as [Hp [_ Hsorted]].
  fold t in Hp, Hsorted. split.
  - rewrite Hp. apply quotient_of_partial_sums.
    destruct (same_loop_partial_sums d2 s2 (unit_grad t) (get_col d2 c) (curproj t) c
                (seq 0 (get_ncol d2)) Hs 0 zero zero (repeat zero (get_nrow d1)))
      as [_ Hone].
    { lra. }
    { right. exists 0, 0. unfold zero. repeat split; lra. }
    apply Hone, in_seq. lia.
  - rewrite Hsorted. apply Forall_forall. intros q Hq.
    apply (Permutation_in _ (sort_perm _)) in Hq.
    apply in_map_iff in Hq. destruct Hq as [o [<- _]]. cbn [snd].
    apply kernel_weight; [apply sq_distance_is_sum_of_squares | exact Hs].
Qed.

Lemma weights_witness :
  get_nrow Examples.ref3 = get_nrow Examples.query2 /\
  is_probability
    (prob2 (cell_trace_of Examples.ref3 Examples.query2 Examples.grad2 (Fin 1) 0)).
Proof.
  assert (Hs : 0 < 1) by lra.
  assert (Hc : (0 < get_ncol Examples.query2)%nat) by (simpl; lia).
  split; [reflexivity |].
  exact (proj1 (weights_lie_between_zero_and_one Examples.ref3 Examples.query2
                  Examples.grad2 1 0%nat eq_refl Hs Hc)).
Defined.

(* ================================================================= *)
(** ** The cell with the largest projection *)

(** When every other cell is counted, [prob2] and [totalprob2] receive the
    same terms. *)
Lemma same_loop_all_counted (d2 : matrix) (s2 : dbl) (grad curcell : list dbl) (cp : dbl)
    (cell : nat) (cells : list nat) :
  (forall same, In same cells -> same <> cell ->
     dle (inner_product grad (get_col d2 same) zero) cp = true) ->
  forall (x : dbl) (w : list dbl),
    let r := fold_left (same_step d2 s2 grad curcell cp cell) cells (x, x, w) in
    fst (fst r) = snd (fst r).
Proof.
  induction cells as [| same rest IH]; intros Hall x w; cbn [fold_left]; [reflexivity |].
  assert (Hst : exists y w',
             same_step d2 s2 grad curcell cp cell (x, x, w) same = (y, y, w')).
  { unfold same_step. destruct (Nat.eqb_spec same cell) as [E | N]; [eauto |].
    rewrite (Hall same (or_introl eq_refl) N). eauto. }
  destruct Hst as [y [w' ->]].
  apply IH. intros s Hs. apply Hall. now right.
Qed.

(** X12.  With a positive bandwidth, a cell whose projection on its unit
    gradient is not exceeded by that of any other cell of its batch has the
    cumulative probability [prob2] 1 (or a NaN, when a weight is a NaN): its
    target is the total weight of the reference batch. *)
Theorem top_cell_has_probability_one :
  forall (data1 data2 vect : matrix) (s2 : R) (c : nat),
    get_nrow data1 = get_nrow data2 ->
    0 < s2 ->
    (c < get_ncol data2)%nat ->
    let t := cell_trace_of data1 data2 vect (Fin s2) c in
    (forall same, (same < get_ncol data2)%nat -> same <> c ->
       dle (inner_product (unit_grad t) (get_col data2 same) zero) (curproj t) = true) ->
    prob2 t = one \/ ISNAN (prob2 t) = true.
Proof.
  intros d1 d2 v s2 c Hg Hs Hc t Htop.
  destruct (cell_trace_stages d1 d2 v (Fin s2) c Hg) as [Hp _].
  fold t in Hp. rewrite Hp.
  pose proof (same_loop_all_counted d2 (Fin s2) (unit_grad t) (get_col d2 c) (curproj t) c
                (seq 0 (get_ncol d2))) as Heq.
  specialize (Heq ltac:(intros s Hin; apply in_seq in Hin; apply Htop; lia)
                  zero (repeat zero (get_nrow d1))).
  cbv zeta in Heq.
  destruct (same_loop_partial_sums d2 s2 (unit_grad t) (get_col d2 c) (curproj t) c
              (seq 0 (get_ncol d2)) Hs 0 zero zero (repeat zero (get_nrow d1)))
    as [_ Hone].
  { lra. }
  { right. exists 0, 0. unfold zero. repeat split; lra. }
  specialize (Hone ltac:(apply in_seq; lia)). rewrite Heq in *.
  destruct Hone as [Hn | [p' [t' [Ep [Et Hb]]]]].
  - right. now apply ddiv_nan_right.
  - left. rewrite Et in *. simpl. rewrite req_false by lra. unfold one. f_equal.
    field. lra.
Qed.

Lemma top_cell_probability_witness :
  get_nrow Examples.ref3 = get_nrow Examples.query2 /\
  (prob2 (cell_trace_of Examples.ref3 Examples.query2 Examples.grad2c (Fin 1) 1) = one \/
   ISNAN (prob2 (cell_trace_of Examples.ref3 Examples.query2 Examples.grad2c (Fin 1) 1)) = true).
Proof.
  assert (Hs : 0 < 1) by lra.
  assert (Hc : (1 < get_ncol Examples.query2)%nat) by (simpl; lia).
  split; [reflexivity |].
  apply (top_cell_has_probability_one Examples.ref3 Examples.query2 Examples.grad2c 1 1%nat
           eq_refl Hs Hc).
  intros same Hsame Hne. simpl in Hsame.
  assert (same = 0%nat) by lia. subst same.
  rewrite cell_trace_curproj. cbv zeta.
  rewrite cell_trace_unit_grad, cell_trace_l2norm. run. sqrt_values. rdecide. reflexivity.
Defined.

(* ================================================================= *)
(** ** Values that are not numbers *)

(** A NaN in the bandwidth or in the column of the anchor makes all the
    logged probabilities of its round NaN. *)
Lemma nan_probabilities (data : matrix) (s2 : dbl) (a : nat) :
  ISNAN s2 = true \/
  (exists r, (r < get_nrow data)%nat /\ ISNAN (cell data r a) = true) ->
  Forall (fun d => ISNAN d = true)
         (SmoothGaussianKernel.log_probabilities data s2 (get_col data a)).
Proof.
  intros H. unfold SmoothGaussianKernel.log_probabilities.
  apply Forall_forall. intros d Hd. apply in_map_iff in Hd. destruct Hd as [o [<- _]].
  destruct H as [Hs | [r [Hr Hna]]].
  - apply ddiv_nan_right. now apply dneg_nan.
  - apply ddiv_nan_left. apply (sq_dist_nan _ _ r).
    + now rewrite get_col_length.
    + now rewrite get_col_length.
    + unfold get_col. rewrite nth_indep with (d' := cell data 0 a)
        by (rewrite length_map, length_seq; lia).
      rewrite (map_nth (fun r => cell data r a)). now rewrite seq_nth by lia.
Qed.

Lemma smooth_pass_spoiled (data : matrix) (s2 : dbl) (st : avg_state) (mnn : Z)
    (acc acc' : list (list dbl) * list dbl) :
  MnnCorrection.smooth_pass data s2 st mnn acc = Ok acc' \/
  SmoothGaussianKernel.smooth_pass data s2 st mnn acc = Ok acc' ->
  ISNAN s2 = true \/
  (exists r, (r < get_nrow data)%nat /\ ISNAN (cell data r (Z.to_nat mnn)) = true) ->
  all_nan acc'.
Proof.
  unfold MnnCorrection.smooth_pass, SmoothGaussianKernel.smooth_pass.
  destruct (get_const_col data mnn) as [col | e] eqn:Ecol; cbn [bind];
    [| intros [H | H]; discriminate].
  assert (col = get_col data (Z.to_nat mnn)).
  { unfold get_const_col in Ecol. destruct (_ && _); congruence. }
  subst col. rewrite log_probabilities_agree.
  intros [H | H] Hp.
  - destruct (MnnCorrection.mnn_density _ _) as [d | e]; cbn [bind] in H; [| discriminate].
    inversion H. apply accumulate_poisoned. now apply nan_probabilities.
  - destruct (SmoothGaussianKernel.mnn_density _ _) as [d | e]; cbn [bind] in H;
      [| discriminate].
    inversion H. apply accumulate_poisoned. now apply nan_probabilities.
Qed.

Lemma smooth_sums_spoiled (data : matrix) (s2 : dbl) (st : avg_state) (ngenes : nat)
    (acc : list (list dbl) * list dbl) (a : Z) :
  MnnCorrection.smooth_sums data s2 st ngenes = Ok acc \/
  SmoothGaussianKernel.smooth_sums data s2 st ngenes = Ok acc ->
  In a (mnncell st) ->
  ISNAN s2 = true \/
  (exists r, (r < get_nrow data)%nat /\ ISNAN (cell data r (Z.to_nat a)) = true) ->
  all_nan acc.
Proof.
  unfold MnnCorrection.smooth_sums, SmoothGaussianKernel.smooth_sums.
  intros [H | H] Ha Hp.
  - apply (foldM_reaches all_nan (MnnCorrection.smooth_pass data s2 st) (mnncell st) a Ha)
      with (s := Kernel.initial_output ngenes (get_ncol data)); [| | exact H].
    + intros s s' Hstep. apply (smooth_pass_spoiled data s2 st a s s'); auto.
    + intros b s s' Hstep. apply (smooth_pass_nan data s2 st b s s'). auto.
  - apply (foldM_reaches all_nan (SmoothGaussianKernel.smooth_pass data s2 st) (mnncell st)
             a Ha) with (s := Kernel.initial_output ngenes (get_ncol data)); [| | exact H].
    + intros s s' Hstep. apply (smooth_pass_spoiled data s2 st a s s'); auto.
    + intros b s s' Hstep. apply (smooth_pass_nan data s2 st b s s'). auto.
Qed.

(** X14.  One cell spoils the whole result: when a cell that is an anchor
    has a NaN (or a missing value) in a row of [data], every entry of the
    matrix that [smooth_gaussian_kernel] returns is a NaN, in either file;
    the distances from that anchor are NaN, and so are its weights in every
    column. *)
Theorem nan_at_an_anchor_spoils_every_column :
  forall (check : dbl -> result dbl) (vect : matrix) (index : list Z) (data : matrix)
         (sigma : dbl) (out : list (list dbl)) (a : Z) (r : nat),
    In a index ->
    (r < get_nrow data)%nat ->
    ISNAN (cell data r (Z.to_nat a)) = true ->
    MnnCorrection.smooth_gaussian_kernel check vect index data sigma = Ok out \/
    SmoothGaussianKernel.smooth_gaussian_kernel check vect index data sigma = Ok out ->
    Forall (Forall (fun x => ISNAN x = true)) out.
Proof.
  intros check vect index data sigma out a r Ha Hr Hnan [H | H].
  - destruct (deque_smooth_returns check vect index data sigma out H)
      as [_ [s2 [st [acc [_ [Hb [Hs ->]]]]]]].
    destruct (deque_build_averages_returns vect index st Hb) as [_ [_ [Hmem _]]].
    apply divide_by_total_nan.
    apply (smooth_sums_spoiled data s2 st (get_ncol vect) acc a (or_introl Hs)).
    + now apply Hmem.
    + right. eauto.
  - destruct (vector_smooth_returns check vect index data sigma out H)
      as [_ [s2 [st [acc [_ [Hb [Hs ->]]]]]]].
    destruct (vector_build_averages_returns vect index (get_ncol data) st Hb)
      as [_ [_ [Hmem _]]].
    apply divide_by_total_nan.
    apply (smooth_sums_spoiled data s2 st (get_ncol vect) acc a (or_intror Hs)).
    + now apply Hmem.
    + right. eauto.
Qed.

Lemma nan_at_an_anchor_witness :
  exists out,
    SmoothGaussianKernel.smooth_gaussian_kernel check_numeric_scalar
      Examples.vect3 Examples.index3 Examples.data_nan (Fin 1) = Ok out /\
    Forall (Forall (fun x => ISNAN x = true)) out.
Proof.
  assert (Hr : Forall (in_range (get_ncol Examples.data_nan)) Examples.index3).
  { unfold Examples.index3, in_range. repeat constructor; simpl; lia. }
  destruct (both_return_when_cells check_numeric_scalar Examples.vect3 Examples.index3
              Examples.data_nan (Fin 1) (Fin 1) check_numeric_scalar_one eq_refl Hr)
    as [_ [out Hout]].
  exists out. split; [exact Hout |].
  apply (nan_at_an_anchor_spoils_every_column check_numeric_scalar Examples.vect3
           Examples.index3 Examples.data_nan (Fin 1) out 0%Z 0%nat).
  - now left.
  - simpl. lia.
  - reflexivity.
  - right. exact Hout.
Defined.

(** A NaN among the terms makes the sum of the squares a NaN. *)
Lemma sum_of_squares_nan (l : list dbl) (g : dbl) :
  In g l -> ISNAN g = true ->
  forall acc, ISNAN (fold_left (fun acc g => dadd acc (dmul g g)) l acc) = true.
Proof.
  assert (Hkeep : forall l acc, ISNAN acc = true ->
            ISNAN (fold_left (fun acc g => dadd acc (dmul g g)) l acc) = true).
  { induction l0 as [| x t IH]; intros acc Hacc; cbn [fold_left]; [assumption |].
    apply IH. now apply dadd_nan_left. }
  induction l as [| x t IH]; intros Hin Hnan acc; [destruct Hin |].
  cbn [fold_left]. destruct Hin as [-> | Hin].
  - apply Hkeep. apply dadd_nan_right. now apply dmul_nan_left.
  - now apply IH.
Qed.

(** X15.  A NaN (or a missing value) in the gradient vector of a cell does
    not stop [adjust_shift_variance]: the norm of the vector is a NaN, and so
    is the scale factor of that cell. *)
Theorem nan_in_gradient_gives_nan_scaling :
  forall (check : dbl -> result dbl) (data1 data2 vect : matrix) (sigma : dbl)
         (out : list dbl) (c : nat) (g : dbl),
    adjust_shift_variance check data1 data2 vect sigma = Ok out ->
    (c < get_ncol data2)%nat ->
    In g (get_row vect c) -> ISNAN g = true ->
    exists x, nth_error out c = Some x /\ ISNAN x = true.
Proof.
  intros check d1 d2 v sigma out c g Hout Hc Hin Hnan.
  destruct (adjust_shift_variance_returns check d1 d2 v sigma out Hout)
    as [_ [_ [_ [s2 [_ ->]]]]].
  eexists. split; [now apply nth_error_map_seq |].
  rewrite cell_trace_scaling. apply ddiv_nan_right.
  rewrite cell_trace_l2norm.
  pose proof (sum_of_squares_nan (get_row v c) g Hin Hnan zero) as Hsum.
  now destruct (fold_left _ (get_row v c) zero).
Qed.

Lemma nan_in_gradient_witness :
  exists out x,
    adjust_shift_variance check_numeric_scalar
      Examples.ref3 Examples.query2 Examples.grad_nan (Fin 1) = Ok out /\
    nth_error out 1 = Some x /\ ISNAN x = true.
Proof.
  pose proof (adjust_shift_variance_spec check_numeric_scalar Examples.ref3 Examples.query2
                Examples.grad_nan (Fin 1) (Fin 1) eq_refl eq_refl eq_refl
                check_numeric_scalar_one) as H.
  destruct (nan_in_gradient_gives_nan_scaling check_numeric_scalar Examples.ref3
              Examples.query2 Examples.grad_nan (Fin 1) _ 1%nat NaN H
              ltac:(simpl; lia) ltac:(now left) eq_refl) as [x [Hx Hn]].
  eexists. exists x. split; [exact H |]. split; [exact Hx | exact Hn].
Defined.

(* ================================================================= *)
(** ** A cell that is not an anchor touches its own column only *)

Lemma nth_error_zip_with_eq {A B C : Type} (f : A -> B -> C) (l1 : list A) (l2 : list B)
    (n : nat) :
  nth_error (zip_with f l1 l2) n =
  match nth_error l1 n, nth_error l2 n with
  | Some a, Some b => Some (f a b)
  | _, _ => None
  end.
Proof.
  unfold zip_with. revert l2 n.
  induction l1 as [| x t IH]; intros [| y u] [| n]; simpl; try reflexivity.
  - now destruct (nth_error t n).
  - apply IH.
Qed.

(** Two runs of a loop that start from related states and whose rounds keep
    the relation end in related states. *)
Lemma foldM_related {A S : Type} (R : S -> S -> Prop) (f f' : A -> S -> result S)
    (l : list A) :
  (forall a s s' r r', In a l -> R s s' -> f a s = Ok r -> f' a s' = Ok r' -> R r r') ->
  forall s s' r r',
    R s s' -> foldM f l s = Ok r -> foldM f' l s' = Ok r' -> R r r'.
Proof.
  induction l as [| a t IH]; intros Hstep s s' r r' HR H H'; cbn [foldM] in H, H'.
  - inversion H; inversion H'; now subst.
  - destruct (f a s) as [s1 |] eqn:E; cbn [bind] in H; [| discriminate].
    destruct (f' a s') as [s1' |] eqn:E'; cbn [bind] in H'; [| discriminate].
    apply (IH (fun b u u' v v' Hb => Hstep b u u' v v' (or_intror Hb)) s1 s1');
      try assumption.
    apply (Hstep a s s'); auto. now left.
Qed.

Lemma accumulate_agree_off (k : nat) (distances2 distances2' : list dbl) (density : dbl)
    (correction : list dbl) (acc acc' : list (list dbl) * list dbl) :
  (forall o, o <> k -> nth_error distances2' o = nth_error distances2 o) ->
  agree_off k acc acc' ->
  agree_off k (Kernel.accumulate distances2 density correction acc)
              (Kernel.accumulate distances2' density correction acc').
Proof.
  intros Hd Hacc o Ho. destruct (Hacc o Ho) as [H1 H2].
  unfold Kernel.accumulate. cbn [fst snd].
  rewrite !nth_error_zip_with_eq, !nth_error_map, H1, H2, (Hd o Ho). auto.
Qed.

Lemma get_col_off (data data' : matrix) (k c : nat) :
  get_nrow data' = get_nrow data ->
  (forall r c, c <> k -> cell data' r c = cell data r c) ->
  c <> k -> get_col data' c = get_col data c.
Proof.
  intros Hn Hcells Hc. unfold get_col. rewrite Hn.
  apply map_ext. intros r. now apply Hcells.
Qed.

Lemma log_probabilities_off (data data' : matrix) (s2 : dbl) (k a : nat) :
  get_nrow data' = get_nrow data -> get_ncol data' = get_ncol data ->
  (forall r c, c <> k -> cell data' r c = cell data r c) ->
  a <> k ->
  forall o, o <> k ->
    nth_error (SmoothGaussianKernel.log_probabilities data' s2 (get_col data' a)) o =
    nth_error (SmoothGaussianKernel.log_probabilities data s2 (get_col data a)) o.
Proof.
  intros Hn Hc Hcells Ha o Ho. unfold SmoothGaussianKernel.log_probabilities.
  rewrite !nth_error_map, Hc, (get_col_off data data' k a Hn Hcells Ha).
  destruct (nth_error (seq 0 (get_ncol data)) o) as [o' |] eqn:E; [| reflexivity].
  apply nth_error_seq_Some in E. destruct E as [-> _]. cbn [option_map].
  now rewrite (get_col_off data data' k (0 + o) Hn Hcells).
Qed.

Lemma at_index_off (k : nat) (l l' : list dbl) (a : Z) :
  (forall o, o <> k -> nth_error l' o = nth_error l o) ->
  a <> Z.of_nat k -> at_index l' a = at_index l a.
Proof.
  intros H Ha. unfold at_index. destruct (Z.ltb_spec a 0); [reflexivity |].
  rewrite H; [reflexivity | lia].
Qed.

(** The density reads the logged probabilities of the anchors only. *)
Lemma densities_off (k : nat) (l l' : list dbl) (cells : list Z) :
  (forall o, o <> k -> nth_error l' o = nth_error l o) ->
  ~ In (Z.of_nat k) cells ->
  MnnCorrection.mnn_density l' cells = MnnCorrection.mnn_density l cells /\
  SmoothGaussianKernel.mnn_density l' cells = SmoothGaussianKernel.mnn_density l cells.
Proof.
  intros H Hk.
  unfold MnnCorrection.mnn_density, SmoothGaussianKernel.mnn_density. split.
  - apply foldM_ext. intros a Ha s. unfold MnnCorrection.density_step.
    rewrite (at_index_off k l l' a H); [reflexivity |]. intros E. apply Hk. now rewrite <- E.
  - f_equal. apply foldM_ext. intros a Ha s. unfold SmoothGaussianKernel.density_step.
    rewrite (at_index_off k l l' a H); [reflexivity |]. intros E. apply Hk. now rewrite <- E.
Qed.

Lemma smooth_pass_off (data data' : matrix) (s2 : dbl) (st : avg_state) (k : nat) (mnn : Z)
    (acc acc' r r' : list (list dbl) * list dbl) :
  get_nrow data' = get_nrow data -> get_ncol data' = get_ncol data ->
  (forall r c, c <> k -> cell data' r c = cell data r c) ->
  ~ In (Z.of_nat k) (mnncell st) -> In mnn (mnncell st) ->
  agree_off k acc acc' ->
  (MnnCorrection.smooth_pass data s2 st mnn acc = Ok r /\
   MnnCorrection.smooth_pass data' s2 st mnn acc' = Ok r') \/
  (SmoothGaussianKernel.smooth_pass data s2 st mnn acc = Ok r /\
   SmoothGaussianKernel.smooth_pass data' s2 st mnn acc' = Ok r') ->
  agree_off k r r'.
Proof.
  intros Hn Hc Hcells Hk Hin Hacc.
  unfold MnnCorrection.smooth_pass, SmoothGaussianKernel.smooth_pass.
  assert (Hdec : in_range (get_ncol data) mnn \/ ~ in_range (get_ncol data) mnn)
    by (unfold in_range; lia).
  destruct Hdec as [Hr | Hr];
    [| rewrite (get_const_col_err data mnn Hr); cbn [bind];
       intros [[H _] | [H _]]; discriminate H].
  rewrite (get_const_col_ok data mnn Hr).
  rewrite (get_const_col_ok data' mnn) by (now rewrite Hc). cbn [bind].
  rewrite !log_probabilities_agree.
  assert (Ha : Z.to_nat mnn <> k).
  { intros E. apply Hk. unfold in_range in Hr. subst k. now rewrite Z2Nat.id by lia. }
  pose proof (log_probabilities_off data data' s2 k (Z.to_nat mnn) Hn Hc Hcells Ha) as Hd.
  destruct (densities_off k _ _ (mnncell st) Hd Hk) as [E1 E2].
  rewrite E1, E2. clear E1 E2.
  destruct (MnnCorrection.mnn_density _ _) as [dA |];
    destruct (SmoothGaussianKernel.mnn_density _ _) as [dB |]; cbn [bind];
    intros [[H H'] | [H H']]; try discriminate H;
    inversion H; inversion H'; now apply accumulate_agree_off.
Qed.

Lemma divide_by_total_off (k : nat) (acc acc' : list (list dbl) * list dbl) :
  agree_off k acc acc' ->
  forall o, o <> k ->
    nth_error (Kernel.divide_by_total (fst acc') (snd acc')) o =
    nth_error (Kernel.divide_by_total (fst acc) (snd acc)) o.
Proof.
  intros H o Ho. destruct (H o Ho) as [H1 H2].
  unfold Kernel.divide_by_total. now rewrite !nth_error_zip_with_eq, H1, H2.
Qed.

(** X17.  The cells that are not anchors do not see each other: when two
    matrices [data] differ in column [k] only, and cell [k] is no anchor, the
    matrices that [smooth_gaussian_kernel] returns for them have the same
    columns but for column [k], in either file. *)
Theorem other_cells_do_not_change_a_column :
  forall (check : dbl -> result dbl) (vect : matrix) (index : list Z)
         (data data' : matrix) (sigma : dbl) (out out' : list (list dbl)) (k : nat),
    get_nrow data' = get_nrow data -> get_ncol data' = get_ncol data ->
    (forall r c, c <> k -> cell data' r c = cell data r c) ->
    ~ In (Z.of_nat k) index ->
    (MnnCorrection.smooth_gaussian_kernel check vect index data sigma = Ok out /\
     MnnCorrection.smooth_gaussian_kernel check vect index data' sigma = Ok out') \/
    (SmoothGaussianKernel.smooth_gaussian_kernel check vect index data sigma = Ok out /\
     SmoothGaussianKernel.smooth_gaussian_kernel check vect index data' sigma = Ok out') ->
    forall o, o <> k -> nth_error out' o = nth_error out o.
Proof.
  intros check vect index data data' sigma out out' k Hn Hc Hcells Hk Hout.
  assert (Hinit : agree_off k (Kernel.initial_output (get_ncol vect) (get_ncol data))
                            (Kernel.initial_output (get_ncol vect) (get_ncol data')))
    by (rewrite Hc; intros o _; auto).
  destruct Hout as [[H H'] | [H H']].
  - destruct (deque_smooth_returns check vect index data sigma out H)
      as [_ [s2 [st [acc [Hs2 [Hb [Hs ->]]]]]]].
    destruct (deque_smooth_returns check vect index data' sigma out' H')
      as [_ [s2' [st' [acc' [Hs2' [Hb' [Hs' ->]]]]]]].
    assert (s2' = s2) by congruence. assert (st' = st) by congruence. subst s2' st'.
    destruct (deque_build_averages_returns vect index st Hb) as [_ [_ [Hmem _]]].
    apply divide_by_total_off.
    apply (foldM_related (agree_off k) (MnnCorrection.smooth_pass data s2 st)
             (MnnCorrection.smooth_pass data' s2 st) (mnncell st))
      with (s := Kernel.initial_output (get_ncol vect) (get_ncol data))
           (s' := Kernel.initial_output (get_ncol vect) (get_ncol data'));
      try assumption.
    intros a s s' r r' Ha HR E E'.
    apply (smooth_pass_off data data' s2 st k a s s' r r'); auto.
    now rewrite Hmem.
  - destruct (vector_smooth_returns check vect index data sigma out H)
      as [_ [s2 [st [acc [Hs2 [Hb [Hs ->]]]]]]].
    destruct (vector_smooth_returns check vect index data' sigma out' H')
      as [_ [s2' [st' [acc' [Hs2' [Hb' [Hs' ->]]]]]]].
    rewrite Hc in Hb'.
    assert (s2' = s2) by congruence. assert (st' = st) by congruence. subst s2' st'.
    destruct (vector_build_averages_returns vect index (get_ncol data) st Hb)
      as [_ [_ [Hmem _]]].
    apply divide_by_total_off.
    apply (foldM_related (agree_off k) (SmoothGaussianKernel.smooth_pass data s2 st)
             (SmoothGaussianKernel.smooth_pass data' s2 st) (mnncell st))
      with (s := Kernel.initial_output (get_ncol vect) (get_ncol data))
           (s' := Kernel.initial_output (get_ncol vect) (get_ncol data'));
      try assumption.
    intros a s s' r r' Ha HR E E'.
    apply (smooth_pass_off data data' s2 st k a s s' r r'); auto.
    now rewrite Hmem.
Qed.

Lemma other_cells_witness :
  exists out out',
    SmoothGaussianKernel.smooth_gaussian_kernel check_numeric_scalar
      Examples.vect1 Examples.index1 Examples.data2 (Fin 1) = Ok out /\
    SmoothGaussianKernel.smooth_gaussian_kernel check_numeric_scalar
      Examples.vect1 Examples.index1 Examples.data2_far (Fin 1) = Ok out' /\
    nth_error out' 0 = nth_error out 0.
Proof.
  assert (Hr : Forall (in_range 2) Examples.index1).
  { unfold Examples.index1, in_range. repeat constructor; simpl; lia. }
  destruct (both_return_when_cells check_numeric_scalar Examples.vect1 Examples.index1
              Examples.data2 (Fin 1) (Fin 1) check_numeric_scalar_one eq_refl Hr)
    as [_ [out Hout]].
  destruct (both_return_when_cells check_numeric_scalar Examples.vect1 Examples.index1
              Examples.data2_far (Fin 1) (Fin 1) check_numeric_scalar_one eq_refl Hr)
    as [_ [out' Hout']].
  exists out, out'. split; [exact Hout |]. split; [exact Hout' |].
  apply (other_cells_do_not_change_a_column check_numeric_scalar Examples.vect1
           Examples.index1 Examples.data2 Examples.data2_far (Fin 1) out out' 1%nat
           eq_refl eq_refl).
  - intros r c Hc. destruct r as [| r].
    + destruct c as [| [| c]]; [reflexivity | congruence | reflexivity].
    + reflexivity.
  - intros [E | []]. discriminate E.
  - right. split; assumption.
  - discriminate.
Defined.

(* ================================================================= *)
(** ** The scale factor is a number *)

(** X20.  With a reference batch that is not empty, a gradient row whose
    norm is a number other than zero, and finite projections of the cell and
    of the reference cells on the normalised row, the scale factor of a cell
    is not a NaN, whatever the bandwidth and the weights are (NaN included):
    the matched quantile is the projection of a reference cell in any case,
    and the weights decide which one and nothing else. *)
Theorem finite_projections_give_a_number :
  forall (check : dbl -> result dbl) (data1 data2 vect : matrix) (sigma s2 : dbl)
         (c : nat) (n : R),
    get_nrow data1 = get_nrow data2 ->
    get_nrow data1 = get_ncol vect ->
    get_ncol data2 = get_nrow vect ->
    check sigma = Ok s2 ->
    get_ncol data1 <> 0%nat ->
    (c < get_ncol data2)%nat ->
    let t := cell_trace_of data1 data2 vect s2 c in
    l2norm t = Fin n -> n <> 0 ->
    is_finite (curproj t) = true ->
    (forall o, (o < get_ncol data1)%nat -> is_finite (projection1 data1 t o) = true) ->
    exists out x,
      adjust_shift_variance check data1 data2 vect sigma = Ok out /\
      nth_error out c = Some x /\ ISNAN x = false.
Proof.
  intros check d1 d2 v sigma s2 c n H1 H2 H3 Hs2 Hnz Hc t Hn Hn0 Hcp Hproj.
  pose proof (adjust_shift_variance_spec check d1 d2 v sigma s2 H1 H2 H3 Hs2) as Hout.
  destruct (ref_quan_in_reference d1 d2 v s2 c H1 Hnz) as [o [Ho Eq]].
  fold t in Eq. specialize (Hproj o Ho).
  eexists. eexists. split; [exact Hout |].
  split; [apply nth_error_map_seq; exact Hc |].
  rewrite cell_trace_scaling. cbv zeta. fold t. rewrite Eq, Hn.
  destruct (curproj t) as [cp | | | |]; try discriminate.
  destruct (projection1 d1 t o) as [rq | | | |]; try discriminate.
  simpl. now rewrite req_false.
Qed.

Lemma finite_projections_witness :
  check_numeric_scalar (Fin 1) = Ok (Fin 1) /\
  l2norm (cell_trace_of Examples.ref3 Examples.query2 Examples.grad2 (Fin 1) 0) = Fin 2 /\
  exists out x,
    adjust_shift_variance check_numeric_scalar
      Examples.ref3 Examples.query2 Examples.grad2 (Fin 1) = Ok out /\
    nth_error out 0 = Some x /\ ISNAN x = false.
Proof.
  assert (Hn0 : 2 <> 0) by lra.
  assert (Hcp : is_finite (curproj (cell_trace_of Examples.ref3 Examples.query2
                                      Examples.grad2 (Fin 1) 0)) = true).
  { destruct example_first_cell as [_ [E _]]. now rewrite E. }
  assert (Hproj : forall o, (o < get_ncol Examples.ref3)%nat ->
            is_finite (projection1 Examples.ref3
                         (cell_trace_of Examples.ref3 Examples.query2 Examples.grad2
                            (Fin 1) 0) o) = true).
  { intros o Ho. now rewrite example_projection1 by exact Ho. }
  split; [exact check_numeric_scalar_one |]. split; [apply example_l2norm |].
  apply (finite_projections_give_a_number check_numeric_scalar Examples.ref3
           Examples.query2 Examples.grad2 (Fin 1) (Fin 1) 0%nat 2 eq_refl eq_refl eq_refl
           check_numeric_scalar_one ltac:(simpl; lia) ltac:(simpl; lia)
           (example_l2norm (Fin 1)) Hn0 Hcp Hproj).
Defined.
